(** * scilifelab_epps: AVITI run manifests and Zika worklists

    A shallow embedding of the index resolver, the collision detector and the
    PhiX fitting of [scripts/generate_aviti_run_manifest.py], of the volume
    solvers and the deck of [scripts/zika_methods.py] and of the worklist
    writer, the well names, the splitting of transfers and the filling of
    buffer wells of [scripts/zika_utils.py], together with the properties
    stated about them.

    Conventions of the embedding:
    - a Python [str] is a list of characters ([list ascii]); literals are
      written as Rocq strings and coerced;
    - a Python [int] is a [Z];
    - a Python [float] is a rational ([Q]): arithmetic is exact, so equalities
      that hold within rounding in the program hold exactly here;
    - a raised exception is an explicit [Raise] result. *)

From Stdlib Require Import List Ascii String ZArith QArith Qminmax Lia Lqa Bool.
From Stdlib Require Import DecimalString Qround.
Import ListNotations.

Open Scope string_scope.
Open Scope Z_scope.
Open Scope list_scope.

(** ** Python values *)

Definition str := list ascii.

Coercion list_ascii_of_string : string >-> list.

Definition len {A : Type} (l : list A) : Z := Z.of_nat (List.length l).

(** [a == b] on strings. *)
Definition str_eqb (a b : str) : bool :=
  if list_eq_dec ascii_dec a b then true else false.

(** Exceptions the modelled code can raise. *)
Inductive exn : Type :=
| AssertionError (msg : str)
| KeyError (key : str)
| IndexError (msg : str)
| ValueError (msg : str)
| TypeError (msg : str)
| AttributeError (msg : str).

Inductive result (A : Type) : Type :=
| Ok (a : A)
| Raise (e : exn).

Arguments Ok {A} a.
Arguments Raise {A} e.

Definition bind {A B : Type} (r : result A) (k : A -> result B) : result B :=
  match r with
  | Ok a => k a
  | Raise e => Raise e
  end.

Notation "x <- r ;; k" := (bind r (fun x => k))
  (at level 61, r at next level, right associativity).

(** [seq[:k]] for an integer [k]: a negative bound counts from the end. *)
Definition slice_to {A : Type} (seq : list A) (k : Z) : list A :=
  if 0 <=? k then firstn (Z.to_nat k) seq
  else firstn (Z.to_nat (len seq + k)) seq.

(** [l[i]] *)
Definition getitem {A : Type} (l : list A) (i : nat) : result A :=
  match nth_error l i with
  | Some x => Ok x
  | None => Raise (IndexError "list index out of range")
  end.

(** A loop that appends to one list and stops at the first exception. *)
Fixpoint for_each {A B : Type} (l : list A) (body : A -> result (list B))
  : result (list B) :=
  match l with
  | [] => Ok []
  | x :: l' => ys <- body x ;; zs <- for_each l' body ;; Ok (ys ++ zs)
  end.

Definition nl : str := [ascii_of_nat 10].

(** [str(n)] for an integer. *)
Definition str_of_Z (n : Z) : str :=
  NilZero.string_of_int (Z.to_int n).

(** [sep.join(parts)] *)
Fixpoint join (sep : str) (parts : list str) : str :=
  match parts with
  | [] => []
  | [p] => p
  | p :: rest => p ++ sep ++ join sep rest
  end.

(** [s.replace(old, new)] for a one-character [old]. *)
Definition replace_char (old : ascii) (new : str) (s : str) : str :=
  flat_map (fun c => if Ascii.eqb c old then new else [c]) s.

(** [s.upper()] on the ASCII letters; the other characters are kept. *)
Definition upper_char (c : ascii) : ascii :=
  let n := nat_of_ascii c in
  if ((97 <=? n) && (n <=? 122))%nat then ascii_of_nat (n - 32) else c.

Definition upper (s : str) : str := map upper_char s.

(** [s.split(sep)] for a one-character separator. *)
Fixpoint split_on (sep : ascii) (s : str) : list str :=
  match s with
  | [] => [[]]
  | c :: s' =>
      if Ascii.eqb c sep then [] :: split_on sep s'
      else match split_on sep s' with
           | [] => [[c]]
           | w :: ws => (c :: w) :: ws
           end
  end.

(** The characters [str.split()] and [str.isspace()] treat as white space,
    among the first 256 code points. *)
Definition is_space (c : ascii) : bool :=
  existsb (Nat.eqb (nat_of_ascii c))
          [9; 10; 11; 12; 13; 28; 29; 30; 31; 32; 133; 160]%nat.

(** [s.split()]: split at runs of white space, without empty pieces.
    [cur] is the piece being read. *)
Fixpoint split_ws_aux (cur : str) (s : str) : list str :=
  match s with
  | [] => match cur with [] => [] | _ => [cur] end
  | c :: s' =>
      if is_space c then
        match cur with
        | [] => split_ws_aux [] s'
        | _ => cur :: split_ws_aux [] s'
        end
      else split_ws_aux (cur ++ [c]) s'
  end.

Definition split_ws (s : str) : list str := split_ws_aux [] s.

(** [sub in s] for strings. *)
Fixpoint is_prefix (p s : str) : bool :=
  match p, s with
  | [], _ => true
  | x :: p', y :: s' => Ascii.eqb x y && is_prefix p' s'
  | _ :: _, [] => false
  end.

Fixpoint contains (sub s : str) : bool :=
  is_prefix sub s ||
  match s with
  | [] => false
  | _ :: s' => contains sub s'
  end.

(** ** Regular expressions, as far as the four index patterns use them *)

Module Re.

Inductive regex : Type :=
| Lit (s : str)                  (* a literal text *)
| Cls (members : str)            (* [...] with its members listed *)
| Cat (r1 r2 : regex)            (* r1 r2 *)
| Alt (r1 r2 : regex)            (* r1|r2 *)
| Opt (r : regex)                (* r? *)
| Star (r : regex)               (* r* *)
| AtLeast (n : nat) (r : regex)  (* r{n,} *)
| Grp (r : regex).               (* (r), capturing; (?:r) is r itself *)

Fixpoint strip_prefix (p s : str) : option str :=
  match p, s with
  | [], _ => Some s
  | x :: p', y :: s' => if Ascii.eqb x y then strip_prefix p' s' else None
  | _ :: _, [] => None
  end.

Section Matcher.
Context {A : Type}.

(** A continuation receives the rest of the input and the groups captured so
    far, in the order in which they were closed. *)
Definition cont : Type := str -> list str -> option A.
Definition step : Type := str -> list str -> cont -> option A.

(** Greedy repetition: one more iteration is tried first, and the
    continuation without it only when that fails. An iteration that consumes
    nothing is not repeated. *)
Fixpoint star (body : step) (fuel : nat) (s : str) (gs : list str) (k : cont)
  : option A :=
  match fuel with
  | O => k s gs
  | S fuel' =>
      match body s gs (fun s' gs' =>
                         if (List.length s' <? List.length s)%nat
                         then star body fuel' s' gs' k else None) with
      | Some a => Some a
      | None => k s gs
      end
  end.

Fixpoint times (body : step) (n : nat) (s : str) (gs : list str) (k : cont)
  : option A :=
  match n with
  | O => k s gs
  | S n' => body s gs (fun s' gs' => times body n' s' gs' k)
  end.

(** Backtracking matcher with the priorities of Python's [re]: the first
    alternative before the second, the longer repetition before the shorter. *)
Fixpoint run (r : regex) (s : str) (gs : list str) (k : cont) : option A :=
  match r with
  | Lit l =>
      match strip_prefix l s with
      | Some s' => k s' gs
      | None => None
      end
  | Cls members =>
      match s with
      | c :: s' => if existsb (Ascii.eqb c) members then k s' gs else None
      | [] => None
      end
  | Cat r1 r2 => run r1 s gs (fun s' gs' => run r2 s' gs' k)
  | Alt r1 r2 =>
      match run r1 s gs k with
      | Some a => Some a
      | None => run r2 s gs k
      end
  | Opt r1 =>
      match run r1 s gs k with
      | Some a => Some a
      | None => k s gs
      end
  | Star r1 => star (run r1) (List.length s) s gs k
  | AtLeast n r1 =>
      times (run r1) n s gs
            (fun s' gs' => star (run r1) (List.length s') s' gs' k)
  | Grp r1 =>
      run r1 s gs
          (fun s' gs' =>
             k s' (gs' ++ [firstn (List.length s - List.length s') s]))
  end.

End Matcher.

Fixpoint groups (r : regex) : nat :=
  match r with
  | Lit _ | Cls _ => 0
  | Cat r1 r2 | Alt r1 r2 => groups r1 + groups r2
  | Opt r1 | Star r1 | AtLeast _ r1 => groups r1
  | Grp r1 => S (groups r1)
  end.

(** A match at the start of [s]: the matched text, the groups, the rest. *)
Definition match_here (r : regex) (s : str) : option (str * list str * str) :=
  run r s []
      (fun s' gs => Some (firstn (List.length s - List.length s') s, gs, s')).

(** The leftmost match in [s]. *)
Fixpoint search (r : regex) (s : str) : option (str * list str * str) :=
  match match_here r s with
  | Some m => Some m
  | None =>
      match s with
      | [] => None
      | _ :: s' => search r s'
      end
  end.

(** What [findall] lists for one match: the matched text when the pattern has
    no group, the group when it has one, the tuple of the groups otherwise. *)
Inductive item : Type :=
| Text (s : str)
| Tuple (parts : list str).

Definition item_of (r : regex) (whole : str) (gs : list str) : item :=
  match groups r with
  | O => Text whole
  | S O => Text (hd [] gs)
  | _ => Tuple gs
  end.

(** [pattern.findall(s)]: the non-overlapping matches from left to right;
    after an empty match the scan moves on by one character. *)
Fixpoint findall_aux (r : regex) (fuel : nat) (s : str) : list item :=
  match fuel with
  | O => []
  | S fuel' =>
      match search r s with
      | None => []
      | Some (whole, gs, rest) =>
          item_of r whole gs ::
          match whole, rest with
          | [], [] => []
          | [], _ :: rest' => findall_aux r fuel' rest'
          | _ :: _, _ => findall_aux r fuel' rest
          end
      end
  end.

Definition findall (r : regex) (s : str) : list item :=
  findall_aux r (S (List.length s)) s.

End Re.

(** ** generate_aviti_run_manifest.py *)

Module Manifest.
Import Re.

(** The pattern of ordinary indexes: a first group [ATCG]{4,}N* , an
    optional dash, a second group [ATCG]* . *)
Definition IDX_PAT : regex :=
  Cat (Grp (Cat (AtLeast 4 (Cls "ATCG")) (Star (Lit "N"))))
      (Cat (Opt (Lit "-")) (Grp (Star (Cls "ATCG")))).

(** The pattern SI-(?:GA|NA)-[A-H][1-9][0-2]? of 10X single indexes. *)
Definition TENX_SINGLE_PAT : regex :=
  Cat (Lit "SI-")
      (Cat (Alt (Lit "GA") (Lit "NA"))
           (Cat (Lit "-")
                (Cat (Cls "ABCDEFGH") (Cat (Cls "123456789") (Opt (Cls "012")))))).

(** The pattern SI-(?:TT|NT|NN|TN|TS)-[A-H][1-9][0-2]? of 10X dual indexes. *)
Definition TENX_DUAL_PAT : regex :=
  Cat (Lit "SI-")
      (Cat (Alt (Lit "TT") (Alt (Lit "NT") (Alt (Lit "NN") (Alt (Lit "TN") (Lit "TS")))))
           (Cat (Lit "-")
                (Cat (Cls "ABCDEFGH") (Cat (Cls "123456789") (Opt (Cls "012")))))).

(** The pattern SMARTSEQ[1-9]?-[1-9][0-9]?[A-P] of SMART-seq3 indexes. *)
Definition SMARTSEQ_PAT : regex :=
  Cat (Lit "SMARTSEQ")
      (Cat (Opt (Cls "123456789"))
           (Cat (Lit "-")
                (Cat (Cls "123456789")
                     (Cat (Opt (Cls "0123456789")) (Cls "ABCDEFGHIJKLMNOP"))))).

(** *** revcomp *)

(** [str.maketrans(frm, to)]: the table of a dict built from [zip(frm, to)];
    a later entry for the same key replaces an earlier one. *)
Definition maketrans (frm to : str) : list (ascii * ascii) :=
  rev (combine frm to).

Definition translate_char (table : list (ascii * ascii)) (c : ascii) : ascii :=
  match find (fun p => Ascii.eqb (fst p) c) table with
  | Some p => snd p
  | None => c
  end.

(** [s.translate(table)]: characters without an entry are kept. *)
Definition translate (table : list (ascii * ascii)) (s : str) : str :=
  map (translate_char table) s.

Definition complement : ascii -> ascii :=
  translate_char (maketrans "ACGT" "TGCA").

(** The translation of A, C, G, T to T, G, C, A, read backwards. *)
Definition revcomp (seq : str) : str :=
  rev (translate (maketrans "ACGT" "TGCA") seq).

Definition is_base (c : ascii) : bool :=
  existsb (Ascii.eqb c) ("ACGT" : str).

(** *** idxs_from_label *)

(** [sub in m], where [m] is a string or a tuple of strings. *)
Definition py_in (sub : str) (m : item) : bool :=
  match m with
  | Text s => contains sub s
  | Tuple parts => existsb (str_eqb sub) parts
  end.

(** [m.split(sep)]: only a string has the method. *)
Definition py_split (sep : ascii) (m : item) : result (list str) :=
  match m with
  | Text s => Ok (split_on sep s)
  | Tuple _ => Raise (AttributeError "'tuple' object has no attribute 'split'")
  end.

(** [table[m]] for a dict with string keys. *)
Definition lookup {V : Type} (table : str -> option V) (m : item) : result V :=
  match m with
  | Text k =>
      match table k with
      | Some v => Ok v
      | None => Raise (KeyError k)
      end
  | Tuple parts => Raise (KeyError (join ", " parts))
  end.

Section Resolver.

(** The two index tables are data files of the repository
    ([data/Chromium_10X_indexes.py] and [data/SMARTSEQ3_indexes.json]);
    they are taken as they come. *)
Variable Chromium_10X_indexes : str -> option (list str).
Variable SMARTSEQ3_INDEXES : str -> option (list (list str)).

Definition idxs_from_label (label : str) : result (list item) :=
  match findall TENX_SINGLE_PAT label with
  | m :: _ =>
      (* Expand 10X single indexes *)
      tenX <- lookup Chromium_10X_indexes m ;;
      Ok (map Text tenX)
  | [] =>
  match findall TENX_DUAL_PAT label with
  | m :: _ =>
      (* Case of 10X dual indexes *)
      entry <- lookup Chromium_10X_indexes m ;;
      i7_idx <- getitem entry 0 ;;
      i5_idx <- getitem entry 1 ;;
      Ok [Tuple [i7_idx; revcomp i5_idx]]
  | [] =>
  match findall SMARTSEQ_PAT label with
  | m :: _ =>
      (* Case of SS3 indexes *)
      entry <- lookup SMARTSEQ3_INDEXES m ;;
      i7s <- getitem entry 0 ;;
      for_each i7s (fun i7_idx =>
        i5s <- getitem entry 1 ;;
        Ok (map (fun i5_idx => Tuple [i7_idx; revcomp i5_idx]) i5s))
  | [] =>
  if str_eqb (upper (replace_char "," [] label)) "NOINDEX"
     || str_eqb (upper (replace_char "," [] label)) []
  then Raise (AssertionError "NoIndex cases not allowed.")
  else
  match findall IDX_PAT label with
  | m :: _ =>
      (* Ordinary indexes *)
      if py_in "-" m then
        parts <- py_split "-" m ;;
        match parts with
        | [idx1; idx2] => Ok [Tuple [idx1; revcomp idx2]]
        | _ => Raise (ValueError "wrong number of values to unpack")
        end
      else Ok [m]
  | [] =>
      Raise (AssertionError ("Could not parse index from '" ++ label ++ "'."))
  end end end end.

(** The fields of a manifest row that the resolver and the collision
    detector read or write. *)
Record Row : Type := mkRow {
  SampleName : str;
  Index1 : str;
  Index2 : str;
  Lane : str;
  Project : str;
  Recipe : str
}.

(** The rows [make_manifests] adds for one sample: a tuple is unpacked into
    [Index1] and [Index2], a string is [Index1] with an empty [Index2]. *)
Definition row_of_idx (name lane project seq_setup : str) (idx : item)
  : result Row :=
  match idx with
  | Tuple [i1; i2] => Ok (mkRow name i1 i2 lane project seq_setup)
  | Tuple _ => Raise (ValueError "wrong number of values to unpack")
  | Text i1 => Ok (mkRow name i1 [] lane project seq_setup)
  end.

Definition sample_rows (name lane project seq_setup lims_label : str)
  : result (list Row) :=
  idxs <- idxs_from_label lims_label ;;
  for_each idxs (fun idx =>
    r <- row_of_idx name lane project seq_setup idx ;; Ok [r]).

End Resolver.

(** *** fit_seq *)

Definition fit_seq (seq : str) (length : Z) (seq_extension : option str)
  : result str :=
  if len seq =? length then Ok seq
  else if len seq >? length then Ok (slice_to seq length)
  else
    match seq_extension with
    | None =>
        Raise (AssertionError "Can't extend sequence without extension string.")
    | Some ext =>
        if length - len seq >? len ext then
          Raise (AssertionError
                   "Extension string too short to fit sequence to desired length.")
        else Ok (seq ++ slice_to ext (length - len seq))
    end.

(** *** The collision detector *)

(** The number of positions at which two strings differ. *)
Fixpoint mismatches (a b : str) : nat :=
  match a, b with
  | x :: a', y :: b' => (if Ascii.eqb x y then 0 else 1) + mismatches a' b'
  | _, _ => 0
  end.

(** [Levenshtein.hamming], imported as [distance] and called with its
    default [pad=True]: the shorter string is padded to the length of the
    longer, so every position beyond the end of the shorter string counts as
    a difference. The function returns a count for every two strings. *)
Definition distance (a b : str) : nat :=
  (mismatches a b
   + (List.length a - List.length b) + (List.length b - List.length a))%nat.

(** [show_match(seq1, seq2)] *)
Definition show_match (seq1 seq2 : str) : result str :=
  if negb (len seq1 =? len seq2) then Raise (AssertionError [])
  else
    let m := map (fun p : ascii * ascii =>
                    if Ascii.eqb (fst p) (snd p) then "|"%char else "X"%char)
                 (combine seq1 seq2) in
    Ok (join nl [seq1; m; seq2]).

(** [show_match( *args )]: the function takes exactly two arguments. *)
Definition show_match_star (args : list str) : result str :=
  match args with
  | [seq1; seq2] => show_match seq1 seq2
  | _ => Raise (TypeError "show_match() takes 2 positional arguments")
  end.

(** One entry of [flips]: the distance, the compared sequences, the
    conformation. *)
Definition flip : Type := (nat * str * str)%type.

(** The four nested loops of the flip search. *)
Definition flips (row row_comp : Row) : result (list flip) :=
  for_each [(Index1 row, "Index1" : str); (revcomp (Index1 row), "Index1_rc" : str)]
    (fun '(a1, _a1) =>
  for_each [(Index2 row, "Index2" : str); (revcomp (Index2 row), "Index2_rc" : str)]
    (fun '(a2, _a2) =>
  for_each [(Index1 row_comp, "Index1" : str);
            (revcomp (Index1 row_comp), "Index1_rc" : str)]
    (fun '(b1, _b1) =>
  for_each [(Index2 row_comp, "Index2" : str);
            (revcomp (Index2 row_comp), "Index2_rc" : str)]
    (fun '(b2, _b2) =>
       Ok [((distance a1 b1 + distance a2 b2)%nat,
            a1 ++ "-" ++ a2 ++ " " ++ b1 ++ "-" ++ b2,
            _a1 ++ "-" ++ _a2 ++ " " ++ _b1 ++ "-" ++ _b2)])))).

(** [min(l, key=lambda x: x[0])]: the first entry with the least key. *)
Fixpoint min_from (best : flip) (l : list flip) : flip :=
  match l with
  | [] => best
  | x :: l' =>
      if (fst (fst x) <? fst (fst best))%nat then min_from x l'
      else min_from best l'
  end.

Definition min_by_dist (l : list flip) : result flip :=
  match l with
  | [] => Raise (ValueError "min() arg is an empty sequence")
  | x :: l' => Ok (min_from x l')
  end.

(** The first half of [check_pair_distance]: [dist], [compared_seqs] and,
    when flips are checked, [flip_conf] (left empty otherwise, where the
    program does not bind it). *)
Definition pair_distance (row row_comp : Row) (check_flips : bool)
  : result flip :=
  if check_flips then
    fl <- flips row row_comp ;;
    min_by_dist fl
  else
    let dist := distance (Index1 row ++ Index2 row)
                         (Index1 row_comp ++ Index2 row_comp) in
    Ok (dist,
        Index1 row ++ "-" ++ Index2 row ++ " "
          ++ Index1 row_comp ++ "-" ++ Index2 row_comp,
        []).

(** The second half: the warning and the fatal error. The log is the list
    of the messages given to [logging.warning]. *)
Definition report (row row_comp : Row) (check_flips : bool)
           (dist_warning_threshold : Z) (found : flip) (log : list str)
  : list str * result unit :=
  let '(dist, compared_seqs, flip_conf) := found in
  if Z.of_nat dist <=? dist_warning_threshold then
    let lines1 :=
      ["Hamming distance " ++ str_of_Z (Z.of_nat dist) ++ " between "
         ++ SampleName row ++ " and " ++ SampleName row_comp] in
    let lines2 :=
      if check_flips then
        lines1 ++
        ["Given: " ++ Index1 row ++ "-" ++ Index2 row ++ " <-> "
           ++ Index1 row_comp ++ "-" ++ Index2 row_comp;
         "Distance: " ++ str_of_Z (Z.of_nat dist) ++ " when flipped to "
           ++ flip_conf]
      else lines1 in
    let lines3 :=
      if len (Index1 row) + len (Index2 row)
         =? len (Index1 row_comp) + len (Index2 row_comp)
      then m <- show_match_star (split_ws compared_seqs) ;; Ok (lines2 ++ [m])
      else Ok lines2 in
    match lines3 with
    | Raise e => (log, Raise e)
    | Ok warning_lines =>
        let log' := log ++ [join nl warning_lines] in
        if (dist =? 0)%nat
        then (log', Raise (AssertionError "Identical indices detected."))
        else (log', Ok tt)
    end
  else (log, Ok tt).

Definition check_pair_distance (row row_comp : Row) (check_flips : bool)
           (dist_warning_threshold : Z) (log : list str)
  : list str * result unit :=
  match pair_distance row row_comp check_flips with
  | Raise e => (log, Raise e)
  | Ok found => report row row_comp check_flips dist_warning_threshold found log
  end.

(** [check_distances]: every row against the rows after it. *)
Fixpoint check_against (row : Row) (rest : list Row)
         (dist_warning_threshold : Z) (log : list str)
  : list str * result unit :=
  match rest with
  | [] => (log, Ok tt)
  | row_comp :: rest' =>
      match check_pair_distance row row_comp false dist_warning_threshold log with
      | (log', Ok _) => check_against row rest' dist_warning_threshold log'
      | (log', Raise e) => (log', Raise e)
      end
  end.

Fixpoint check_distances (rows : list Row) (dist_warning_threshold : Z)
         (log : list str) : list str * result unit :=
  match rows with
  | [] => (log, Ok tt)
  | row :: rest =>
      match check_against row rest dist_warning_threshold log with
      | (log', Ok _) => check_distances rest dist_warning_threshold log'
      | (log', Raise e) => (log', Raise e)
      end
  end.

End Manifest.

(** ** zika_methods.py *)

Definition Qlt_bool (a b : Q) : bool := negb (Qle_bool b a).

Definition Qabs' (a : Q) : Q := if Qle_bool 0 a then a else Qopp a.

(** [sum(l)] and the built-in [max(l)], [min(l)] of a non-empty sequence:
    the first greatest and the first least element. *)
Definition Qsum (l : list Q) : Q := fold_left Qplus l 0%Q.

Definition Qmax_list (x : Q) (l : list Q) : Q :=
  fold_left (fun best y => if Qlt_bool best y then y else best) l x.

Definition Qmin_list (x : Q) (l : list Q) : Q :=
  fold_left (fun best y => if Qlt_bool y best then y else best) l x.

(** [series.unique()]: the distinct values in the order of first occurrence. *)
Fixpoint unique {A : Type} (eqb : A -> A -> bool) (l : list A) : list A :=
  match l with
  | [] => []
  | x :: l' => x :: filter (fun y => negb (eqb x y)) (unique eqb l')
  end.

Module Norm.
Local Open Scope Q_scope.

(** The columns of the dataframe that [norm] computes with. [vol] is the
    volume in the source well as fetched from the LIMS. *)
Record sample : Type := mkSample {
  sample_name : str;
  conc : Q;
  conc_units : str;
  vol : Q;
  source_fc : str;
  dest_fc : str;
  target_amt : Q;
  target_vol : Q
}.

Record params : Type := mkParams {
  volume_expansion : bool;
  zika_min_vol : Q;
  well_dead_vol : Q;
  well_max_vol : Q
}.

(** The defaults of [norm]. *)
Definition default_params : params := mkParams true (1 # 10) 5 15.

(** One entry of [d]: the solved volumes of a sample. *)
Record volumes : Type := mkVolumes {
  sample_vol : Q;
  buffer_vol : Q;
  tot_vol : Q
}.

(** What the loop appends to the log for a sample. The program renders the
    numbers with two decimals; the entries keep the numbers themselves. *)
Inductive log_entry : Type :=
| Warning_deviating (name : str) (sample_vol final_amt tot_vol final_conc : Q)
| Normalized (name : str) (final_amt tot_vol final_conc : Q).

(** [df.vol - well_dead_vol] in a row: the accessible volume. *)
Definition take_dead_volume (p : params) (r : sample) : sample :=
  mkSample (sample_name r) (conc r) (conc_units r) (vol r - well_dead_vol p)
           (source_fc r) (dest_fc r) (target_amt r) (target_vol r).

(** The assertions before the loop, and the dead volume taken off [vol].
    The message of the first assertion names the dead volume in the program;
    here it is a fixed text. *)
Definition prepare (p : params) (df : list sample) : result (list sample) :=
  if negb (forallb (fun r => Qlt_bool (well_dead_vol p) (vol r)) df) then
    Raise (AssertionError "The minimum required source volume is not met")
  else
    let df := map (take_dead_volume p) df in
    if negb (forallb (fun r => str_eqb (conc_units r) "ng/ul") df) then
      Raise (AssertionError "All sample concentrations are expected in 'ng/ul'")
    else if negb (forallb (fun r => Qlt_bool 0 (target_amt r)) df) then
      Raise (AssertionError "Target amount needs to be greater than zero")
    else if negb (List.length (unique str_eqb (map source_fc df)) =? 1)%nat then
      Raise (AssertionError "Only one input plate allowed")
    else if negb (List.length (unique str_eqb (map dest_fc df)) =? 1)%nat then
      Raise (AssertionError "Only one output plate allowed")
    else Ok df.

Definition target_conc (r : sample) : Q := target_amt r / target_vol r.

Definition min_transfer_amt (p : params) (r : sample) : Q :=
  Qmin (vol r) (zika_min_vol p) * conc r.

Definition max_transfer_amt (r : sample) : Q :=
  Qmin (vol r) (target_vol r) * conc r.

(** The case analysis of the loop body for one row [r], whose [vol] is the
    accessible volume. With exact numbers one of the three conditions always
    holds; the last branch stands for leaving the [if] without a binding.
    The message of the assertion also renders the concentration in the
    program; here it keeps the name of the sample only. *)
Definition solve (p : params) (r : sample) : result volumes :=
  if Qlt_bool (max_transfer_amt r) (target_amt r) then
    (* 1) Not enough sample *)
    let sample_vol := Qmin (target_vol r) (vol r) in
    let tot_vol := target_vol r in
    let buffer_vol := tot_vol - sample_vol in
    Ok (mkVolumes sample_vol buffer_vol tot_vol)
  else if Qle_bool (min_transfer_amt p r) (target_amt r)
          && Qle_bool (target_amt r) (max_transfer_amt r) then
    (* 2) Ideal case *)
    let sample_vol := target_amt r / conc r in
    let buffer_vol := target_vol r - sample_vol in
    let tot_vol := sample_vol + buffer_vol in
    Ok (mkVolumes sample_vol buffer_vol tot_vol)
  else if Qlt_bool (target_amt r) (min_transfer_amt p r) then
    (* 3) Sample too concentrated *)
    if volume_expansion p then
      let increased_vol := min_transfer_amt p r / target_conc r in
      if negb (Qle_bool increased_vol (well_max_vol p)) then
        Raise (AssertionError
                 ("Sample " ++ sample_name r
                    ++ " is too concentrated and must be diluted manually"))
      else
        let tot_vol := increased_vol in
        let sample_vol := zika_min_vol p in
        let buffer_vol := tot_vol - sample_vol in
        Ok (mkVolumes sample_vol buffer_vol tot_vol)
    else
      let sample_vol := zika_min_vol p in
      let tot_vol := target_vol r in
      let buffer_vol := tot_vol - sample_vol in
      Ok (mkVolumes sample_vol buffer_vol tot_vol)
  else Raise (AssertionError "sample_vol referenced before assignment").

(** The log entry of a solved row: flagged when the amount deviates from
    the target. The divisions are those of [Q], which are total. *)
Definition log_row (r : sample) (v : volumes) : log_entry :=
  let final_amt := sample_vol v * conc r in
  let final_conc := final_amt / tot_vol v in
  let amt_frac := final_amt / target_amt r in
  if Qle_bool (5 # 1000) (Qabs' (amt_frac - 1)) then
    Warning_deviating (sample_name r) (sample_vol v) final_amt (tot_vol v)
                      final_conc
  else Normalized (sample_name r) final_amt (tot_vol v) final_conc.

(** The loop over the rows: a failed assertion ends the run. *)
Fixpoint solve_all (p : params) (df : list sample)
  : result (list volumes * list log_entry) :=
  match df with
  | [] => Ok ([], [])
  | r :: df' =>
      v <- solve p r ;;
      rest <- solve_all p df' ;;
      Ok (v :: fst rest, log_row r v :: snd rest)
  end.

(** [norm] up to the solved volumes [d] and the log. *)
Definition norm (p : params) (df : list sample)
  : result (list volumes * list log_entry) :=
  df <- prepare p df ;;
  solve_all p df.

End Norm.

(** Lexicographic order of strings by code point, and the stable sort that
    [sort_values] and [list.sort] give for string keys. *)
Fixpoint str_leb (a b : str) : bool :=
  match a, b with
  | [], _ => true
  | _ :: _, [] => false
  | x :: a', y :: b' =>
      if (nat_of_ascii x <? nat_of_ascii y)%nat then true
      else if (nat_of_ascii y <? nat_of_ascii x)%nat then false
      else str_leb a' b'
  end.

Fixpoint insert_by {A : Type} (key : A -> str) (x : A) (l : list A) : list A :=
  match l with
  | [] => [x]
  | y :: l' =>
      if str_leb (key y) (key x) then y :: insert_by key x l' else x :: y :: l'
  end.

Definition sort_by {A : Type} (key : A -> str) (l : list A) : list A :=
  fold_left (fun acc x => insert_by key x acc) l [].

Module Pool.
Local Open Scope Q_scope.

(** A row of the dataframe of [pool]: the columns listed in [to_fetch] and
    the column [full_vol] that [pool] adds. *)
Record sample : Type := mkSample {
  sample_name : str;
  conc : Q;
  conc_units : str;
  vol : Q;
  source_fc : str;
  source_well : str;
  dest_fc : str;
  dest_well : str;
  dest_fc_name : str;
  amt_taken : Q;
  pool_vol_final : Q;
  target_name : str;
  full_vol : Q
}.

Inductive cell : Type :=
| Num (q : Q)
| Txt (s : str).

(** [fetch_sample_data] builds the dataframe from one dict for each pair of
    artifacts, with one key for each entry of [to_fetch]: these are its
    columns; [pool] itself adds [full_vol] before the loop over the pools. *)
Definition to_fetch : list str :=
  ["sample_name" : str; "conc" : str; "conc_units" : str; "vol" : str;
   "source_fc" : str; "source_well" : str; "dest_fc" : str; "dest_well" : str;
   "dest_fc_name" : str; "amt_taken" : str; "pool_vol_final" : str;
   "target_name" : str].

Definition columns : list (str * (sample -> cell)) :=
  [("sample_name" : str, fun r => Txt (sample_name r));
   ("conc" : str, fun r => Num (conc r));
   ("conc_units" : str, fun r => Txt (conc_units r));
   ("vol" : str, fun r => Num (vol r));
   ("source_fc" : str, fun r => Txt (source_fc r));
   ("source_well" : str, fun r => Txt (source_well r));
   ("dest_fc" : str, fun r => Txt (dest_fc r));
   ("dest_well" : str, fun r => Txt (dest_well r));
   ("dest_fc_name" : str, fun r => Txt (dest_fc_name r));
   ("amt_taken" : str, fun r => Num (amt_taken r));
   ("pool_vol_final" : str, fun r => Num (pool_vol_final r));
   ("target_name" : str, fun r => Txt (target_name r));
   ("full_vol" : str, fun r => Num (full_vol r))].

(** [df.loc[mask, column]]: the cells of a column in the selected rows; a
    label that is not a column raises KeyError. *)
Definition loc (mask : sample -> bool) (column : str) (df : list sample)
  : result (list cell) :=
  match find (fun c => str_eqb (fst c) column) columns with
  | Some c => Ok (map (snd c) (filter mask df))
  | None => Raise (KeyError column)
  end.

Definition cell_text (c : cell) : str :=
  match c with
  | Txt s => s
  | Num _ => []
  end.

Definition set_conc (r : sample) (c : Q) : sample :=
  mkSample (sample_name r) c (conc_units r) (vol r) (source_fc r)
           (source_well r) (dest_fc r) (dest_well r) (dest_fc_name r)
           (amt_taken r) (pool_vol_final r) (target_name r) (full_vol r).

Definition set_vol (r : sample) (v : Q) : sample :=
  mkSample (sample_name r) (conc r) (conc_units r) v (source_fc r)
           (source_well r) (dest_fc r) (dest_well r) (dest_fc_name r)
           (amt_taken r) (pool_vol_final r) (target_name r) (vol r).

Record params : Type := mkParams {
  zika_min_vol : Q;
  well_dead_vol : Q;
  well_max_vol : Q
}.

(** The defaults of [pool]. *)
Definition default_params : params := mkParams (1 # 2) 5 180.

(** An output pool: its name and the UDF [Pool Conc. (nM)], if it is set. *)
Record pool_art : Type := mkPool {
  pool_name : str;
  pool_conc_udf : option Q
}.

(** The entries that the loop appends to the log. The program renders the
    numbers with two decimals; the entries keep the numbers themselves. *)
Inductive log_entry : Type :=
| Pooling (n : nat) (name : str)
| Target (target_pool_conc target_amt target_pool_vol : Q)
| Warning_low_conc (names : list str)
| Range (pool_min_conc pool_max_conc pool_min_sample_vol well_max_vol : Q)
| Warning_depleted (highest_conc_sample : str)
| Warning_conc_adjusted (pool_conc : Q)
| Warning_vol_adjusted (pool_vol : Q)
| Pooling_OK.

(** The values the loop body settles for one pool. [pool_max_vol_given_conc]
    is bound only where an even pool is possible. *)
Record outcome : Type := mkOutcome {
  even_pool_is_possible : bool;
  pool_min_conc : Q;
  pool_max_conc : Q;
  pool_conc : Q;
  pool_min_vol_given_conc : Q;
  pool_max_vol_given_conc : option Q;
  pool_vol : Q;
  transfer_vol : list Q;
  buffer_vol : option Q;
  log : list log_entry
}.

(** The row of the highest concentration, the first of them. *)
Definition highest_conc (r : sample) (df : list sample) : sample :=
  fold_left (fun best x => if Qlt_bool (conc best) (conc x) then x else best)
            df r.

Definition n_samples (df : list sample) : Q := inject_Z (len df).

(** The body of the loop over the pools, up to the transfer volumes and the
    buffer volume; [df_pool] holds the rows of the pool, with the dead volume
    already taken off [vol]. The message of the first assertion renders the
    value of [well_max_vol] in the program; here it keeps the name. *)
Definition solve (p : params) (pool : pool_art) (df_pool : list sample)
  : result outcome :=
  (* === PREPARE CALCULATION INPUTS === *)
  target_pool_vol <- getitem (unique Qeq_bool (map pool_vol_final df_pool)) 0 ;;
  targets <-
    match pool_conc_udf pool with
    | Some target_pool_conc =>
        Ok (target_pool_conc,
            target_pool_conc * target_pool_vol / n_samples df_pool)
    | None =>
        target_amt <- getitem (unique Qeq_bool (map amt_taken df_pool)) 0 ;;
        Ok (target_amt * n_samples df_pool / target_pool_vol, target_amt)
    end ;;
  let '(target_pool_conc, target_amt) := targets in
  if negb (Qlt_bool 0 target_pool_vol
           && Qle_bool target_pool_vol (well_max_vol p)) then
    Raise (AssertionError "The target pool volume must be >0 - well_max_vol ul")
  else if negb (Qlt_bool 0 target_amt) then
    Raise (AssertionError "The target concentratinon of the pool must be >0")
  else
  let log1 := [Pooling (List.length df_pool) (pool_name pool);
               Target target_pool_conc target_amt target_pool_vol] in
  (* Set any negative or negligible concentrations to 0.01 and flag in log *)
  let low := fun r => Qlt_bool (conc r) (1 # 100) in
  low_conc <- loc low "conc" df_pool ;;
  clamped <-
    match low_conc with
    | _ :: _ =>
        neg_conc_sample_names <- loc low "name" df_pool ;;
        let neg_conc_sample_names := sort_by cell_text neg_conc_sample_names in
        Ok (map (fun r => if low r then set_conc r (1 # 100) else r) df_pool,
            log1 ++ [Warning_low_conc (map cell_text neg_conc_sample_names)])
    | [] => Ok (df_pool, log1)
    end ;;
  let '(df_pool, log2) := clamped in
  (* === CALCULATE SAMPLE RANGES === *)
  let min_amount := map (fun r => zika_min_vol p * conc r) df_pool in
  let max_amount := map (fun r => vol r * conc r) df_pool in
  match df_pool, min_amount, max_amount with
  | s0 :: others, min0 :: min_amount', max0 :: max_amount' =>
      (* === DEAL WITH IMPERFECT POOLS === *)
      let highest_min_amount := Qmax_list min0 min_amount' in
      let lowest_max_amount := Qmin_list max0 max_amount' in
      let even_pool_is_possible := Qlt_bool highest_min_amount lowest_max_amount in
      let pool_min_amt := highest_min_amount * n_samples df_pool in
      let pool_min_sample_vol :=
        Qsum (map (fun r => highest_min_amount / conc r) df_pool) in
      let pool_min_conc := pool_min_amt / well_max_vol p in
      let pool_max_conc := pool_min_amt / pool_min_sample_vol in
      let log3 :=
        log2 ++ [Range pool_min_conc pool_max_conc pool_min_sample_vol
                       (well_max_vol p)] in
      (* Nudge conc, if necessary *)
      let pool_conc :=
        if Qlt_bool pool_max_conc target_pool_conc then pool_max_conc
        else if Qlt_bool target_pool_conc pool_min_conc then pool_min_conc
        else target_pool_conc in
      (* Nudge vol, if necessary *)
      let pool_min_vol_given_conc :=
        Qmin (pool_min_amt / pool_conc) (well_max_vol p) in
      let pool_max_amt := lowest_max_amount * n_samples df_pool in
      let pool_max_vol_given_conc :=
        Qmin (pool_max_amt / pool_conc) (well_max_vol p) in
      let pool_vol :=
        if even_pool_is_possible then
          if Qlt_bool target_pool_vol pool_min_vol_given_conc
          then pool_min_vol_given_conc
          else if Qlt_bool pool_max_vol_given_conc target_pool_vol
          then well_max_vol p
          else target_pool_vol
        else pool_min_vol_given_conc in
      let log4 :=
        if even_pool_is_possible then log3
        else log3 ++ [Warning_depleted (sample_name (highest_conc s0 others))] in
      let log5 :=
        log4
          ++ (if negb (Qeq_bool target_pool_conc pool_conc)
              then [Warning_conc_adjusted pool_conc] else [])
          ++ (if negb (Qeq_bool target_pool_vol pool_vol)
              then [Warning_vol_adjusted pool_vol] else [])
          ++ (if Qeq_bool target_pool_conc pool_conc
                 && Qeq_bool target_pool_vol pool_vol
              then [Pooling_OK] else []) in
      (* Append transfer volumes *)
      let sample_transfer_amount := pool_conc * pool_vol / n_samples df_pool in
      let transfer_vol :=
        map (fun r => Qmin (sample_transfer_amount / conc r) (vol r)) df_pool in
      (* Calculate and store pool buffer volume *)
      let total_sample_vol := Qsum transfer_vol in
      let buffer_vol :=
        if Qlt_bool (1 # 2) (pool_vol - total_sample_vol)
        then Some (pool_vol - total_sample_vol) else None in
      Ok (mkOutcome even_pool_is_possible pool_min_conc pool_max_conc pool_conc
                    pool_min_vol_given_conc
                    (if even_pool_is_possible
                     then Some pool_max_vol_given_conc else None)
                    pool_vol transfer_vol buffer_vol log5)
  | _, _, _ => Raise (ValueError "max() arg is an empty sequence")
  end.

(** [pool] up to the solved pools: the assertions on the whole dataframe,
    the dead volume taken off, then the pools in the order of their names.
    The message of the first assertion names the dead volume in the program;
    here it is a fixed text. *)
Definition pool (p : params) (pools : list pool_art) (df_all : list sample)
  : result (list (str * outcome)) :=
  if negb (forallb (fun r => Qlt_bool (well_dead_vol p) (vol r)) df_all) then
    Raise (AssertionError "The minimum required source volume is not met")
  else
    let df_all := map (fun r => set_vol r (vol r - well_dead_vol p)) df_all in
    if negb (List.length (unique str_eqb (map source_fc df_all)) <=? 4)%nat then
      Raise (AssertionError "Only one to four input plates allowed")
    else if negb (List.length (unique str_eqb (map dest_fc df_all)) =? 1)%nat then
      Raise (AssertionError "Only one output plate allowed")
    else
      for_each (sort_by pool_name pools) (fun pool =>
        let name := replace_char "," ";" (pool_name pool) in
        let df_pool := filter (fun r => str_eqb (target_name r) name) df_all in
        o <- solve p (mkPool name (pool_conc_udf pool)) df_pool ;;
        Ok [(name, o)]).

End Pool.

(** ** zika_utils.py: write_worklist *)

Module Worklist.

Inductive transfer_type : Type :=
| COPY
| MULTI_ASPIRATE
| CHANGE_PIPETTES.

Definition type_name (t : transfer_type) : str :=
  match t with
  | COPY => "COPY"
  | MULTI_ASPIRATE => "MULTI_ASPIRATE"
  | CHANGE_PIPETTES => "CHANGE_PIPETTES"
  end.

(** A row of the formatted dataframe: one transfer. The volume is in whole
    nanolitres, the positions are deck positions, rows and columns are the
    texts that [well2rowcol] produced. *)
Record transfer : Type := mkTransfer {
  src_name : str;
  src_well : str;
  dst_name : str;
  dst_well : str;
  transfer_vol : Z;
  src_pos : Z;
  dst_pos : Z;
  src_row : str;
  src_col : str;
  dst_row : str;
  dst_col : str
}.

(** Commas become semicolons in the columns that hold strings. *)
Definition replace_commas (r : transfer) : transfer :=
  let f := replace_char "," ";" in
  mkTransfer (f (src_name r)) (f (src_well r)) (f (dst_name r)) (f (dst_well r))
             (transfer_vol r) (src_pos r) (dst_pos r)
             (f (src_row r)) (f (src_col r)) (f (dst_row r)) (f (dst_col r)).

(** The filter of the multi-aspiration, for a row and the row after it. *)
Definition multi_aspirate_filter (r next : transfer) : bool :=
  (* End position of next transfer is the same *)
  (dst_pos r =? dst_pos next)
  (* End well of the next transfer is the same *)
  && str_eqb (dst_well r) (dst_well next)
  (* This transfer is buffer *)
  && str_eqb (src_name r) "buffer_plate"
  (* Next transfer is not buffer *)
  && negb (str_eqb (src_name next) "buffer_plate")
  (* Sum of this and next transfer is <= 5 ul *)
  && (transfer_vol r + transfer_vol next <=? 5000).

(** The column [transfer_type]: COPY by default; the last row has no row
    after it, and every comparison with the missing row fails. *)
Fixpoint transfer_types (multi_aspirate : bool) (df : list transfer)
  : list transfer_type :=
  match df with
  | [] => []
  | r :: rest =>
      (match rest with
       | next :: _ =>
           if multi_aspirate && multi_aspirate_filter r next
           then MULTI_ASPIRATE else COPY
       | [] => COPY
       end) :: transfer_types multi_aspirate rest
  end.

Definition tip_strat_always : str := "[VAR1]".
Definition tip_strat_never : str := "[VAR2]".

(** The line written for one transfer. *)
Definition transfer_line (t : transfer_type) (tip_strat : str) (r : transfer)
  : str :=
  match t with
  | COPY =>
      join ","
           [type_name t; str_of_Z (src_pos r); src_col r; src_col r; src_row r;
            str_of_Z (dst_pos r); dst_col r; dst_row r;
            str_of_Z (transfer_vol r); tip_strat] ++ nl
  | MULTI_ASPIRATE =>
      join ","
           [type_name t; str_of_Z (src_pos r); src_col r; src_row r; "1" : str;
            str_of_Z (transfer_vol r)] ++ nl
  | CHANGE_PIPETTES => type_name t ++ nl
  end.

(** The lines of the transfers, in the order of the dataframe. Without
    [keep_buffer_tips] every row changes tips. *)
Definition transfer_lines (multi_aspirate : bool) (df : list transfer)
  : list str :=
  let df := map replace_commas df in
  map (fun tr => transfer_line (fst tr) tip_strat_always (snd tr))
      (combine (transfer_types multi_aspirate df) df).

(** [get_deck_comment]: the plate at each of the five positions; of two
    plates at one position the later entry of the deck counts. *)
Definition plate_at (deck : list (str * Z)) (pos : Z) : str :=
  match find (fun e => snd e =? pos) (rev deck) with
  | Some e => replace_char "," [] (fst e)
  | None => "[Empty]"
  end.

Definition get_deck_comment (deck : list (str * Z)) : str :=
  "COMMENT, Set up layout:    "
    ++ join "     " (map (plate_at deck) [1; 2; 3; 4; 5]) ++ nl.

(** [write_worklist] with [keep_buffer_tips] left at its default, as in the
    calls of [zika_methods.py]: the text written to the worklist file. *)
Definition write_worklist (df : list transfer) (deck : list (str * Z))
           (wl_filename : str) (comments : list str) (multi_aspirate : bool)
  : str :=
  let variable_definitions : list str :=
    match df with
    | [] => []
    | _ :: _ => [tip_strat_always ++ "TipChangeStrategy"; "always" : str]
    end in
  "worklist," ++ nl
    ++ join "," variable_definitions ++ nl
    ++ "COMMENT, This is the worklist " ++ wl_filename ++ nl
    ++ List.concat (map (fun e => "COMMENT, " ++ e ++ nl) comments)
    ++ get_deck_comment deck
    ++ List.concat (transfer_lines multi_aspirate df)
    ++ "COMMENT, Done".

End Worklist.

(** ** generate_aviti_run_manifest.py: the PhiX controls *)

Module Phix.
Import Manifest.

(** An entry of [PHIX_SETS]: the nickname and the index pairs of a kit. *)
Record phix_set : Type := mkSet {
  nickname : str;
  indices : list (str * str)
}.

(** Element PhiX control sets, keys are options in LIMS dropdown UDF. *)
Definition PHIX_SETS : list (str * phix_set) :=
  [("PhiX Control Library, Adept" : str,
    mkSet "PhiX_Adept"
          [("ATGTCGCTAG" : str, "CTAGCTCGTA" : str);
           ("CACAGATCGT" : str, "ACGAGAGTCT" : str);
           ("GCACATAGTC" : str, "GACTACTAGC" : str);
           ("TGTGTCGACA" : str, "TGTCTGACAG" : str)]);
   ("Cloudbreak PhiX Control Library, Elevate" : str,
    mkSet "PhiX_Elevate"
          [("ACGTGTAGC" : str, "GCTAGTGCA" : str);
           ("CACATGCTG" : str, "AGACACTGT" : str);
           ("GTACACGAT" : str, "CTCGTACAG" : str);
           ("TGTGCATCA" : str, "TAGTCGATC" : str)]);
   ("Cloudbreak Freestyle PhiX Control, Third Party" : str,
    mkSet "PhiX_Third"
          [("ATGTCGCTAG" : str, "CTAGCTCGTA" : str);
           ("CACAGATCGT" : str, "ACGAGAGTCT" : str);
           ("GCACATAGTC" : str, "GACTACTAGC" : str);
           ("TGTGTCGACA" : str, "TGTCTGACAG" : str)])].

(** [PHIX_SETS[phix_set_name]] *)
Definition get_set (phix_set_name : str) : result phix_set :=
  match find (fun e => str_eqb (fst e) phix_set_name) PHIX_SETS with
  | Some e => Ok (snd e)
  | None => Raise (KeyError phix_set_name)
  end.

(** The rows that [make_manifests] adds to a group of samples with PhiX
    loaded: one row for each index pair of the kit, fitted to the index
    lengths of the group. *)
Definition phix_rows (phix_set_name : str) (len_idx1 len_idx2 : Z) (lane : str)
  : result (list Row) :=
  phix_set <- get_set phix_set_name ;;
  for_each (indices phix_set) (fun phix_idx_pair =>
    index1 <- fit_seq (fst phix_idx_pair) len_idx1 None ;;
    index2 <- fit_seq (snd phix_idx_pair) len_idx2 None ;;
    Ok [mkRow (nickname phix_set) index1 index2 lane "Control" "0-0"]).

End Phix.

(** ** zika_methods.py: the deck of pool *)

Module Deck.

(** A dict from plate names to deck positions, as the list of its items in
    the order in which the keys were first set. *)
Definition deck : Type := list (str * Z).

(** [d[key] = value]: the value of a key that is there is replaced in
    place, a new key is added at the end. *)
Fixpoint dict_set (d : deck) (key : str) (value : Z) : deck :=
  match d with
  | [] => [(key, value)]
  | (k, v) :: d' =>
      if str_eqb k key then (k, value) :: d'
      else (k, v) :: dict_set d' key value
  end.

(** [d[key]] *)
Definition dict_get (d : deck) (key : str) : result Z :=
  match find (fun e => str_eqb (fst e) key) d with
  | Some e => Ok (snd e)
  | None => Raise (KeyError key)
  end.

(** The deck that [pool] defines from the columns [dest_fc] and
    [source_fc] of the dataframe: the output plate at position 3, the
    input plates at 2, 4, 1 and 5 in the order of their first rows. *)
Definition pool_deck (dest_fc source_fc : list str) : result deck :=
  if negb (List.length (unique str_eqb source_fc) <=? 4)%nat then
    Raise (AssertionError "Only one to four input plates allowed")
  else if negb (List.length (unique str_eqb dest_fc) =? 1)%nat then
    Raise (AssertionError "Only one output plate allowed")
  else
    dest <- getitem (unique str_eqb dest_fc) 0 ;;
    let deck := dict_set [] dest 3 in
    let available :=
      firstn (List.length (unique str_eqb source_fc)) [2; 4; 1; 5] in
    Ok (fold_left (fun deck pp => dict_set deck (fst pp) (snd pp))
                  (combine (unique str_eqb source_fc) available) deck).

End Deck.

(** ** zika_utils.py: well2rowcol, the splitting of transfers and the
    filling of buffer wells *)

Module Utils.
Local Open Scope Z_scope.

(** *** well2rowcol *)

(** The dict [rowdict]: the row letters A to H onto the digits 1 to 8, both
    as strings of one character. *)
Definition rowdict : list (str * str) :=
  map (fun ln : ascii * ascii => ([fst ln], [snd ln]))
      (combine ("ABCDEFGH" : str) ("12345678" : str)).

(** [rowdict[row_letter]] *)
Definition rowdict_get (row_letter : str) : result str :=
  match find (fun e => str_eqb (fst e) row_letter) rowdict with
  | Some e => Ok (snd e)
  | None => Raise (KeyError row_letter)
  end.

(** [well2rowcol(well_iter)]: the rows and the columns of the wells. A well
    name that does not split into two parts at its colons fails the
    unpacking; a row that is not a key of [rowdict] raises KeyError. *)
Fixpoint well2rowcol (well_iter : list str) : result (list str * list str) :=
  match well_iter with
  | [] => Ok ([], [])
  | well :: rest =>
      match split_on ":" well with
      | [row_letter; col_number] =>
          row <- rowdict_get row_letter ;;
          rc <- well2rowcol rest ;;
          Ok (row :: fst rc, col_number :: snd rc)
      | [] | [_] =>
          Raise (ValueError "not enough values to unpack (expected 2, got 1)")
      | _ => Raise (ValueError "too many values to unpack (expected 2)")
      end
  end.

(** *** format_worklist: the splitting of the transfers above 5000 nl *)

(** A row of the sorted dataframe, with its volume in whole nanolitres; the
    column [src_type] is there for a normalization and missing for a
    pooling. *)
Record row : Type := mkRow {
  src_type : option str;
  body : Worklist.transfer
}.

Definition vol (r : row) : Z := Worklist.transfer_vol (body r).

(** [row.transfer_vol = v] on a copy of the row. *)
Definition with_vol (r : row) (v : Z) : row :=
  let b := body r in
  mkRow (src_type r)
        (Worklist.mkTransfer
           (Worklist.src_name b) (Worklist.src_well b) (Worklist.dst_name b)
           (Worklist.dst_well b) v (Worklist.src_pos b) (Worklist.dst_pos b)
           (Worklist.src_row b) (Worklist.src_col b) (Worklist.dst_row b)
           (Worklist.dst_col b)).

Definition max_vol : Z := 5000.

(** The [while] loop: as long as the volume of the row exceeds [max_vol],
    one more copy with [max_vol] is appended and [max_vol] is deducted.
    Every turn takes off 5000 nl, so that a fuel of as many turns as the
    volume has nanolitres is never used up. *)
Fixpoint split_loop (fuel : nat) (row_cp : row) (df_being_split : list row)
         (r : row) : list row * row :=
  match fuel with
  | O => (df_being_split, r)
  | S fuel' =>
      if vol r >? max_vol then
        split_loop fuel' row_cp (df_being_split ++ [row_cp])
                   (with_vol r (vol r - max_vol))
      else (df_being_split, r)
  end.

(** The body of the loop over the rows: what one row appends to
    [df_split]. For a sample transfer the rest comes first, otherwise (a
    buffer transfer, or a frame without the column [src_type]) last. *)
Definition split_row (r : row) : list row :=
  if vol r >? max_vol then
    let row_cp := with_vol r max_vol in
    let '(df_being_split, r') := split_loop (Z.to_nat (vol r)) row_cp [] r in
    match src_type r with
    | Some t =>
        if str_eqb t "sample" then r' :: df_being_split
        else df_being_split ++ [r']
    | None => df_being_split ++ [r']
    end
  else [r].

(** The last part of [format_worklist], from the assertion on the volumes.
    The rows are appended in the order of the index of the sorted frame, so
    that the closing [sort_index] finds them in order and moves none. *)
Definition split_transfers (df : list row) : result (list row) :=
  if negb (forallb (fun r => vol r <? 180000) df) then
    Raise (AssertionError "Some transfer volumes exceed 180 ul")
  else Ok (flat_map split_row df).

(** *** resolve_buffer_transfers: the filling of the buffer wells *)

(** The wells of the buffer plate in the order of the iterator: column by
    column, the rows A to H in each. *)
Definition wells : list str :=
  flat_map (fun col : Z =>
              map (fun row : ascii => [row] ++ ":" ++ str_of_Z col)
                  ("ABCDEFGH" : str))
           [1; 2; 3; 4; 5; 6; 7; 8; 9; 10; 11; 12].

Record buffer_params : Type := mkBufferParams {
  well_dead_vol : Q;
  well_max_vol : Q;
  zika_max_vol : Q
}.

(** The defaults of [resolve_buffer_transfers]. *)
Definition default_buffer_params : buffer_params := mkBufferParams 5 180 5.

(** The volume a buffer transfer takes from its well: the transfer and an
    estimated loss of 0.2 ul for each of its subtransfers. *)
Definition vol_to_add (p : buffer_params) (transfer_vol : Q) : Q :=
  let n_transfers := (inject_Z (Qfloor (transfer_vol / zika_max_vol p)) + 1)%Q in
  (transfer_vol + (2 # 10) * n_transfers)%Q.

(** The state of the loop: the well being filled, the volume it holds, and
    what is left of the iterator. *)
Record filling : Type := mkFilling {
  current_well : str;
  current_well_vol : Q;
  well_iter : list str
}.

Definition stop_iteration : exn :=
  AssertionError "Total buffer volume exceeds plate capacity.".

(** The loop over the buffer transfers, in the order of the frame: the
    source well of each of them, and the state at the end. *)
Fixpoint fill_wells (p : buffer_params) (st : filling) (transfer_vols : list Q)
  : result (list str * filling) :=
  match transfer_vols with
  | [] => Ok ([], st)
  | transfer_vol :: rest =>
      let v := vol_to_add p transfer_vol in
      st' <-
        (if Qlt_bool (well_max_vol p) (current_well_vol st + v)%Q then
           (* Start on the next well *)
           match well_iter st with
           | w :: ws => Ok (mkFilling w (well_dead_vol p) ws)
           | [] => Raise stop_iteration
           end
         else Ok st) ;;
      let st'' := mkFilling (current_well st')
                            (current_well_vol st' + v)%Q (well_iter st') in
      out <- fill_wells p st'' rest ;;
      Ok (current_well st'' :: fst out, snd out)
  end.

(** The adaptive strategy: the first well is taken from the iterator, then
    the transfers are assigned. *)
Definition assign_buffer_wells (p : buffer_params) (transfer_vols : list Q)
  : result (list str * filling) :=
  match wells with
  | w :: ws => fill_wells p (mkFilling w (well_dead_vol p) ws) transfer_vols
  | [] => Raise stop_iteration
  end.

(** The first-column strategy: the source well of a buffer transfer keeps
    all but its last character and gets a 1 after them. *)
Definition first_column (src_well : str) : str :=
  slice_to src_well (-1) ++ "1".

End Utils.

(** ** Vocabulary of the properties *)

(** A string without white space, as index sequences are. *)
Definition no_space (s : str) : Prop :=
  forallb (fun c => negb (is_space c)) s = true.

(** An index as it stands or reverse-complemented. *)
Inductive oriented (x : str) : str -> Prop :=
| as_given : oriented x x
| reversed : oriented x (Manifest.revcomp x).

(** The row a merged pair would give if the two transfers became a single
    MULTI_ASPIRATE instruction carrying their combined volume. *)
Definition combined_row (b s : Worklist.transfer) : str :=
  join ","
       [Worklist.type_name Worklist.MULTI_ASPIRATE;
        str_of_Z (Worklist.src_pos b); Worklist.src_col b; Worklist.src_row b;
        "1" : str;
        str_of_Z (Worklist.transfer_vol b + Worklist.transfer_vol s)] ++ nl.


(** Two bounds on what a pattern can match: the least length of a match and
    the characters a match can hold. *)
Fixpoint min_len (r : Re.regex) : nat :=
  match r with
  | Re.Lit l => List.length l
  | Re.Cls _ => 1
  | Re.Cat r1 r2 => min_len r1 + min_len r2
  | Re.Alt r1 r2 => Nat.min (min_len r1) (min_len r2)
  | Re.Opt _ | Re.Star _ => 0
  | Re.AtLeast n r1 => n * min_len r1
  | Re.Grp r1 => min_len r1
  end.

Fixpoint chars (r : Re.regex) : str :=
  match r with
  | Re.Lit l => l
  | Re.Cls members => members
  | Re.Cat r1 r2 | Re.Alt r1 r2 => chars r1 ++ chars r2
  | Re.Opt r1 | Re.Star r1 | Re.AtLeast _ r1 | Re.Grp r1 => chars r1
  end.

Fixpoint group_free (r : Re.regex) : bool :=
  match r with
  | Re.Lit _ | Re.Cls _ => true
  | Re.Cat r1 r2 | Re.Alt r1 r2 => group_free r1 && group_free r2
  | Re.Opt r1 | Re.Star r1 | Re.AtLeast _ r1 => group_free r1
  | Re.Grp _ => false
  end.

(** What a successful run of a pattern without groups has consumed: a
    prefix [w] of the input, with the continuation run on the rest and on
    the same groups. *)
Definition consumed {A : Type} (r : Re.regex) (body : @Re.step A) : Prop :=
  forall (s : str) (gs : list str) (k : Re.cont) (a : A),
    body s gs k = Some a ->
    exists w s' : str,
      s = w ++ s' /\ k s' gs = Some a
      /\ (min_len r <= List.length w)%nat
      /\ Forall (fun c => In c (chars r)) w.

(** The line of marks of [show_match]: a bar where the two sequences agree,
    an X where they differ. *)
Definition marks (seq1 seq2 : str) : str :=
  map (fun p : ascii * ascii =>
         if Ascii.eqb (fst p) (snd p) then "|"%char else "X"%char)
      (combine seq1 seq2).

(** The text a manifest row is compared by: Index1 followed by Index2. *)
Definition indexes (r : Manifest.Row) : str :=
  Manifest.Index1 r ++ Manifest.Index2 r.

(** Rows as the collision detector expects them: index sequences without
    white space, all of one total length. *)
Definition comparable (n : nat) (r : Manifest.Row) : Prop :=
  no_space (Manifest.Index1 r) /\ no_space (Manifest.Index2 r)
  /\ List.length (indexes r) = n.

(** The row of a kit's index pair in a group of the given index lengths. *)
Definition phix_row (nick lane : str) (len_idx1 len_idx2 : Z) (p : str * str)
  : Manifest.Row :=
  Manifest.mkRow nick (firstn (Z.to_nat len_idx1) (fst p))
        (firstn (Z.to_nat len_idx2) (snd p)) lane "Control" "0-0".


(** The fatal error of the collision detector. *)
Definition identical : exn := AssertionError "Identical indices detected.".

(** The total volume of a list of transfers, in nanolitres. *)
Definition total_vol (df : list Utils.row) : Z :=
  fold_right (fun r acc => Utils.vol r + acc) 0 df.

(** The name of the well in row [k] (counted from 0, for A) and column
    [col]. *)
Definition well_name (k : nat) (col : str) : str :=
  [nth k ("ABCDEFGH" : str) " "%char] ++ ":" ++ col.

(** The digit that [well2rowcol] gives for row [k]. *)
Definition row_digit (k : nat) : str := [nth k ("12345678" : str) " "%char].

(** What the transfers assigned to well [w] draw from it. *)
Fixpoint load (p : Utils.buffer_params) (assigned : list (str * Q)) (w : str)
  : Q :=
  match assigned with
  | [] => 0
  | (w', transfer_vol) :: rest =>
      if str_eqb w' w then (Utils.vol_to_add p transfer_vol + load p rest w)%Q
      else load p rest w
  end.

(** The length of the indexes of a PhiX kit: 9 for the Elevate kit, 10 for
    the other two. *)
Definition index_length (phix_set_name : str) : Z :=
  if str_eqb phix_set_name "Cloudbreak PhiX Control Library, Elevate"
  then 9 else 10.

(** * Properties *)

(** ** Strings *)

Lemma str_eqb_eq (a b : str) : str_eqb a b = true <-> a = b.
Proof.
  unfold str_eqb. destruct (list_eq_dec ascii_dec a b); split; congruence.
Qed.

Lemma str_eqb_refl (a : str) : str_eqb a a = true.
Proof. now apply str_eqb_eq. Qed.

Lemma str_eqb_neq (a b : str) : str_eqb a b = false <-> a <> b.
Proof.
  unfold str_eqb. destruct (list_eq_dec ascii_dec a b); split; congruence.
Qed.

Lemma len_app {A : Type} (a b : list A) : len (a ++ b) = len a + len b.
Proof. unfold len. rewrite length_app. lia. Qed.

Lemma len_nonneg {A : Type} (a : list A) : 0 <= len a.
Proof. unfold len. lia. Qed.

Lemma slice_to_firstn {A : Type} (seq : list A) (k : Z) :
  0 <= k -> slice_to seq k = firstn (Z.to_nat k) seq.
Proof.
  intros Hk. unfold slice_to.
  destruct (0 <=? k) eqn:E; [reflexivity | apply Z.leb_gt in E; lia].
Qed.

(** ** revcomp *)

Section RevcompFacts.
Import Manifest.

Lemma complement_involutive (c : ascii) : complement (complement c) = c.
Proof.
  destruct c as [[] [] [] [] [] [] [] []]; reflexivity.
Qed.

Lemma complement_other (c : ascii) : is_base c = false -> complement c = c.
Proof.
  destruct c as [[] [] [] [] [] [] [] []]; (reflexivity || discriminate).
Qed.

Lemma complement_space (c : ascii) : is_space (complement c) = is_space c.
Proof.
  destruct c as [[] [] [] [] [] [] [] []]; reflexivity.
Qed.

Lemma revcomp_map (s : str) : revcomp s = rev (map complement s).
Proof. reflexivity. Qed.

Lemma revcomp_length (s : str) : List.length (revcomp s) = List.length s.
Proof.
  rewrite revcomp_map, length_rev, length_map. reflexivity.
Qed.

Lemma revcomp_involutive (s : str) : revcomp (revcomp s) = s.
Proof.
  rewrite !revcomp_map, map_rev, rev_involutive, map_map.
  rewrite <- (map_id s) at 2. apply map_ext, complement_involutive.
Qed.

Lemma revcomp_nth (s : str) (i : nat) (c : ascii) :
  nth_error s i = Some c ->
  nth_error (revcomp s) (List.length s - 1 - i) = Some (complement c).
Proof.
  intros H.
  assert (Hi : (i < List.length s)%nat) by (apply nth_error_Some; congruence).
  rewrite revcomp_map, nth_error_rev, length_map.
  destruct (Nat.ltb_spec (List.length s - 1 - i) (List.length s)); [| lia].
  replace (List.length s - S (List.length s - 1 - i))%nat with i by lia.
  now apply map_nth_error.
Qed.

End RevcompFacts.

(** C10: revcomp is defined on every string; its result has the length of
    its argument; a character other than A, C, G, T at position [i] is found
    unchanged at the mirrored position; and applying revcomp twice gives the
    string back, whatever its characters. *)
Theorem revcomp_total_involutive (s : str) :
  List.length (Manifest.revcomp s) = List.length s
  /\ (forall (i : nat) (c : ascii),
         nth_error s i = Some c -> Manifest.is_base c = false ->
         nth_error (Manifest.revcomp s) (List.length s - 1 - i) = Some c)
  /\ Manifest.revcomp (Manifest.revcomp s) = s.
Proof.
  split; [apply revcomp_length | split; [| apply revcomp_involutive]].
  intros i c Hi Hc.
  rewrite (revcomp_nth s i c Hi). f_equal. now apply complement_other.
Qed.

(** ** fit_seq *)

(** C9: a requested length between 0 and the length of the sequence gives
    the prefix of that size (the sequence itself when the two are equal),
    whatever the extension string; a requested length above the length of
    the sequence, without an extension string, raises an error. *)
Theorem fit_seq_prefix_or_error (seq : str) (length : Z) :
  (0 <= length <= len seq ->
   forall ext : option str,
   exists prefix rest : str,
     Manifest.fit_seq seq length ext = Ok prefix
     /\ seq = prefix ++ rest
     /\ len prefix = length
     /\ (length = len seq -> prefix = seq))
  /\ (len seq < length ->
      Manifest.fit_seq seq length None
      = Raise (AssertionError
                 "Can't extend sequence without extension string.")).
Proof.
  split.
  - intros [H0 Hle] ext.
    exists (firstn (Z.to_nat length) seq), (skipn (Z.to_nat length) seq).
    assert (Hn : (Z.to_nat length <= List.length seq)%nat)
      by (unfold len in Hle; lia).
    repeat split.
    + unfold Manifest.fit_seq.
      destruct (len seq =? length) eqn:E.
      * apply Z.eqb_eq in E. f_equal. rewrite firstn_all2; [reflexivity |].
        unfold len in E. lia.
      * apply Z.eqb_neq in E.
        destruct (len seq >? length) eqn:G.
        -- now rewrite slice_to_firstn.
        -- rewrite Z.gtb_ltb in G. apply Z.ltb_ge in G. lia.
    + symmetry. apply firstn_skipn.
    + unfold len. rewrite length_firstn. lia.
    + intros E. apply firstn_all2. unfold len in E. lia.
  - intros Hlt. unfold Manifest.fit_seq.
    destruct (len seq =? length) eqn:E; [apply Z.eqb_eq in E; lia |].
    destruct (len seq >? length) eqn:G; [| reflexivity].
    rewrite Z.gtb_ltb in G. apply Z.ltb_lt in G. lia.
Qed.

Lemma fit_seq_prefix_or_error_witness :
  (exists prefix rest : str,
      Manifest.fit_seq "ATGTCGCTAG" 8 None = Ok prefix
      /\ ("ATGTCGCTAG" : str) = prefix ++ rest
      /\ len prefix = 8
      /\ (8 = len ("ATGTCGCTAG" : str) -> prefix = "ATGTCGCTAG"))
  /\ Manifest.fit_seq "ACGTGTAGC" 10 None
     = Raise (AssertionError "Can't extend sequence without extension string.").
Proof.
  split.
  - apply (proj1 (fit_seq_prefix_or_error "ATGTCGCTAG" 8)).
    vm_compute. split; discriminate.
  - apply (proj2 (fit_seq_prefix_or_error "ACGTGTAGC" 10)).
    reflexivity.
Defined.

(** ** The collision detector *)

Section CollisionFacts.
Import Manifest.

Lemma distance_same_length (a b : str) :
  List.length a = List.length b -> distance a b = mismatches a b.
Proof.
  intros H. unfold distance. rewrite H. lia.
Qed.

Lemma mismatches_app (a b c d : str) :
  List.length a = List.length c ->
  mismatches (a ++ b) (c ++ d) = (mismatches a c + mismatches b d)%nat.
Proof.
  revert c. induction a as [| x a IH]; intros [| y c] H; try discriminate.
  - reflexivity.
  - simpl in *. rewrite IH by congruence. lia.
Qed.

Lemma mismatches_refl (a : str) : mismatches a a = 0%nat.
Proof.
  induction a as [| x a IH]; [reflexivity |].
  simpl. now rewrite Ascii.eqb_refl, IH.
Qed.

Lemma distance_refl (a : str) : distance a a = 0%nat.
Proof.
  rewrite distance_same_length by reflexivity. apply mismatches_refl.
Qed.

Lemma min_from_In (best : flip) (l : list flip) :
  In (min_from best l) (best :: l).
Proof.
  revert best. induction l as [| x l IH]; intros best; simpl.
  - now left.
  - destruct (fst (fst x) <? fst (fst best))%nat.
    + destruct (IH x) as [H | H]; [right; now left | right; now right].
    + destruct (IH best) as [H | H]; [now left | right; now right].
Qed.

Lemma min_from_le (best : flip) (l : list flip) :
  Forall (fun e => (fst (fst (min_from best l)) <= fst (fst e))%nat) (best :: l).
Proof.
  revert best. induction l as [| x l IH]; intros best.
  - simpl. constructor; [lia | constructor].
  - simpl. destruct (Nat.ltb_spec (fst (fst x)) (fst (fst best))).
    + specialize (IH x). inversion IH as [| ? ? Hx Hl]; subst.
      constructor; [lia | now constructor].
    + specialize (IH best). inversion IH as [| ? ? Hb Hl]; subst.
      constructor; [assumption | constructor; [lia | assumption]].
Qed.

Lemma for_each_In {A B : Type} (l : list A) (body : A -> result (list B))
      (ys : list B) (y : B) :
  for_each l body = Ok ys -> In y ys ->
  exists (x : A) (zs : list B), In x l /\ body x = Ok zs /\ In y zs.
Proof.
  revert ys. induction l as [| x l IH]; intros ys H Hy; simpl in H.
  - injection H as <-. destruct Hy.
  - destruct (body x) as [zs |] eqn:Ex; [| discriminate]. simpl in H.
    destruct (for_each l body) as [ws |] eqn:El; [| discriminate]. simpl in H.
    injection H as <-. apply in_app_or in Hy as [Hy | Hy].
    + exists x, zs. repeat split; [now left | assumption | assumption].
    + destruct (IH ws eq_refl Hy) as (x' & zs' & Hx' & Hb & Hz).
      exists x', zs'. repeat split; [now right | assumption | assumption].
Qed.

Lemma oriented_length (x a : str) :
  oriented x a -> List.length a = List.length x.
Proof. intros []; [reflexivity | apply revcomp_length]. Qed.

Lemma flips_shape (row row_comp : Row) (fl : list flip) (e : flip) :
  flips row row_comp = Ok fl -> In e fl ->
  exists a1 a2 b1 b2 : str,
    oriented (Index1 row) a1 /\ oriented (Index2 row) a2
    /\ oriented (Index1 row_comp) b1 /\ oriented (Index2 row_comp) b2
    /\ snd (fst e) = a1 ++ "-" ++ a2 ++ " " ++ b1 ++ "-" ++ b2.
Proof.
  intros H He. unfold flips in H.
  destruct (for_each_In _ _ _ _ H He) as ([a1 n1] & l1 & I1 & H1 & E1).
  destruct (for_each_In _ _ _ _ H1 E1) as ([a2 n2] & l2 & I2 & H2 & E2).
  destruct (for_each_In _ _ _ _ H2 E2) as ([b1 m1] & l3 & I3 & H3 & E3).
  destruct (for_each_In _ _ _ _ H3 E3) as ([b2 m2] & l4 & I4 & H4 & E4).
  injection H4 as <-. destruct E4 as [<- | []].
  exists a1, a2, b1, b2.
  assert (O : forall x a n m k : str,
             In (a, n) [(x, m); (revcomp x, k)] -> oriented x a).
  { intros x a n m k [E | [E | []]]; injection E as <- _; constructor. }
  repeat split; eauto.
Qed.

(** The flip search never fails: it lists the sixteen conformations. *)
Lemma flips_total (row row_comp : Row) :
  exists (e : flip) (l : list flip),
    flips row row_comp = Ok (e :: l)
    /\ List.length (e :: l) = 16%nat
    /\ fst (fst e)
       = (distance (Index1 row) (Index1 row_comp)
          + distance (Index2 row) (Index2 row_comp))%nat.
Proof.
  unfold flips. cbn [for_each bind app]. do 2 eexists. repeat split.
Qed.

(** Both ways of computing the distance return for every two rows. *)
Lemma pair_distance_total (row row_comp : Row) (check_flips : bool) :
  exists found : flip, pair_distance row row_comp check_flips = Ok found.
Proof.
  unfold pair_distance. destruct check_flips; [| eauto].
  destruct (flips_total row row_comp) as (e & l & -> & _). simpl. eauto.
Qed.

End CollisionFacts.

(** C6: for two rows whose Index1 have one length and whose Index2 have one
    length, both distances are computed; the one without flips is the
    Hamming distance of the concatenations Index1+Index2; the one with flips
    is the least of the sixteen combinations; and the distance with flips is
    at most the distance without. *)
Theorem flip_distance_le_direct (row row_comp : Manifest.Row) :
  List.length (Manifest.Index1 row) = List.length (Manifest.Index1 row_comp) ->
  List.length (Manifest.Index2 row) = List.length (Manifest.Index2 row_comp) ->
  exists (flipped direct : Manifest.flip) (fl : list Manifest.flip),
    Manifest.pair_distance row row_comp true = Ok flipped
    /\ Manifest.pair_distance row row_comp false = Ok direct
    /\ fst (fst direct)
       = Manifest.mismatches
           (Manifest.Index1 row ++ Manifest.Index2 row)
           (Manifest.Index1 row_comp ++ Manifest.Index2 row_comp)
    /\ Manifest.flips row row_comp = Ok fl
    /\ List.length fl = 16%nat
    /\ In flipped fl
    /\ Forall (fun e => (fst (fst flipped) <= fst (fst e))%nat) fl
    /\ (fst (fst flipped) <= fst (fst direct))%nat.
Proof.
  intros H1 H2.
  destruct (flips_total row row_comp) as (e & l & Hfl & Hlen & He).
  rewrite !distance_same_length in He by assumption.
  exists (Manifest.min_from e l).
  eexists. exists (e :: l).
  unfold Manifest.pair_distance. rewrite Hfl. cbn [bind Manifest.min_by_dist].
  rewrite distance_same_length by (rewrite !length_app; congruence).
  cbv zeta.
  pose proof (min_from_le e l) as Hall.
  repeat split; try assumption.
  - apply min_from_In.
  - inversion Hall as [| ? ? Hhd _]; subst. cbn [fst].
    rewrite mismatches_app by assumption. lia.
Qed.

Lemma flip_distance_le_direct_witness :
  exists (flipped direct : Manifest.flip),
    Manifest.pair_distance
      (Manifest.mkRow "A" "ACGTAC" "GGTT" "1" "P" "0-0")
      (Manifest.mkRow "C" "ACGTAC" "AACC" "1" "P" "0-0") true = Ok flipped
    /\ Manifest.pair_distance
         (Manifest.mkRow "A" "ACGTAC" "GGTT" "1" "P" "0-0")
         (Manifest.mkRow "C" "ACGTAC" "AACC" "1" "P" "0-0") false = Ok direct
    /\ (fst (fst flipped) <= fst (fst direct))%nat.
Proof.
  destruct (flip_distance_le_direct
              (Manifest.mkRow "A" "ACGTAC" "GGTT" "1" "P" "0-0")
              (Manifest.mkRow "C" "ACGTAC" "AACC" "1" "P" "0-0")
              eq_refl eq_refl)
    as (flipped & direct & fl & Hf & Hd & _ & _ & _ & _ & _ & Hle).
  exists flipped, direct. repeat split; assumption.
Defined.

Section ReportFacts.
Import Manifest.

Lemma no_space_app (a b : str) : no_space a -> no_space b -> no_space (a ++ b).
Proof.
  unfold no_space. intros Ha Hb. rewrite forallb_app, Ha, Hb. reflexivity.
Qed.

Lemma no_space_revcomp (a : str) : no_space a -> no_space (revcomp a).
Proof.
  unfold no_space. rewrite revcomp_map. intros H.
  rewrite forallb_forall in *. intros c Hc.
  apply in_rev, in_map_iff in Hc as (x & <- & Hx).
  rewrite complement_space. now apply H.
Qed.

Lemma no_space_oriented (x a : str) : oriented x a -> no_space x -> no_space a.
Proof. intros [] H; [assumption | now apply no_space_revcomp]. Qed.

Lemma split_ws_aux_no_space (cur u rest : str) :
  no_space u -> split_ws_aux cur (u ++ rest) = split_ws_aux (cur ++ u) rest.
Proof.
  revert cur. induction u as [| c u IH]; intros cur H.
  - now rewrite app_nil_r.
  - unfold no_space in H. simpl in H. apply andb_prop in H as [Hc Hu].
    simpl. destruct (is_space c); [discriminate |].
    rewrite IH by assumption. now rewrite <- app_assoc.
Qed.

Lemma split_ws_two (u v : str) :
  no_space u -> no_space v -> u <> [] -> v <> [] ->
  split_ws (u ++ " " ++ v) = [u; v].
Proof.
  intros Hu Hv Nu Nv. unfold split_ws.
  rewrite split_ws_aux_no_space by assumption. simpl.
  destruct u as [| c u]; [congruence |].
  rewrite <- (app_nil_r v) at 1.
  rewrite split_ws_aux_no_space by assumption. simpl.
  destruct v; [congruence | reflexivity].
Qed.

Lemma show_match_same_length (seq1 seq2 : str) :
  List.length seq1 = List.length seq2 ->
  exists m : str, show_match seq1 seq2 = Ok m.
Proof.
  intros H. unfold show_match, len. rewrite H, Z.eqb_refl. simpl. eauto.
Qed.

Lemma pair_distance_shape (row row_comp : Row) (check_flips : bool)
      (found : flip) :
  pair_distance row row_comp check_flips = Ok found ->
  exists a1 a2 b1 b2 : str,
    oriented (Index1 row) a1 /\ oriented (Index2 row) a2
    /\ oriented (Index1 row_comp) b1 /\ oriented (Index2 row_comp) b2
    /\ snd (fst found) = a1 ++ "-" ++ a2 ++ " " ++ b1 ++ "-" ++ b2.
Proof.
  unfold pair_distance. destruct check_flips.
  - destruct (flips row row_comp) as [fl |] eqn:Hfl; [| discriminate].
    destruct fl as [| e l]; [discriminate |]. simpl. intros H.
    injection H as <-. apply (flips_shape row row_comp (e :: l)).
    + assumption.
    + apply min_from_In.
  - cbv zeta. intros H. injection H as <-.
    exists (Index1 row), (Index2 row), (Index1 row_comp), (Index2 row_comp).
    repeat split; constructor.
Qed.

(** With indices free of white space, building the warning never fails. *)
Lemma report_warns (row row_comp : Row) (check_flips : bool)
      (dist_warning_threshold : Z) (found : flip) (log : list str) :
  no_space (Index1 row) -> no_space (Index2 row) ->
  no_space (Index1 row_comp) -> no_space (Index2 row_comp) ->
  pair_distance row row_comp check_flips = Ok found ->
  Z.of_nat (fst (fst found)) <= dist_warning_threshold ->
  exists warning : str,
    report row row_comp check_flips dist_warning_threshold found log
    = (log ++ [warning],
       if (fst (fst found) =? 0)%nat
       then Raise (AssertionError "Identical indices detected.")
       else Ok tt).
Proof.
  intros S1 S2 S3 S4 Hpd Hle.
  destruct (pair_distance_shape _ _ _ _ Hpd)
    as (a1 & a2 & b1 & b2 & O1 & O2 & O3 & O4 & Hseqs).
  destruct found as [[dist compared_seqs] flip_conf]. simpl in Hseqs, Hle |- *.
  apply Z.leb_le in Hle. rewrite Hle.
  assert (Hsplit : split_ws compared_seqs = [a1 ++ "-" ++ a2; b1 ++ "-" ++ b2]).
  { subst compared_seqs.
    transitivity (split_ws ((a1 ++ "-" ++ a2) ++ " " ++ (b1 ++ "-" ++ b2)));
      [f_equal; now rewrite <- !app_assoc |].
    apply split_ws_two.
    - apply no_space_app; [eapply no_space_oriented; eauto |].
      apply no_space_app; [reflexivity | eapply no_space_oriented; eauto].
    - apply no_space_app; [eapply no_space_oriented; eauto |].
      apply no_space_app; [reflexivity | eapply no_space_oriented; eauto].
    - intros E. apply (f_equal (@List.length ascii)) in E.
      rewrite !length_app in E. simpl in E. lia.
    - intros E. apply (f_equal (@List.length ascii)) in E.
      rewrite !length_app in E. simpl in E. lia. }
  rewrite Hsplit.
  destruct (len (Index1 row) + len (Index2 row)
            =? len (Index1 row_comp) + len (Index2 row_comp)) eqn:Elen.
  - apply Z.eqb_eq in Elen. unfold len in Elen.
    destruct (show_match_same_length (a1 ++ "-" ++ a2) (b1 ++ "-" ++ b2))
      as [m Hm].
    { rewrite !length_app.
      rewrite (oriented_length _ _ O1), (oriented_length _ _ O2),
        (oriented_length _ _ O3), (oriented_length _ _ O4).
      simpl. lia. }
    cbn [show_match_star]. rewrite Hm. cbn [bind].
    eexists. destruct (dist =? 0)%nat; reflexivity.
  - eexists. destruct (dist =? 0)%nat; reflexivity.
Qed.

End ReportFacts.

(** C7: every two manifest rows (their indices hold no white space) are
    compared: check_pair_distance computes a distance for them, with or
    without flips and whatever the lengths of their indexes. Whenever that
    distance is at or below the warning threshold one warning is logged;
    when the distance is 0 the fatal error is raised after the warning, and
    otherwise the comparison returns. In particular two rows with the same
    concatenation Index1+Index2, compared as check_distances does (no flips,
    a threshold that is not negative, 3 by default), get the warning and the
    fatal error. *)
Theorem check_pair_distance_warns_and_fails
        (row row_comp : Manifest.Row) (log : list str) :
  no_space (Manifest.Index1 row) -> no_space (Manifest.Index2 row) ->
  no_space (Manifest.Index1 row_comp) -> no_space (Manifest.Index2 row_comp) ->
  (forall (check_flips : bool) (dist_warning_threshold : Z),
      exists found : Manifest.flip,
        Manifest.pair_distance row row_comp check_flips = Ok found
        /\ (Z.of_nat (fst (fst found)) <= dist_warning_threshold ->
            exists warning : str,
              Manifest.check_pair_distance row row_comp check_flips
                                           dist_warning_threshold log
              = (log ++ [warning],
                 if (fst (fst found) =? 0)%nat
                 then Raise (AssertionError "Identical indices detected.")
                 else Ok tt)))
  /\ (Manifest.Index1 row ++ Manifest.Index2 row
      = Manifest.Index1 row_comp ++ Manifest.Index2 row_comp ->
      forall dist_warning_threshold : Z,
        0 <= dist_warning_threshold ->
        exists (found : Manifest.flip) (warning : str),
          Manifest.pair_distance row row_comp false = Ok found
          /\ fst (fst found) = 0%nat
          /\ Manifest.check_pair_distance row row_comp false
                                          dist_warning_threshold log
             = (log ++ [warning],
                Raise (AssertionError "Identical indices detected."))).
Proof.
  intros S1 S2 S3 S4.
  assert (G : forall (check_flips : bool) (dist_warning_threshold : Z),
             exists found : Manifest.flip,
               Manifest.pair_distance row row_comp check_flips = Ok found
               /\ (Z.of_nat (fst (fst found)) <= dist_warning_threshold ->
                   exists warning : str,
                     Manifest.check_pair_distance row row_comp check_flips
                                                  dist_warning_threshold log
                     = (log ++ [warning],
                        if (fst (fst found) =? 0)%nat
                        then Raise (AssertionError "Identical indices detected.")
                        else Ok tt))).
  { intros cf thr.
    destruct (pair_distance_total row row_comp cf) as [found Hpd].
    exists found. split; [exact Hpd |].
    intros Hle. unfold Manifest.check_pair_distance.
    rewrite Hpd. now apply report_warns. }
  split; [exact G |].
  intros Hsame thr Hthr.
  destruct (G false thr) as (found & Hpd & Hw).
  assert (H0 : fst (fst found) = 0%nat).
  { unfold Manifest.pair_distance in Hpd. rewrite Hsame in Hpd.
    rewrite distance_refl in Hpd. injection Hpd as <-. reflexivity. }
  destruct Hw as [warning Hw]; [rewrite H0; simpl; lia |].
  exists found, warning. rewrite H0 in Hw. auto.
Qed.

Lemma check_pair_distance_warns_and_fails_witness :
  (exists warning : str,
      Manifest.check_pair_distance
        (Manifest.mkRow "A" "ACGTAC" "GGTT" "1" "P" "0-0")
        (Manifest.mkRow "B" "ACGTACG" "GGT" "1" "P" "0-0") true 3 []
      = ([] ++ [warning], Ok tt))
  /\ (exists warning : str,
         Manifest.check_pair_distance
           (Manifest.mkRow "A" "ACGTAC" "GGTT" "1" "P" "0-0")
           (Manifest.mkRow "A2" "ACGT" "ACGGTT" "1" "P" "0-0") false 3 []
         = ([] ++ [warning],
            Raise (AssertionError "Identical indices detected."))).
Proof.
  split.
  - destruct (check_pair_distance_warns_and_fails
                (Manifest.mkRow "A" "ACGTAC" "GGTT" "1" "P" "0-0")
                (Manifest.mkRow "B" "ACGTACG" "GGT" "1" "P" "0-0") []
                eq_refl eq_refl eq_refl eq_refl) as [G _].
    destruct (G true 3) as (found & Hpd & Hw).
    vm_compute in Hpd. injection Hpd as <-.
    apply Hw. simpl. lia.
  - destruct (check_pair_distance_warns_and_fails
                (Manifest.mkRow "A" "ACGTAC" "GGTT" "1" "P" "0-0")
                (Manifest.mkRow "A2" "ACGT" "ACGGTT" "1" "P" "0-0") []
                eq_refl eq_refl eq_refl eq_refl) as [_ G].
    destruct (G eq_refl 3) as (found & warning & _ & _ & Hw); [lia |].
    exists warning. exact Hw.
Defined.

(** ** The matcher *)

Section MatcherFacts.
Import Re.
Context {A : Type}.

Lemma strip_prefix_sound (p s s' : str) :
  strip_prefix p s = Some s' -> s = p ++ s'.
Proof.
  revert s. induction p as [| x p IH]; intros [| y s] H; simpl in H;
    try discriminate.
  - now injection H as <-.
  - now injection H as <-.
  - destruct (Ascii.eqb_spec x y) as [<- |]; [| discriminate].
    simpl. f_equal. now apply IH.
Qed.

Lemma star_consumed (r : regex) (body : @step A) (fuel : nat) :
  consumed r body ->
  forall (s : str) (gs : list str) (k : cont) (a : A),
    star body fuel s gs k = Some a ->
    exists w s' : str,
      s = w ++ s' /\ k s' gs = Some a /\ Forall (fun c => In c (chars r)) w.
Proof.
  intros Hbody. induction fuel as [| fuel IH]; intros s gs k a H; simpl in H.
  - exists [], s. auto.
  - destruct (body s gs _) as [a0 |] eqn:Hb.
    + injection H as ->.
      apply Hbody in Hb as (w1 & s1 & -> & Hk & _ & Hc1).
      destruct (List.length s1 <? List.length (w1 ++ s1))%nat; [| discriminate].
      apply IH in Hk as (w2 & s2 & -> & Hk & Hc2).
      exists (w1 ++ w2), s2. rewrite <- app_assoc.
      repeat split; [assumption | now apply Forall_app].
    + exists [], s. auto.
Qed.

Lemma times_consumed (r : regex) (body : @step A) (n : nat) :
  consumed r body ->
  forall (s : str) (gs : list str) (k : cont) (a : A),
    times body n s gs k = Some a ->
    exists w s' : str,
      s = w ++ s' /\ k s' gs = Some a
      /\ (n * min_len r <= List.length w)%nat
      /\ Forall (fun c => In c (chars r)) w.
Proof.
  intros Hbody. induction n as [| n IH]; intros s gs k a H; simpl in H.
  - exists [], s. repeat split; auto.
  - apply Hbody in H as (w1 & s1 & -> & Hk & Hl1 & Hc1).
    apply IH in Hk as (w2 & s2 & -> & Hk & Hl2 & Hc2).
    exists (w1 ++ w2), s2. rewrite <- app_assoc, length_app.
    repeat split; [assumption | simpl; lia | now apply Forall_app].
Qed.

Lemma run_consumed (r : regex) : group_free r = true -> consumed r (@run A r).
Proof.
  induction r as [l | members | r1 IH1 r2 IH2 | r1 IH1 r2 IH2 | r1 IH1
                  | r1 IH1 | n r1 IH1 | r1 IH1];
    intros G s gs k a H; simpl in G, H.
  - destruct (strip_prefix l s) as [s' |] eqn:E; [| discriminate].
    apply strip_prefix_sound in E as ->. exists l, s'.
    repeat split; [assumption | simpl; lia |].
    apply Forall_forall. auto.
  - destruct s as [| c s']; [discriminate |].
    destruct (existsb (Ascii.eqb c) members) eqn:E; [| discriminate].
    exists [c], s'. repeat split; [assumption | simpl; lia |].
    constructor; [| constructor].
    apply existsb_exists in E as (x & Hx & Ex).
    now apply Ascii.eqb_eq in Ex as ->.
  - apply andb_prop in G as [G1 G2].
    apply (IH1 G1) in H as (w1 & s1 & -> & H & Hl1 & Hc1).
    apply (IH2 G2) in H as (w2 & s2 & -> & H & Hl2 & Hc2).
    exists (w1 ++ w2), s2. rewrite <- app_assoc, length_app.
    repeat split; [assumption | simpl; lia |].
    apply Forall_app. split.
    + eapply Forall_impl; [| exact Hc1]. intros c Hc. apply in_or_app. auto.
    + eapply Forall_impl; [| exact Hc2]. intros c Hc. apply in_or_app. auto.
  - apply andb_prop in G as [G1 G2].
    destruct (run r1 s gs k) as [a0 |] eqn:E.
    + injection H as ->.
      apply (IH1 G1) in E as (w & s' & -> & H & Hl & Hc).
      exists w, s'. repeat split; [assumption | simpl; lia |].
      eapply Forall_impl; [| exact Hc]. intros c Hin. apply in_or_app. auto.
    + apply (IH2 G2) in H as (w & s' & -> & H & Hl & Hc).
      exists w, s'. repeat split; [assumption | simpl; lia |].
      eapply Forall_impl; [| exact Hc]. intros c Hin. apply in_or_app. auto.
  - destruct (run r1 s gs k) as [a0 |] eqn:E.
    + injection H as ->.
      apply (IH1 G) in E as (w & s' & -> & H & Hl & Hc).
      exists w, s'. repeat split; [assumption | simpl; lia | assumption].
    + exists [], s. repeat split; [assumption | simpl; lia | constructor].
  - apply (star_consumed r1 _ _ (IH1 G)) in H as (w & s' & -> & H & Hc).
    exists w, s'. repeat split; [assumption | simpl; lia | assumption].
  - apply (times_consumed r1 _ _ (IH1 G)) in H as (w1 & s1 & -> & H & Hl & Hc1).
    apply (star_consumed r1 _ _ (IH1 G)) in H as (w2 & s2 & -> & H & Hc2).
    exists (w1 ++ w2), s2. rewrite <- app_assoc, length_app.
    repeat split; [assumption | simpl; lia | now apply Forall_app].
  - discriminate.
Qed.

End MatcherFacts.

Section ResolverFacts.
Import Re Manifest.

Lemma firstn_consumed (w s' : str) :
  firstn (List.length (w ++ s') - List.length s') (w ++ s') = w.
Proof.
  rewrite length_app, Nat.add_sub, firstn_app, Nat.sub_diag, firstn_all.
  simpl. apply app_nil_r.
Qed.

Lemma two_groups_consumed {A : Type} (r1 sep r2 : regex) (s : str)
      (gs : list str) (k : @cont A) (a : A) :
  group_free r1 = true -> group_free sep = true -> group_free r2 = true ->
  run (Cat (Grp r1) (Cat sep (Grp r2))) s gs k = Some a ->
  exists (g1 g2 s' : str),
    k s' ((gs ++ [g1]) ++ [g2]) = Some a
    /\ (min_len r1 <= List.length g1)%nat
    /\ Forall (fun c => In c (chars r2)) g2.
Proof.
  intros G1 Gs G2 H. simpl in H.
  apply (run_consumed r1 G1) in H as (g1 & s1 & -> & H & Hl & _).
  rewrite firstn_consumed in H.
  apply (run_consumed sep Gs) in H as (w & s2 & -> & H & _).
  apply (run_consumed r2 G2) in H as (g2 & s3 & -> & H & _ & Hc).
  rewrite firstn_consumed in H. eauto 6.
Qed.

Lemma IDX_PAT_match_here (s whole rest : str) (gs : list str) :
  match_here IDX_PAT s = Some (whole, gs, rest) ->
  exists g1 g2 : str,
    gs = [g1; g2] /\ (4 <= List.length g1)%nat
    /\ Forall (fun c => In c ("ATCG" : str)) g2.
Proof.
  unfold match_here, IDX_PAT. intros H.
  apply two_groups_consumed in H as (g1 & g2 & s' & H & Hl & Hc);
    [| reflexivity ..].
  injection H as _ <- _. exists g1, g2. auto.
Qed.

Lemma search_match_here (r : regex) (s : str) (m : str * list str * str) :
  search r s = Some m -> exists t : str, match_here r t = Some m.
Proof.
  induction s as [| c s IH]; simpl.
  - destruct (match_here r []) eqn:E; [| discriminate].
    intros H. injection H as <-. eauto.
  - destruct (match_here r (c :: s)) eqn:E.
    + intros H. injection H as <-. eauto.
    + exact IH.
Qed.

Lemma IDX_PAT_findall (label : str) (m : item) (rest : list item) :
  findall IDX_PAT label = m :: rest ->
  exists g1 g2 : str,
    m = Tuple [g1; g2] /\ (4 <= List.length g1)%nat
    /\ Forall (fun c => In c ("ATCG" : str)) g2.
Proof.
  unfold findall. cbn [findall_aux].
  destruct (search IDX_PAT label) as [[[whole gs] rest'] |] eqn:E;
    [| discriminate].
  intros H. injection H as <- _.
  apply search_match_here in E as [t E].
  apply IDX_PAT_match_here in E as (g1 & g2 & -> & Hl & Hc).
  exists g1, g2. auto.
Qed.

(** The test for a dash never holds for what [findall] gives for the
    pattern of ordinary indexes: a pair of groups, the first of at least
    four characters, the second of A, T, C, G only. *)
Lemma IDX_PAT_no_dash (label : str) (m : item) (rest : list item) :
  findall IDX_PAT label = m :: rest -> py_in "-" m = false.
Proof.
  intros H. apply IDX_PAT_findall in H as (g1 & g2 & -> & Hl & Hc).
  cbn [py_in existsb].
  assert (E1 : str_eqb "-" g1 = false).
  { apply str_eqb_neq. intros <-. simpl in Hl. lia. }
  assert (E2 : str_eqb "-" g2 = false).
  { apply str_eqb_neq. intros <-. inversion Hc as [| ? ? Hd _]; subst.
    simpl in Hd. repeat (destruct Hd as [Hd | Hd]; [discriminate |]).
    destruct Hd. }
  now rewrite E1, E2.
Qed.

(** Every label that reaches the branch of ordinary indexes gets the pair
    of its two matched groups as they are: the branch that splits at the
    dash and reverse-complements is never taken. *)
Lemma idxs_from_label_ordinary
      (Chromium_10X_indexes : str -> option (list str))
      (SMARTSEQ3_INDEXES : str -> option (list (list str)))
      (label : str) (m : item) (rest : list item) :
  findall TENX_SINGLE_PAT label = [] ->
  findall TENX_DUAL_PAT label = [] ->
  findall SMARTSEQ_PAT label = [] ->
  str_eqb (upper (replace_char "," [] label)) "NOINDEX"
  || str_eqb (upper (replace_char "," [] label)) [] = false ->
  findall IDX_PAT label = m :: rest ->
  idxs_from_label Chromium_10X_indexes SMARTSEQ3_INDEXES label = Ok [m]
  /\ exists g1 g2 : str, m = Tuple [g1; g2].
Proof.
  intros H1 H2 H3 HN H. unfold idxs_from_label.
  rewrite H1, H2, H3, HN, H, (IDX_PAT_no_dash _ _ _ H).
  split; [reflexivity |].
  apply IDX_PAT_findall in H as (g1 & g2 & -> & _). eauto.
Qed.

End ResolverFacts.

(** ** The index resolver *)

(** C1: the label ATTACTCG-TATAGCCT matches only the pattern of ordinary
    indexes and holds a dash. Whatever the index tables, the resolver
    returns the pair of the two matched groups as they stand: the second
    index is TATAGCCT, not its reverse complement AGGCTATA, and that is the
    Index2 of the manifest row. *)
Theorem idxs_from_label_second_index_as_given
        (Chromium_10X_indexes : str -> option (list str))
        (SMARTSEQ3_INDEXES : str -> option (list (list str))) :
  Re.findall Manifest.TENX_SINGLE_PAT "ATTACTCG-TATAGCCT" = []
  /\ Re.findall Manifest.TENX_DUAL_PAT "ATTACTCG-TATAGCCT" = []
  /\ Re.findall Manifest.SMARTSEQ_PAT "ATTACTCG-TATAGCCT" = []
  /\ Re.findall Manifest.IDX_PAT "ATTACTCG-TATAGCCT"
     = [Re.Tuple ["ATTACTCG" : str; "TATAGCCT" : str]]
  /\ Manifest.idxs_from_label Chromium_10X_indexes SMARTSEQ3_INDEXES
                              "ATTACTCG-TATAGCCT"
     = Ok [Re.Tuple ["ATTACTCG" : str; "TATAGCCT" : str]]
  /\ Manifest.revcomp "TATAGCCT" = "AGGCTATA"
  /\ Manifest.idxs_from_label Chromium_10X_indexes SMARTSEQ3_INDEXES
                              "ATTACTCG-TATAGCCT"
     <> Ok [Re.Tuple ["ATTACTCG" : str; Manifest.revcomp "TATAGCCT"]]
  /\ Manifest.sample_rows Chromium_10X_indexes SMARTSEQ3_INDEXES
                          "S1" "1" "P" "0-0" "ATTACTCG-TATAGCCT"
     = Ok [Manifest.mkRow "S1" "ATTACTCG" "TATAGCCT" "1" "P" "0-0"].
Proof.
  repeat split; try (vm_compute; reflexivity).
  vm_compute. discriminate.
Qed.

(** ** The worklist writer *)

Section WorklistFacts.
Import Worklist.

Lemma replace_char_map (s : str) :
  replace_char "," ";" s
  = map (fun c => if Ascii.eqb c "," then ";"%char else c) s.
Proof.
  unfold replace_char. induction s as [| c s IH]; [reflexivity |].
  simpl. destruct (Ascii.eqb c ","); simpl; f_equal; exact IH.
Qed.

(** Replacing commas turns no other text into one without semicolons. *)
Lemma replace_char_inv (s t : str) :
  forallb (fun c => negb (Ascii.eqb c ";")) t = true ->
  replace_char "," ";" s = t -> s = t.
Proof.
  rewrite replace_char_map. revert t.
  induction s as [| c s IH]; intros [| d t] Ht E; try discriminate.
  - reflexivity.
  - simpl in *. apply andb_prop in Ht as [Hd Ht].
    injection E as Ec Es. f_equal; [| now apply IH].
    destruct (Ascii.eqb c ",") eqn:Ecomma; [| assumption].
    subst d. discriminate.
Qed.

Lemma replace_char_keeps (s : str) :
  forallb (fun c => negb (Ascii.eqb c ",")) s = true ->
  replace_char "," ";" s = s.
Proof.
  rewrite replace_char_map. induction s as [| c s IH]; [reflexivity |].
  simpl. intros H. apply andb_prop in H as [Hc Hs].
  rewrite IH by assumption. now destruct (Ascii.eqb c ",").
Qed.

Lemma combine_app {A B : Type} (a1 a2 : list A) (b1 b2 : list B) :
  List.length a1 = List.length b1 ->
  combine (a1 ++ a2) (b1 ++ b2) = combine a1 b1 ++ combine a2 b2.
Proof.
  revert b1. induction a1 as [| x a1 IH]; intros [| y b1] H; try discriminate.
  - reflexivity.
  - simpl. f_equal. apply IH. simpl in H. congruence.
Qed.

Lemma transfer_types_length (m : bool) (df : list transfer) :
  List.length (transfer_types m df) = List.length df.
Proof.
  induction df as [| r df IH]; [reflexivity |]. simpl. now rewrite IH.
Qed.

Lemma transfer_types_pair (pre post : list transfer) (b s : transfer) :
  multi_aspirate_filter b s = true ->
  exists types_pre : list transfer_type,
    List.length types_pre = List.length pre
    /\ transfer_types true (pre ++ b :: s :: post)
       = types_pre ++ MULTI_ASPIRATE :: COPY :: transfer_types true post.
Proof.
  intros F. induction pre as [| r pre (types_pre & Hlen & IH)].
  - exists []. split; [reflexivity |].
    cbn [app transfer_types andb]. rewrite F.
    assert (Hs : str_eqb (src_name s) "buffer_plate" = false).
    { unfold multi_aspirate_filter in F.
      repeat (apply andb_prop in F as [F ?]).
      now destruct (str_eqb (src_name s) "buffer_plate"). }
    destruct post as [| next post']; [reflexivity |].
    unfold multi_aspirate_filter at 1. rewrite Hs.
    now rewrite !andb_false_r, andb_false_l.
  - eexists (_ :: types_pre). split; [simpl; now rewrite Hlen |].
    cbn [app transfer_types]. rewrite IH. reflexivity.
Qed.

(** The transfers are written between the header and the closing comment. *)
Lemma write_worklist_transfers (df : list transfer) (deck : list (str * Z))
      (wl_filename : str) (comments : list str) (multi_aspirate : bool) :
  exists head : str,
    write_worklist df deck wl_filename comments multi_aspirate
    = head ++ List.concat (transfer_lines multi_aspirate df) ++ "COMMENT, Done".
Proof.
  unfold write_worklist.
  set (lines := List.concat (transfer_lines multi_aspirate df)).
  set (done := lines ++ list_ascii_of_string "COMMENT, Done").
  eexists. rewrite !app_assoc. reflexivity.
Qed.

End WorklistFacts.

(** C2, as amended: with multi-aspiration enabled (and tips not kept), a
    buffer transfer immediately followed by a sample transfer to the same
    destination position and well, their volumes adding up to at most
    5000 nl, is written as a MULTI_ASPIRATE row carrying the volume of the
    buffer transfer alone, and the sample transfer is still written after it
    as a COPY row with its own volume. *)
Theorem multi_aspirate_marks_buffer_row
        (df pre post : list Worklist.transfer) (b s : Worklist.transfer)
        (deck : list (str * Z)) (wl_filename : str) (comments : list str) :
  df = pre ++ b :: s :: post ->
  Worklist.src_name b = "buffer_plate" ->
  Worklist.src_name s <> "buffer_plate" ->
  Worklist.dst_pos b = Worklist.dst_pos s ->
  Worklist.dst_well b = Worklist.dst_well s ->
  Worklist.transfer_vol b + Worklist.transfer_vol s <= 5000 ->
  exists lines_pre lines_post : list str,
    List.length lines_pre = List.length pre
    /\ List.length lines_post = List.length post
    /\ Worklist.transfer_lines true df
       = lines_pre
           ++ [join ","
                    ["MULTI_ASPIRATE" : str;
                     str_of_Z (Worklist.src_pos b);
                     replace_char "," ";" (Worklist.src_col b);
                     replace_char "," ";" (Worklist.src_row b);
                     "1" : str;
                     str_of_Z (Worklist.transfer_vol b)] ++ nl;
               join ","
                    ["COPY" : str;
                     str_of_Z (Worklist.src_pos s);
                     replace_char "," ";" (Worklist.src_col s);
                     replace_char "," ";" (Worklist.src_col s);
                     replace_char "," ";" (Worklist.src_row s);
                     str_of_Z (Worklist.dst_pos s);
                     replace_char "," ";" (Worklist.dst_col s);
                     replace_char "," ";" (Worklist.dst_row s);
                     str_of_Z (Worklist.transfer_vol s);
                     "[VAR1]" : str] ++ nl]
           ++ lines_post
    /\ exists head : str,
         Worklist.write_worklist df deck wl_filename comments true
         = head ++ List.concat (Worklist.transfer_lines true df)
             ++ "COMMENT, Done".
Proof.
  intros -> Hb Hs Hpos Hwell Hvol.
  pose proof (write_worklist_transfers (pre ++ b :: s :: post) deck wl_filename
                                       comments true) as Hfile.
  revert Hfile.
  assert (F : Worklist.multi_aspirate_filter (Worklist.replace_commas b)
                                             (Worklist.replace_commas s) = true).
  { unfold Worklist.multi_aspirate_filter. cbn [Worklist.replace_commas
      Worklist.dst_pos Worklist.dst_well Worklist.src_name Worklist.transfer_vol].
    rewrite Hpos, Z.eqb_refl, Hwell, str_eqb_refl, Hb.
    rewrite (replace_char_keeps "buffer_plate") by reflexivity.
    rewrite str_eqb_refl.
    replace (str_eqb (replace_char "," ";" (Worklist.src_name s)) "buffer_plate")
      with false.
    - simpl. now apply Z.leb_le.
    - symmetry. apply str_eqb_neq. intros E. apply Hs.
      now apply replace_char_inv in E. }
  unfold Worklist.transfer_lines. rewrite map_app. cbn [map].
  destruct (transfer_types_pair (map Worklist.replace_commas pre)
                                (map Worklist.replace_commas post) _ _ F)
    as (types_pre & Hlen & ->).
  rewrite combine_app by assumption. rewrite map_app. cbn [combine map fst snd].
  intros Hfile.
  do 2 eexists. split; [| split; [| split]]; cycle 2.
  - reflexivity.
  - exact Hfile.
  - now rewrite length_map, length_combine, Hlen, length_map, Nat.min_id.
  - now rewrite length_map, length_combine, transfer_types_length, length_map,
      Nat.min_id.
Qed.

Lemma multi_aspirate_marks_buffer_row_witness :
  exists lines_pre lines_post : list str,
    Worklist.transfer_lines
      true
      [Worklist.mkTransfer "buffer_plate" "A:1" "dst" "A:1" 2000 2 4
                           "1" "1" "1" "1";
       Worklist.mkTransfer "src" "A:1" "dst" "A:1" 1000 3 4 "1" "1" "1" "1"]
    = lines_pre
        ++ ["MULTI_ASPIRATE,2,1,1,1,2000" ++ nl;
            "COPY,3,1,1,1,4,1,1,1000,[VAR1]" ++ nl]
        ++ lines_post.
Proof.
  destruct (multi_aspirate_marks_buffer_row
              [Worklist.mkTransfer "buffer_plate" "A:1" "dst" "A:1" 2000 2 4
                                   "1" "1" "1" "1";
               Worklist.mkTransfer "src" "A:1" "dst" "A:1" 1000 3 4
                                   "1" "1" "1" "1"]
              [] []
              (Worklist.mkTransfer "buffer_plate" "A:1" "dst" "A:1" 2000 2 4
                                   "1" "1" "1" "1")
              (Worklist.mkTransfer "src" "A:1" "dst" "A:1" 1000 3 4
                                   "1" "1" "1" "1")
              [("buffer_plate" : str, 2); ("src" : str, 3); ("dst" : str, 4)]
              "wl.csv" []
              eq_refl eq_refl ltac:(discriminate) eq_refl eq_refl
              ltac:(vm_compute; discriminate))
    as (lines_pre & lines_post & _ & _ & H & _).
  exists lines_pre, lines_post. exact H.
Defined.

(** C2, as stated, fails: for a buffer transfer of 2000 nl followed by a
    sample transfer of 1000 nl to the same well the worklist has two rows,
    MULTI_ASPIRATE with 2000 and COPY with 1000, and no row with the
    combined 3000 nl. *)
Lemma multi_aspirate_no_combined_row :
  let b := Worklist.mkTransfer "buffer_plate" "A:1" "dst" "A:1" 2000 2 4
                               "1" "1" "1" "1" in
  let s := Worklist.mkTransfer "src" "A:1" "dst" "A:1" 1000 3 4
                               "1" "1" "1" "1" in
  Worklist.multi_aspirate_filter b s = true
  /\ Worklist.transfer_lines true [b; s]
     = ["MULTI_ASPIRATE,2,1,1,1,2000" ++ nl;
        "COPY,3,1,1,1,4,1,1,1000,[VAR1]" ++ nl]
  /\ combined_row b s = "MULTI_ASPIRATE,2,1,1,1,3000" ++ nl
  /\ ~ In (combined_row b s) (Worklist.transfer_lines true [b; s])
  /\ Worklist.write_worklist
       [b; s] [("buffer_plate" : str, 2); ("src" : str, 3); ("dst" : str, 4)]
       "wl.csv" [] true
     = "worklist," ++ nl
         ++ "[VAR1]TipChangeStrategy,always" ++ nl
         ++ "COMMENT, This is the worklist wl.csv" ++ nl
         ++ "COMMENT, Set up layout:    [Empty]     buffer_plate     src     dst     [Empty]" ++ nl
         ++ "MULTI_ASPIRATE,2,1,1,1,2000" ++ nl
         ++ "COPY,3,1,1,1,4,1,1,1000,[VAR1]" ++ nl
         ++ "COMMENT, Done".
Proof.
  cbv zeta. repeat split; try (vm_compute; reflexivity).
  vm_compute. intros [H | [H | []]]; discriminate.
Qed.

(** ** The pooling solver *)

Section PoolFacts.
Import Pool.

Lemma Qlt_bool_iff (a b : Q) : Qlt_bool a b = true <-> (a < b)%Q.
Proof.
  unfold Qlt_bool. rewrite negb_true_iff, <- not_true_iff_false, Qle_bool_iff.
  split; [apply Qnot_le_lt | apply Qlt_not_le].
Qed.

Lemma Qlt_bool_false (a b : Q) : Qlt_bool a b = false <-> (b <= a)%Q.
Proof.
  unfold Qlt_bool. rewrite negb_false_iff. apply Qle_bool_iff.
Qed.

Lemma loc_conc (mask : sample -> bool) (df : list sample) :
  loc mask "conc" df = Ok (map (fun r => Num (conc r)) (filter mask df)).
Proof. reflexivity. Qed.

(** The dataframe has a column [sample_name] and no column [name]. *)
Lemma loc_name (mask : sample -> bool) (df : list sample) :
  loc mask "name" df = Raise (KeyError "name").
Proof. reflexivity. Qed.

Lemma loc_sample_name (mask : sample -> bool) (df : list sample) :
  loc mask "sample_name" df
  = Ok (map (fun r => Txt (sample_name r)) (filter mask df)).
Proof. reflexivity. Qed.

(** No pool with a sample below 0.01 is ever solved: once the assertions on
    the targets have passed, selecting the column [name] raises KeyError. *)
Lemma solve_low_conc_raises (p : params) (pool : pool_art)
      (df_pool : list sample) (r : sample) :
  In r df_pool -> (conc r < 1 # 100)%Q ->
  exists e : exn, solve p pool df_pool = Raise e.
Proof.
  intros Hin Hlow. unfold solve.
  destruct (getitem (unique Qeq_bool (map pool_vol_final df_pool)) 0)
    as [target_pool_vol |]; [| eexists; reflexivity]. cbn [bind].
  match goal with
  | |- context [bind ?t _] => destruct t as [[target_pool_conc target_amt] |]
  end; [| eexists; reflexivity]. cbn [bind].
  destruct (negb _); [eexists; reflexivity |].
  destruct (negb _); [eexists; reflexivity |].
  rewrite loc_conc. cbn [bind].
  assert (Hf : In r (filter (fun r0 => Qlt_bool (conc r0) (1 # 100)) df_pool)).
  { apply filter_In. split; [assumption | now apply Qlt_bool_iff]. }
  destruct (filter _ df_pool) as [| x l]; [destruct Hf |].
  cbn [map]. rewrite loc_name. cbn [bind]. eexists; reflexivity.
Qed.

(** Wherever an even pool is possible and the target volume is above the
    feasible volumes, the solved volume is the maximum well volume. *)
Lemma solve_vol_above_range (p : params) (pool : pool_art)
      (df_pool : list sample) (o : outcome) (target_pool_vol max_vol : Q) :
  solve p pool df_pool = Ok o ->
  getitem (unique Qeq_bool (map pool_vol_final df_pool)) 0 = Ok target_pool_vol ->
  pool_max_vol_given_conc o = Some max_vol ->
  (pool_min_vol_given_conc o <= target_pool_vol)%Q ->
  (max_vol < target_pool_vol)%Q ->
  pool_vol o = well_max_vol p.
Proof.
  intros Hsolve Htarget Hmax Hmin Habove. unfold solve in Hsolve.
  rewrite Htarget in Hsolve. cbn [bind] in Hsolve.
  match type of Hsolve with
  | context [bind ?t _] => destruct t as [[target_pool_conc target_amt] |]
  end; [| discriminate]. cbn [bind] in Hsolve.
  destruct (negb _); [discriminate |].
  destruct (negb _); [discriminate |].
  rewrite loc_conc in Hsolve. cbn [bind] in Hsolve.
  destruct (map _ (filter _ df_pool)) as [| c cs].
  - cbn [bind] in Hsolve.
    destruct df_pool as [| s0 others]; [discriminate |].
    cbn [map] in Hsolve. injection Hsolve as <-.
    cbn [pool_vol pool_max_vol_given_conc pool_min_vol_given_conc] in *.
    destruct (Qlt_bool (Qmax_list _ _) (Qmin_list _ _)); [| discriminate].
    injection Hmax as <-.
    apply Qlt_bool_iff in Habove. rewrite Habove.
    apply Qlt_bool_false in Hmin. now rewrite Hmin.
  - rewrite loc_name in Hsolve. discriminate.
Qed.

End PoolFacts.

(** C3: one sample of 8 nM with 9 ul in the well (4 ul accessible), a target
    pool concentration of 2 nM and a target pool volume of 32 ul. An even
    pool is possible and the target concentration lies within its range, so
    it is kept; the feasible volumes for it run from 2 to 16 ul; the target
    volume is above them, and the solved pool volume is 180 ul, the maximum
    well volume, which is outside the feasible range. *)
Theorem pool_vol_outside_feasible_range :
  exists (o : Pool.outcome) (max_vol : Q),
    Pool.pool Pool.default_params [Pool.mkPool "Pool1" (Some 2%Q)]
              [Pool.mkSample "S1" 8 "nM" 9 "Plate1" "A:1" "Plate2" "A:1"
                             "Plate2" 0 32 "Pool1" 0]
    = Ok [("Pool1" : str, o)]
    /\ Pool.even_pool_is_possible o = true
    /\ (Pool.pool_min_conc o <= 2 /\ 2 <= Pool.pool_max_conc o)%Q
    /\ (Pool.pool_conc o == 2)%Q
    /\ (Pool.pool_min_vol_given_conc o == 2)%Q
    /\ Pool.pool_max_vol_given_conc o = Some max_vol
    /\ (max_vol == 16)%Q
    /\ (Pool.pool_vol o == 180)%Q
    /\ ~ (Pool.pool_vol o <= max_vol)%Q.
Proof.
  do 2 eexists. split; [vm_compute; reflexivity |].
  repeat split; try (vm_compute; congruence).
Qed.

(** C4: a pool of two samples, one of them with a concentration of 0.005.
    The assertions pass, and the run ends with KeyError for the column
    [name]: no concentration is clamped and no warning is logged. *)
Theorem pool_low_conc_raises_KeyError :
  Pool.pool Pool.default_params [Pool.mkPool "Pool1" (Some 2%Q)]
            [Pool.mkSample "S1" 8 "nM" 9 "Plate1" "A:1" "Plate2" "A:1"
                           "Plate2" 0 32 "Pool1" 0;
             Pool.mkSample "S2" (5 # 1000) "nM" 9 "Plate1" "B:1" "Plate2" "A:1"
                           "Plate2" 0 32 "Pool1" 0]
  = Raise (KeyError "name").
Proof. vm_compute. reflexivity. Qed.

(** ** The normalization solver *)

Section NormFacts.
Import Norm.
Local Open Scope Q_scope.



Lemma solve_all_Forall2 (p : params) (df : list sample) (vs : list volumes)
      (lg : list log_entry) :
  solve_all p df = Ok (vs, lg) -> Forall2 (fun r v => solve p r = Ok v) df vs.
Proof.
  revert vs lg. induction df as [| r df IH]; intros vs lg H; simpl in H.
  - injection H as <- <-. constructor.
  - destruct (solve p r) as [v |] eqn:Hv; [| discriminate]. cbn [bind] in H.
    destruct (solve_all p df) as [[vs' lg'] |]; [| discriminate].
    cbn [bind fst snd] in H. injection H as <- <-.
    constructor; [assumption | now apply (IH vs' lg')].
Qed.

Lemma prepare_ok (p : params) (df df' : list sample) :
  prepare p df = Ok df' ->
  df' = map (take_dead_volume p) df
  /\ Forall (fun r => well_dead_vol p < vol r /\ 0 < target_amt r) df.
Proof.
  unfold prepare.
  destruct (forallb (fun r => Qlt_bool (well_dead_vol p) (vol r)) df) eqn:V;
    [| discriminate]. cbn [negb].
  destruct (forallb (fun r => str_eqb (conc_units r) "ng/ul") _);
    [| discriminate]. cbn [negb].
  destruct (forallb (fun r => Qlt_bool 0 (target_amt r)) _) eqn:T;
    [| discriminate]. cbn [negb].
  destruct (negb _); [discriminate |].
  destruct (negb _); [discriminate |].
  intros H. injection H as <-. split; [reflexivity |].
  rewrite forallb_forall in V, T. apply Forall_forall. intros r Hr. split.
  - now apply Qlt_bool_iff, V.
  - apply Qlt_bool_iff.
    apply (T (take_dead_volume p r)). now apply in_map.
Qed.

End NormFacts.




(** C8, as amended: with volume expansion enabled, for every sample that
    reaches the third case (the target amount is not above the greatest
    transferable amount and is below the least one), the total volume is
    min_transfer_amt / target_conc and sample_vol is the minimum pipetting
    volume; the solver fails exactly when that volume exceeds
    well_max_vol. *)
Theorem expansion_of_concentrated_sample (p : Norm.params) (r : Norm.sample) :
  Norm.volume_expansion p = true ->
  (Norm.target_amt r <= Norm.max_transfer_amt r)%Q ->
  (Norm.target_amt r < Norm.min_transfer_amt p r)%Q ->
  let increased_vol := (Norm.min_transfer_amt p r / Norm.target_conc r)%Q in
  ((increased_vol <= Norm.well_max_vol p)%Q ->
   Norm.solve p r
   = Ok (Norm.mkVolumes (Norm.zika_min_vol p)
                        (increased_vol - Norm.zika_min_vol p) increased_vol))
  /\ ((exists e : exn, Norm.solve p r = Raise e)
      <-> (Norm.well_max_vol p < increased_vol)%Q).
Proof.
  intros He Hmax Hmin increased_vol. unfold Norm.solve.
  assert (C1 : Qlt_bool (Norm.max_transfer_amt r) (Norm.target_amt r) = false)
    by now apply Qlt_bool_false.
  assert (C2 : Qle_bool (Norm.min_transfer_amt p r) (Norm.target_amt r) = false).
  { apply not_true_iff_false. rewrite Qle_bool_iff. now apply Qlt_not_le. }
  assert (C3 : Qlt_bool (Norm.target_amt r) (Norm.min_transfer_amt p r) = true)
    by now apply Qlt_bool_iff.
  rewrite C1, C2, C3, He. cbn [andb]. fold increased_vol.
  destruct (Qle_bool increased_vol (Norm.well_max_vol p)) eqn:A; cbn [negb].
  - apply Qle_bool_iff in A. split; [reflexivity |]. split.
    + intros [e H]. discriminate.
    + intros H. exfalso. now apply (Qlt_not_le _ _ H).
  - assert (A' : (Norm.well_max_vol p < increased_vol)%Q).
    { apply Qnot_le_lt. rewrite <- Qle_bool_iff, A. discriminate. }
    split.
    + intros H. exfalso. now apply (Qlt_not_le _ _ A').
    + split; [intros _; exact A' | intros _; eexists; reflexivity].
Qed.

Lemma expansion_of_concentrated_sample_witness :
  Norm.solve Norm.default_params
             (Norm.mkSample "S1" 100 "ng/ul" 10 "Plate1" "Plate2" 5 5)
  = Ok (Norm.mkVolumes
          (1 # 10)
          (Qmin 10 (1 # 10) * 100 / (5 / 5) - (1 # 10))
          (Qmin 10 (1 # 10) * 100 / (5 / 5))).
Proof.
  apply (proj1 (expansion_of_concentrated_sample
                  Norm.default_params
                  (Norm.mkSample "S1" 100 "ng/ul" 10 "Plate1" "Plate2" 5 5)
                  eq_refl ltac:(vm_compute; discriminate) eq_refl)).
  vm_compute. discriminate.
Defined.

(** C8, as stated, fails: with the default parameters, a sample of
    100 ng/ul with 15 ul in the well (10 ul accessible) and a target of 7 ng
    in 0.05 ul has min_transfer_amt = 10 > 7, and the increased volume
    10 / 140 ul is below the maximum well volume; but its
    max_transfer_amt = 5 < 7 sends it to the first case: sample_vol and
    tot_vol are both 0.05 ul. *)
Lemma expansion_preempted_by_first_case :
  let p := Norm.default_params in
  let r := Norm.mkSample "S1" 100 "ng/ul" 15 "Plate1" "Plate2" 7 (5 # 100) in
  let r' := Norm.take_dead_volume p r in
  let increased_vol := (Norm.min_transfer_amt p r' / Norm.target_conc r')%Q in
  Norm.volume_expansion p = true
  /\ (Norm.target_amt r' < Norm.min_transfer_amt p r')%Q
  /\ (increased_vol <= Norm.well_max_vol p)%Q
  /\ exists (v : Norm.volumes) (log : list Norm.log_entry),
       Norm.norm p [r] = Ok ([v], log)
       /\ (Norm.sample_vol v == 5 # 100)%Q
       /\ (Norm.tot_vol v == 5 # 100)%Q
       /\ ~ (Norm.sample_vol v == Norm.zika_min_vol p)%Q
       /\ ~ (Norm.tot_vol v == increased_vol)%Q.
Proof.
  cbv zeta. split; [reflexivity |]. split; [reflexivity |].
  split; [vm_compute; discriminate |].
  do 2 eexists. split; [vm_compute; reflexivity |].
  repeat split; vm_compute; congruence.
Qed.

(** * Further properties of the manifest code *)

Section DistanceFacts.
Import Manifest.

Lemma mismatches_zero_iff (a b : str) :
  List.length a = List.length b -> (mismatches a b = 0%nat <-> a = b).
Proof.
  revert b. induction a as [| x a IH]; intros [| y b] H; try discriminate.
  - split; reflexivity.
  - simpl in *. injection H as H. specialize (IH b H).
    destruct (Ascii.eqb_spec x y) as [-> | N]; simpl.
    + rewrite IH. split; [now intros -> | intros E; now injection E].
    + split; [discriminate | intros E; injection E as E _; contradiction].
Qed.

End DistanceFacts.

Section ShowMatchFacts.
Import Manifest.

Lemma marks_count (seq1 seq2 : str) :
  count_occ ascii_dec (marks seq1 seq2) "X"%char = mismatches seq1 seq2.
Proof.
  unfold marks. revert seq2.
  induction seq1 as [| x a IH]; intros [| y b]; try reflexivity.
  simpl. rewrite IH. destruct (Ascii.eqb x y); simpl.
  - destruct (ascii_dec "|" "X"); [discriminate | reflexivity].
  - destruct (ascii_dec "X" "X"); [reflexivity | contradiction].
Qed.

Lemma marks_length (seq1 seq2 : str) :
  List.length seq1 = List.length seq2 ->
  List.length (marks seq1 seq2) = List.length seq1.
Proof.
  intros H. unfold marks.
  now rewrite length_map, length_combine, <- H, Nat.min_id.
Qed.

End ShowMatchFacts.

(** X1: for two sequences of the same length show_match returns the first
    sequence, a line of marks and the second sequence; the line of marks is
    as long as the sequences and its number of X is their Hamming distance.
    For sequences of different lengths it raises an assertion error. *)
Theorem show_match_marks_mismatches (seq1 seq2 : str) :
  (List.length seq1 = List.length seq2 ->
   Manifest.show_match seq1 seq2
   = Ok (seq1 ++ nl ++ marks seq1 seq2 ++ nl ++ seq2)
   /\ List.length (marks seq1 seq2) = List.length seq1
   /\ count_occ ascii_dec (marks seq1 seq2) "X"%char
      = Manifest.mismatches seq1 seq2)
  /\ (List.length seq1 <> List.length seq2 ->
      Manifest.show_match seq1 seq2 = Raise (AssertionError [])).
Proof.
  unfold Manifest.show_match, len. split.
  - intros H.
    replace (Z.of_nat (List.length seq1) =? Z.of_nat (List.length seq2))
      with true by (symmetry; apply Z.eqb_eq; lia).
    cbn [negb].
    split; [reflexivity |]. split; [now apply marks_length | apply marks_count].
  - intros H.
    destruct (Z.eqb_spec (Z.of_nat (List.length seq1))
                         (Z.of_nat (List.length seq2))) as [E | E];
      [lia | reflexivity].
Qed.

Lemma show_match_marks_mismatches_witness :
  Manifest.show_match "ACGTAC" "ACGTAA"
  = Ok ("ACGTAC" ++ nl ++ "|||||X" ++ nl ++ "ACGTAA")
  /\ Manifest.show_match "ACGT" "ACG" = Raise (AssertionError []).
Proof.
  split.
  - apply (proj1 (show_match_marks_mismatches "ACGTAC" "ACGTAA")). reflexivity.
  - apply (proj2 (show_match_marks_mismatches "ACGT" "ACG")). discriminate.
Defined.

(** X2: whenever fit_seq returns for a requested length that is not
    negative, the result has exactly that length, and it is a prefix of the
    sequence (truncation) or the sequence followed by a prefix of the
    extension string; an extension string shorter than what is missing is
    an error. *)
Theorem fit_seq_result_length (seq : str) (length : Z) (ext : option str) :
  0 <= length ->
  (forall r : str,
      Manifest.fit_seq seq length ext = Ok r ->
      len r = length
      /\ ((exists rest : str, seq = r ++ rest)
          \/ (exists (e more : str),
                 ext = Some (e ++ more) /\ r = seq ++ e)))
  /\ (forall e : str,
         ext = Some e -> len seq + len e < length ->
         Manifest.fit_seq seq length ext
         = Raise (AssertionError
                    "Extension string too short to fit sequence to desired length.")).
Proof.
  intros H0. unfold Manifest.fit_seq. split.
  - intros r.
    destruct (Z.eqb_spec (len seq) length) as [E | E].
    + intros H. injection H as <-. split; [assumption |].
      left. exists []. now rewrite app_nil_r.
    + destruct (len seq >? length) eqn:G.
      * rewrite Z.gtb_ltb in G. apply Z.ltb_lt in G.
        intros H. injection H as <-. rewrite slice_to_firstn by assumption.
        split.
        -- unfold len in *. rewrite length_firstn. lia.
        -- left. exists (skipn (Z.to_nat length) seq).
           symmetry. apply firstn_skipn.
      * rewrite Z.gtb_ltb in G. apply Z.ltb_ge in G.
        destruct ext as [e |]; [| discriminate].
        destruct (length - len seq >? len e) eqn:G2; [discriminate |].
        rewrite Z.gtb_ltb in G2. apply Z.ltb_ge in G2.
        intros H. injection H as <-.
        rewrite slice_to_firstn by lia. split.
        -- rewrite len_app. unfold len in *. rewrite length_firstn. lia.
        -- right. exists (firstn (Z.to_nat (length - len seq)) e),
             (skipn (Z.to_nat (length - len seq)) e).
           now rewrite firstn_skipn.
  - intros e -> Hshort.
    pose proof (len_nonneg e) as He.
    destruct (Z.eqb_spec (len seq) length) as [E | E]; [lia |].
    destruct (len seq >? length) eqn:G.
    + rewrite Z.gtb_ltb in G. apply Z.ltb_lt in G. lia.
    + destruct (length - len seq >? len e) eqn:G2; [reflexivity |].
      rewrite Z.gtb_ltb in G2. apply Z.ltb_ge in G2. lia.
Qed.

Lemma fit_seq_result_length_witness :
  len ("ACGTGTAGC" ++ "NN" : str) = 11
  /\ Manifest.fit_seq "ACGTGTAGC" 13 (Some ("NNN" : str))
     = Raise (AssertionError
                "Extension string too short to fit sequence to desired length.").
Proof.
  destruct (fit_seq_result_length "ACGTGTAGC" 11 (Some ("NNN" : str))
                                  ltac:(lia)) as [H _].
  destruct (fit_seq_result_length "ACGTGTAGC" 13 (Some ("NNN" : str))
                                  ltac:(lia)) as [_ H'].
  split.
  - exact (proj1 (H _ eq_refl)).
  - apply (H' "NNN" eq_refl). vm_compute. reflexivity.
Defined.

Section CheckDistancesFacts.
Import Manifest.

(** A pair with the same indexes always ends the check. *)
Lemma check_pair_same_indexes (row row_comp : Row) (thr : Z) (log : list str) :
  0 <= thr -> indexes row = indexes row_comp ->
  exists (log' : list str) (e : exn),
    check_pair_distance row row_comp false thr log = (log', Raise e).
Proof.
  intros Hthr Hsame. unfold check_pair_distance, pair_distance.
  unfold indexes in Hsame. rewrite Hsame.
  rewrite distance_same_length by reflexivity. rewrite mismatches_refl.
  cbn [bind report]. apply Z.leb_le in Hthr. cbn [Z.of_nat]. rewrite Hthr.
  match goal with
  | |- context [match ?l with Ok _ => _ | Raise _ => _ end] => destruct l
  end; cbn [Nat.eqb]; eauto.
Qed.

(** The log of a comparison only grows. *)
Lemma check_pair_log_grows (row row_comp : Row) (check_flips : bool) (thr : Z)
      (log : list str) :
  exists ws : list str,
    fst (check_pair_distance row row_comp check_flips thr log) = log ++ ws.
Proof.
  unfold check_pair_distance.
  destruct (pair_distance row row_comp check_flips) as [[[d seqs] conf] |];
    [| exists []; now rewrite app_nil_r].
  unfold report. destruct (Z.of_nat d <=? thr);
    [| exists []; now rewrite app_nil_r].
  match goal with
  | |- context [match ?l with Ok _ => _ | Raise _ => _ end] => destruct l
  end; [| exists []; now rewrite app_nil_r].
  destruct (d =? 0)%nat; eexists; reflexivity.
Qed.

Lemma check_against_log_grows (row : Row) (rest : list Row) (thr : Z)
      (log : list str) :
  exists ws : list str, fst (check_against row rest thr log) = log ++ ws.
Proof.
  revert log. induction rest as [| row_comp rest IH]; intros log; simpl.
  - exists []. now rewrite app_nil_r.
  - destruct (check_pair_log_grows row row_comp false thr log) as [ws Hws].
    destruct (check_pair_distance row row_comp false thr log) as [log' [u | e]];
      simpl in Hws; subst log'.
    + destruct (IH (log ++ ws)) as [ws' Hws']. exists (ws ++ ws').
      now rewrite Hws', app_assoc.
    + now exists ws.
Qed.

Lemma check_distances_log_grows (rows : list Row) (thr : Z) (log : list str) :
  exists ws : list str, fst (check_distances rows thr log) = log ++ ws.
Proof.
  revert log. induction rows as [| row rest IH]; intros log; simpl.
  - exists []. now rewrite app_nil_r.
  - destruct (check_against_log_grows row rest thr log) as [ws Hws].
    destruct (check_against row rest thr log) as [log' [u | e]];
      simpl in Hws; subst log'.
    + destruct (IH (log ++ ws)) as [ws' Hws']. exists (ws ++ ws').
      now rewrite Hws', app_assoc.
    + now exists ws.
Qed.

Lemma check_against_ok (row : Row) (rest : list Row) (thr : Z)
      (log log' : list str) :
  0 <= thr -> check_against row rest thr log = (log', Ok tt) ->
  ~ In (indexes row) (map indexes rest).
Proof.
  intros Hthr. revert log. induction rest as [| row_comp rest IH];
    intros log H; simpl in *; [tauto |].
  destruct (check_pair_distance row row_comp false thr log)
    as [log1 [u | e]] eqn:E; [| discriminate].
  intros [Hsame | Hin].
  - destruct (check_pair_same_indexes row row_comp thr log Hthr (eq_sym Hsame))
      as (l & e & He). congruence.
  - now apply (IH log1).
Qed.

(** Between comparable rows a comparison fails only on identical indexes,
    and then with the fatal error. *)
Lemma check_pair_comparable (n : nat) (row row_comp : Row) (thr : Z)
      (log : list str) :
  0 <= thr -> comparable n row -> comparable n row_comp ->
  exists ws : list str,
    check_pair_distance row row_comp false thr log
    = (log ++ ws,
       if str_eqb (indexes row) (indexes row_comp) then Raise identical
       else Ok tt).
Proof.
  intros Hthr (S1 & S2 & L1) (S3 & S4 & L2).
  assert (Hpd : pair_distance row row_comp false
                = Ok (mismatches (indexes row) (indexes row_comp),
                      Index1 row ++ "-" ++ Index2 row ++ " "
                        ++ Index1 row_comp ++ "-" ++ Index2 row_comp,
                      [])).
  { unfold pair_distance. fold (indexes row) (indexes row_comp).
    now rewrite distance_same_length by congruence. }
  assert (Hz : (mismatches (indexes row) (indexes row_comp) =? 0)%nat
               = str_eqb (indexes row) (indexes row_comp)).
  { destruct (str_eqb (indexes row) (indexes row_comp)) eqn:E.
    - apply str_eqb_eq in E. apply Nat.eqb_eq.
      apply mismatches_zero_iff; congruence.
    - apply str_eqb_neq in E. apply Nat.eqb_neq. intros Hm. apply E.
      apply mismatches_zero_iff in Hm; congruence. }
  destruct (Z_le_gt_dec (Z.of_nat (mismatches (indexes row) (indexes row_comp)))
                        thr) as [Hle | Hgt].
  - destruct (report_warns row row_comp false thr _ log S1 S2 S3 S4 Hpd Hle)
      as [w Hw].
    unfold check_pair_distance. rewrite Hpd, Hw. cbn [fst]. rewrite Hz.
    now exists [w].
  - unfold check_pair_distance. rewrite Hpd. unfold report.
    replace (Z.of_nat (mismatches (indexes row) (indexes row_comp)) <=? thr)
      with false by (symmetry; apply Z.leb_gt; lia).
    exists []. rewrite app_nil_r. f_equal.
    rewrite <- Hz.
    destruct (Nat.eqb_spec (mismatches (indexes row) (indexes row_comp)) 0)
      as [E | E]; [rewrite E in Hgt; simpl in Hgt; lia | reflexivity].
Qed.

Lemma check_against_comparable (n : nat) (row : Row) (rest : list Row)
      (thr : Z) (log : list str) :
  0 <= thr -> comparable n row -> Forall (comparable n) rest ->
  exists ws : list str,
    check_against row rest thr log
    = (log ++ ws,
       if existsb (fun r => str_eqb (indexes row) (indexes r)) rest
       then Raise identical else Ok tt).
Proof.
  intros Hthr Hrow Hrest. revert log.
  induction Hrest as [| row_comp rest Hc Hrest IH]; intros log; simpl.
  - exists []. now rewrite app_nil_r.
  - destruct (check_pair_comparable n row row_comp thr log Hthr Hrow Hc)
      as [ws ->].
    destruct (str_eqb (indexes row) (indexes row_comp)); simpl.
    + now exists ws.
    + destruct (IH (log ++ ws)) as [ws' ->]. exists (ws ++ ws').
      now rewrite app_assoc.
Qed.

Lemma check_distances_NoDup (n : nat) (rows : list Row) (thr : Z)
      (log : list str) :
  0 <= thr -> Forall (comparable n) rows ->
  (NoDup (map indexes rows) -> snd (check_distances rows thr log) = Ok tt)
  /\ (~ NoDup (map indexes rows) ->
      snd (check_distances rows thr log) = Raise identical).
Proof.
  intros Hthr Hrows. revert log.
  induction Hrows as [| row rest Hrow Hrest IH]; intros log.
  - split; [reflexivity | intros H; exfalso; apply H; constructor].
  - cbn [check_distances map].
    destruct (check_against_comparable n row rest thr log Hthr Hrow Hrest)
      as [ws ->].
    destruct (existsb (fun r => str_eqb (indexes row) (indexes r)) rest) eqn:E.
    + split; [| reflexivity].
      intros Hnd. exfalso. inversion Hnd as [| ? ? Hnotin _]; subst.
      apply Hnotin. apply existsb_exists in E as (r & Hr & Er).
      apply str_eqb_eq in Er. rewrite Er. now apply in_map.
    + destruct (IH (log ++ ws)) as [IHok IHbad]. split.
      * intros Hnd. inversion Hnd; subst. now apply IHok.
      * intros Hnd. apply IHbad. intros Hrest'. apply Hnd.
        constructor; [| assumption].
        intros Hin. apply in_map_iff in Hin as (r & Er & Hr).
        assert (existsb (fun r => str_eqb (indexes row) (indexes r)) rest
                = true).
        { apply existsb_exists. exists r. split; [assumption |].
          apply str_eqb_eq. now symmetry. }
        congruence.
Qed.

End CheckDistancesFacts.

(** X3: when check_distances returns without an error (for a warning
    threshold that is not negative), no two of the rows, whatever the
    lengths of their indexes, have the same Index1+Index2; and whatever the
    outcome, the log it leaves starts with the log it was given. *)
Theorem check_distances_ok_distinct
        (rows : list Manifest.Row) (dist_warning_threshold : Z)
        (log : list str) :
  (exists ws : list str,
      fst (Manifest.check_distances rows dist_warning_threshold log) = log ++ ws)
  /\ (0 <= dist_warning_threshold ->
      snd (Manifest.check_distances rows dist_warning_threshold log) = Ok tt ->
      NoDup (map indexes rows)).
Proof.
  split; [apply check_distances_log_grows |].
  intros Hthr. revert log.
  induction rows as [| row rest IH]; intros log H; simpl in *.
  - constructor.
  - destruct (Manifest.check_against row rest dist_warning_threshold log)
      as [log1 [[] | e]] eqn:E; [| discriminate].
    constructor.
    + now apply (check_against_ok row rest dist_warning_threshold log log1).
    + now apply (IH log1).
Qed.

Lemma check_distances_ok_distinct_witness :
  NoDup (map indexes
             [Manifest.mkRow "A" "ACGTAC" "GGTT" "1" "P" "0-0";
              Manifest.mkRow "B" "ACGTAA" "GGTA" "1" "P" "0-0";
              Manifest.mkRow "C" "ACGTACGT" "AACCGGTT" "1" "P" "0-0"]).
Proof.
  apply (proj2 (check_distances_ok_distinct
                  [Manifest.mkRow "A" "ACGTAC" "GGTT" "1" "P" "0-0";
                   Manifest.mkRow "B" "ACGTAA" "GGTA" "1" "P" "0-0";
                   Manifest.mkRow "C" "ACGTACGT" "AACCGGTT" "1" "P" "0-0"]
                  3 [])).
  - lia.
  - reflexivity.
Defined.

(** X4: for rows whose index sequences hold no white space and have one
    total length, and a threshold that is not negative, check_distances
    returns when the Index1+Index2 of the rows are pairwise different and
    raises the fatal identical-index error when two of them are equal; no
    other error is possible. *)
Theorem check_distances_comparable_rows
        (n : nat) (rows : list Manifest.Row) (dist_warning_threshold : Z)
        (log : list str) :
  0 <= dist_warning_threshold ->
  Forall (comparable n) rows ->
  (NoDup (map indexes rows) ->
   snd (Manifest.check_distances rows dist_warning_threshold log) = Ok tt)
  /\ (~ NoDup (map indexes rows) ->
      snd (Manifest.check_distances rows dist_warning_threshold log)
      = Raise (AssertionError "Identical indices detected.")).
Proof. apply check_distances_NoDup. Qed.

Lemma check_distances_comparable_rows_witness :
  snd (Manifest.check_distances
         [Manifest.mkRow "A" "ACGTAC" "GGTT" "1" "P" "0-0";
          Manifest.mkRow "B" "ACGTAA" "GGTA" "1" "P" "0-0";
          Manifest.mkRow "A2" "ACGT" "ACGGTT" "1" "P" "0-0"] 3 [])
  = Raise (AssertionError "Identical indices detected.").
Proof.
  refine (proj2 (check_distances_comparable_rows
                   10
                   [Manifest.mkRow "A" "ACGTAC" "GGTT" "1" "P" "0-0";
                    Manifest.mkRow "B" "ACGTAA" "GGTA" "1" "P" "0-0";
                    Manifest.mkRow "A2" "ACGT" "ACGGTT" "1" "P" "0-0"]
                   3 [] _ _) _).
  - lia.
  - repeat constructor; vm_compute; intros [H | H]; discriminate.
  - intros H. inversion H as [| ? ? Hnotin _]; subst. apply Hnotin.
    simpl. right. left. reflexivity.
Defined.

Section PhixFacts.
Import Manifest Phix.

Lemma fit_seq_None (seq : str) (length : Z) :
  0 <= length ->
  fit_seq seq length None
  = if length <=? len seq then Ok (firstn (Z.to_nat length) seq)
    else Raise (AssertionError
                  "Can't extend sequence without extension string.").
Proof.
  intros H. unfold fit_seq.
  destruct (Z.eqb_spec (len seq) length) as [E | E].
  - rewrite <- E, Z.leb_refl. f_equal. unfold len. rewrite Nat2Z.id.
    symmetry. apply firstn_all.
  - rewrite Z.gtb_ltb. destruct (Z.ltb_spec length (len seq)) as [L | L].
    + replace (length <=? len seq) with true by (symmetry; apply Z.leb_le; lia).
      now rewrite slice_to_firstn.
    + replace (length <=? len seq) with false
        by (symmetry; apply Z.leb_gt; lia).
      reflexivity.
Qed.

Lemma get_set_cases (name : str) (s : phix_set) :
  get_set name = Ok s ->
  name = "PhiX Control Library, Adept"
  \/ name = "Cloudbreak PhiX Control Library, Elevate"
  \/ name = "Cloudbreak Freestyle PhiX Control, Third Party".
Proof.
  unfold get_set.
  destruct (find _ PHIX_SETS) as [e |] eqn:F; [| discriminate]. intros _.
  apply find_some in F as [Hin E]. apply str_eqb_eq in E.
  destruct Hin as [<- | [<- | [<- | []]]]; cbn [fst] in E; subst; auto.
Qed.

Lemma len_firstn_Z {A : Type} (n : Z) (l : list A) :
  0 <= n <= len l -> len (firstn (Z.to_nat n) l) = n.
Proof. unfold len. rewrite length_firstn. lia. Qed.

Lemma no_space_firstn (n : nat) (s : str) : no_space s -> no_space (firstn n s).
Proof.
  unfold no_space. revert n. induction s as [| c s IH]; intros [| n] H;
    try reflexivity.
  simpl in *. apply andb_prop in H as [Hc Hs]. now rewrite Hc, IH.
Qed.

Lemma phix_loop (nick lane : str) (L len_idx1 len_idx2 : Z)
      (pairs : list (str * str)) :
  0 <= len_idx1 -> 0 <= len_idx2 ->
  Forall (fun p => len (fst p) = L /\ len (snd p) = L) pairs ->
  for_each pairs (fun phix_idx_pair =>
    index1 <- fit_seq (fst phix_idx_pair) len_idx1 None ;;
    index2 <- fit_seq (snd phix_idx_pair) len_idx2 None ;;
    Ok [mkRow nick index1 index2 lane "Control" "0-0"])
  = if (len_idx1 <=? L) && (len_idx2 <=? L)
    then Ok (map (phix_row nick lane len_idx1 len_idx2) pairs)
    else match pairs with
         | [] => Ok []
         | _ :: _ =>
             Raise (AssertionError
                      "Can't extend sequence without extension string.")
         end.
Proof.
  intros H1 H2 HL. induction HL as [| p pairs [Lp1 Lp2] HL IH].
  - simpl. now destruct (_ && _).
  - cbn [for_each]. rewrite IH. cbn beta.
    rewrite !fit_seq_None by assumption. unfold str in *. rewrite Lp1, Lp2.
    destruct (len_idx1 <=? L); [| reflexivity].
    destruct (len_idx2 <=? L); reflexivity.
Qed.

Lemma get_set_lengths (name : str) (s : phix_set) :
  get_set name = Ok s ->
  List.length (indices s) = 4%nat
  /\ Forall (fun p => len (fst p) = index_length name
                      /\ len (snd p) = index_length name) (indices s).
Proof.
  intros Hs.
  destruct (get_set_cases _ _ Hs) as [-> | [-> | ->]];
    vm_compute in Hs; injection Hs as <-;
    (split; [reflexivity | repeat constructor]).
Qed.

End PhixFacts.

(** X5: for a kit of PHIX_SETS and a group of samples with index lengths
    len_idx1 and len_idx2, the PhiX rows are made exactly when neither
    length exceeds the length of the indexes of the kit (10, or 9 for the
    Elevate kit): then there are four rows, under the nickname of the kit,
    whose Index1 and Index2 have the lengths of the group; otherwise the
    error of fit_seq about the missing extension string is raised. *)
Theorem phix_rows_fitted_or_error
        (phix_set_name : str) (s : Phix.phix_set)
        (len_idx1 len_idx2 : Z) (lane : str) :
  Phix.get_set phix_set_name = Ok s ->
  0 <= len_idx1 -> 0 <= len_idx2 ->
  (len_idx1 <= index_length phix_set_name
   /\ len_idx2 <= index_length phix_set_name ->
   exists rows : list Manifest.Row,
     Phix.phix_rows phix_set_name len_idx1 len_idx2 lane = Ok rows
     /\ List.length rows = 4%nat
     /\ Forall (fun r => Manifest.SampleName r = Phix.nickname s
                         /\ len (Manifest.Index1 r) = len_idx1
                         /\ len (Manifest.Index2 r) = len_idx2
                         /\ Manifest.Lane r = lane) rows)
  /\ (index_length phix_set_name < len_idx1
      \/ index_length phix_set_name < len_idx2 ->
      Phix.phix_rows phix_set_name len_idx1 len_idx2 lane
      = Raise (AssertionError
                 "Can't extend sequence without extension string.")).
Proof.
  intros Hs H1 H2.
  destruct (get_set_lengths _ _ Hs) as [Hn HL].
  unfold Phix.phix_rows. rewrite Hs. cbn [bind].
  rewrite (phix_loop _ _ _ _ _ _ H1 H2 HL).
  split.
  - intros [L1 L2]. apply Z.leb_le in L1, L2. rewrite L1, L2. cbn [andb].
    eexists. split; [reflexivity |]. split; [now rewrite length_map |].
    apply Forall_map, Forall_forall. intros p Hp.
    rewrite Forall_forall in HL. destruct (HL p Hp) as [Lp1 Lp2].
    apply Z.leb_le in L1, L2.
    unfold phix_row.
    cbn [Manifest.SampleName Manifest.Index1 Manifest.Index2 Manifest.Lane].
    unfold str in *.
    split; [reflexivity |].
    split; [apply len_firstn_Z; rewrite Lp1; lia |].
    split; [apply len_firstn_Z; rewrite Lp2; lia | reflexivity].
  - intros L.
    replace ((len_idx1 <=? _) && (len_idx2 <=? _)) with false.
    + destruct (Phix.indices s); [discriminate | reflexivity].
    + symmetry. apply andb_false_iff.
      destruct L as [L | L]; [left | right]; apply Z.leb_gt; lia.
Qed.

Lemma phix_rows_fitted_or_error_witness :
  exists rows : list Manifest.Row,
    Phix.phix_rows "PhiX Control Library, Adept" 8 6 "1" = Ok rows
    /\ List.length rows = 4%nat
    /\ Forall (fun r => Manifest.SampleName r = "PhiX_Adept"
                        /\ len (Manifest.Index1 r) = 8
                        /\ len (Manifest.Index2 r) = 6
                        /\ Manifest.Lane r = "1") rows.
Proof.
  refine (proj1 (phix_rows_fitted_or_error
                   "PhiX Control Library, Adept"
                   (Phix.mkSet "PhiX_Adept" _) 8 6 "1" eq_refl _ _) _).
  - lia.
  - lia.
  - vm_compute. split; discriminate.
Defined.

Section PhixDistinct.
Import Manifest Phix.

Lemma phix_rows_map (name : str) (s : phix_set) (len_idx1 len_idx2 : Z)
      (lane : str) (rows : list Row) :
  get_set name = Ok s -> 0 <= len_idx1 -> 0 <= len_idx2 ->
  phix_rows name len_idx1 len_idx2 lane = Ok rows ->
  len_idx1 <= index_length name /\ len_idx2 <= index_length name
  /\ rows = map (phix_row (nickname s) lane len_idx1 len_idx2) (indices s).
Proof.
  intros Hs H1 H2. destruct (get_set_lengths _ _ Hs) as [Hn HL].
  unfold phix_rows. rewrite Hs. cbn [bind].
  rewrite (phix_loop _ _ _ _ _ _ H1 H2 HL).
  destruct (Z.leb_spec len_idx1 (index_length name));
    destruct (Z.leb_spec len_idx2 (index_length name)); cbn [andb];
    try (destruct (indices s); [discriminate Hn | discriminate]).
  intros E. injection E as <-. auto.
Qed.

Lemma phix_rows_comparable (name : str) (s : phix_set) (len_idx1 len_idx2 : Z)
      (lane : str) :
  get_set name = Ok s -> 0 <= len_idx1 -> 0 <= len_idx2 ->
  len_idx1 <= index_length name -> len_idx2 <= index_length name ->
  Forall (comparable (Z.to_nat len_idx1 + Z.to_nat len_idx2))
         (map (phix_row (nickname s) lane len_idx1 len_idx2) (indices s)).
Proof.
  intros Hs H1 H2 L1 L2. destruct (get_set_lengths _ _ Hs) as [_ HL].
  assert (HS : Forall (fun p => no_space (fst p) /\ no_space (snd p))
                      (indices s)).
  { destruct (get_set_cases _ _ Hs) as [-> | [-> | ->]];
      vm_compute in Hs; injection Hs as <-; repeat constructor. }
  apply Forall_map. rewrite Forall_forall in *. intros p Hp.
  destruct (HL p Hp) as [Lp1 Lp2]. destruct (HS p Hp) as [S1 S2].
  unfold comparable, indexes, phix_row. cbn [Index1 Index2].
  split; [now apply no_space_firstn |]. split; [now apply no_space_firstn |].
  rewrite length_app, !length_firstn. unfold len, str in *. lia.
Qed.

Lemma phix_rows_NoDup (name : str) (s : phix_set) (len_idx1 len_idx2 : Z)
      (lane : str) :
  get_set name = Ok s -> 1 <= len_idx1 + len_idx2 ->
  0 <= len_idx1 -> 0 <= len_idx2 ->
  NoDup (map indexes
             (map (phix_row (nickname s) lane len_idx1 len_idx2) (indices s))).
Proof.
  intros Hs H H1 H2.
  apply (NoDup_map_inv (hd "-"%char)).
  destruct (Z.to_nat len_idx1) as [| n1] eqn:E1;
    [destruct (Z.to_nat len_idx2) as [| n2] eqn:E2; [lia |] |];
    destruct (get_set_cases _ _ Hs) as [-> | [-> | ->]];
    vm_compute in Hs; injection Hs as <-;
    unfold phix_row, indexes; cbn; rewrite ?E1, ?E2; cbn;
    repeat (constructor;
            [cbn; intros Hin;
             repeat (destruct Hin as [Hin | Hin]; [discriminate Hin |]);
             exact Hin |]);
    constructor.
Qed.

End PhixDistinct.

(** X6: the PhiX rows of a kit never collide with each other when the
    group has an index at all (len_idx1 + len_idx2 is at least 1): the
    collision detector, run on them with a threshold that is not negative,
    returns without the fatal error. For a group whose indexes are both
    empty, the four PhiX rows are identical and the detector raises. *)
Theorem phix_rows_collision_free
        (phix_set_name : str) (s : Phix.phix_set)
        (len_idx1 len_idx2 : Z) (lane : str) (rows : list Manifest.Row)
        (dist_warning_threshold : Z) (log : list str) :
  Phix.get_set phix_set_name = Ok s ->
  0 <= len_idx1 -> 0 <= len_idx2 ->
  Phix.phix_rows phix_set_name len_idx1 len_idx2 lane = Ok rows ->
  0 <= dist_warning_threshold ->
  (1 <= len_idx1 + len_idx2 ->
   snd (Manifest.check_distances rows dist_warning_threshold log) = Ok tt)
  /\ (len_idx1 + len_idx2 = 0 ->
      snd (Manifest.check_distances rows dist_warning_threshold log)
      = Raise (AssertionError "Identical indices detected.")).
Proof.
  intros Hs H1 H2 Hrows Hthr.
  destruct (phix_rows_map _ _ _ _ _ _ Hs H1 H2 Hrows) as (L1 & L2 & ->).
  pose proof (phix_rows_comparable _ _ _ _ lane Hs H1 H2 L1 L2) as Hc.
  destruct (check_distances_NoDup _ _ dist_warning_threshold log Hthr Hc)
    as [Hok Hbad].
  split.
  - intros H. apply Hok. now apply (phix_rows_NoDup phix_set_name).
  - intros H. apply Hbad. intros Hnd.
    assert (len_idx1 = 0) by lia. assert (len_idx2 = 0) by lia. subst.
    destruct (get_set_lengths _ _ Hs) as [Hn _].
    destruct (Phix.indices s) as [| p [| q l]]; try discriminate Hn.
    cbn in Hnd. inversion Hnd as [| ? ? Hnotin _]; subst. apply Hnotin.
    now left.
Qed.

Lemma phix_rows_collision_free_witness :
  snd (Manifest.check_distances
         [Manifest.mkRow "PhiX_Elevate" "ACGTGT" "GCTA" "2" "Control" "0-0";
          Manifest.mkRow "PhiX_Elevate" "CACATG" "AGAC" "2" "Control" "0-0";
          Manifest.mkRow "PhiX_Elevate" "GTACAC" "CTCG" "2" "Control" "0-0";
          Manifest.mkRow "PhiX_Elevate" "TGTGCA" "TAGT" "2" "Control" "0-0"]
         3 []) = Ok tt.
Proof.
  refine (proj1 (phix_rows_collision_free
                   "Cloudbreak PhiX Control Library, Elevate"
                   (Phix.mkSet "PhiX_Elevate" _) 6 4 "2" _ 3 []
                   eq_refl _ _ eq_refl _) _); lia.
Defined.

(** ** The resolver on labels of plain bases *)

Section GreedyFacts.
Import Re.
Context {A : Type}.

(** A repetition of a class swallows a run of its members when what
    follows succeeds on the rest. *)
Lemma star_cls_greedy (members b rest : str) (fuel : nat) (gs : list str)
      (k : @cont A) (a : A) :
  Forall (fun c => existsb (Ascii.eqb c) members = true) b ->
  match rest with
  | [] => True
  | c :: _ => existsb (Ascii.eqb c) members = false
  end ->
  (List.length (b ++ rest) <= fuel)%nat ->
  k rest gs = Some a ->
  star (run (Cls members)) fuel (b ++ rest) gs k = Some a.
Proof.
  intros Hb Hrest. revert fuel. induction Hb as [| c b Hc Hb IH];
    intros fuel Hfuel Hk.
  - cbn [app]. destruct fuel as [| fuel]; [exact Hk |].
    cbn [star run]. destruct rest as [| c rest']; [exact Hk |].
    rewrite Hrest. exact Hk.
  - destruct fuel as [| fuel]; [cbn in Hfuel; lia |].
    cbn [app star run]. rewrite Hc.
    replace (List.length (b ++ rest) <? List.length (c :: b ++ rest))%nat
      with true by (symmetry; apply Nat.ltb_lt; cbn; lia).
    rewrite IH; [reflexivity | cbn in Hfuel; lia | exact Hk].
Qed.

Lemma times_cls (members pre rest : str) (gs : list str) (k : @cont A) :
  Forall (fun c => existsb (Ascii.eqb c) members = true) pre ->
  times (run (Cls members)) (List.length pre) (pre ++ rest) gs k = k rest gs.
Proof.
  induction 1 as [| c pre Hc Hpre IH]; [reflexivity |].
  cbn [List.length app times run]. rewrite Hc. exact IH.
Qed.

Lemma star_lit_absent (l s : str) (fuel : nat) (gs : list str) (k : @cont A) :
  strip_prefix l s = None -> star (run (Lit l)) fuel s gs k = k s gs.
Proof.
  intros H. destruct fuel as [| fuel]; [reflexivity |].
  cbn [star run]. now rewrite H.
Qed.

Lemma run_Cat (r1 r2 : regex) (s : str) (gs : list str) (k : @cont A) :
  run (Cat r1 r2) s gs k = run r1 s gs (fun s' gs' => run r2 s' gs' k).
Proof. reflexivity. Qed.

Lemma run_Grp (r : regex) (s : str) (gs : list str) (k : @cont A) :
  run (Grp r) s gs k
  = run r s gs (fun s' gs' =>
                  k s' (gs' ++ [firstn (List.length s - List.length s') s])).
Proof. reflexivity. Qed.

Lemma run_AtLeast (n : nat) (r : regex) (s : str) (gs : list str)
      (k : @cont A) :
  run (AtLeast n r) s gs k
  = times (run r) n s gs
          (fun s' gs' => star (run r) (List.length s') s' gs' k).
Proof. reflexivity. Qed.

Lemma run_Star (r : regex) (s : str) (gs : list str) (k : @cont A) :
  run (Star r) s gs k = star (run r) (List.length s) s gs k.
Proof. reflexivity. Qed.

Lemma run_Opt_Lit (l s : str) (gs : list str) (k : @cont A) :
  run (Opt (Lit l)) s gs k
  = match strip_prefix l s with
    | Some s' => match k s' gs with
                 | Some a => Some a
                 | None => k s gs
                 end
    | None => k s gs
    end.
Proof. cbn [run]. now destruct (strip_prefix l s). Qed.

Lemma times_cls_eq (members : str) (n : nat) (pre rest s : str)
      (gs : list str) (k : @cont A) :
  s = pre ++ rest -> List.length pre = n ->
  Forall (fun c => existsb (Ascii.eqb c) members = true) pre ->
  times (run (Cls members)) n s gs k = k rest gs.
Proof. intros -> <-. apply times_cls. Qed.

End GreedyFacts.

Section PlainLabelFacts.
Import Re Manifest.

Lemma base_member (c : ascii) :
  is_base c = true -> existsb (Ascii.eqb c) ("ATCG" : str) = true.
Proof.
  unfold is_base. cbn [existsb list_ascii_of_string].
  destruct (Ascii.eqb c "A"), (Ascii.eqb c "C"), (Ascii.eqb c "G"),
    (Ascii.eqb c "T"); cbn; auto.
Qed.

Lemma base_cases (c : ascii) :
  is_base c = true ->
  c = "A"%char \/ c = "C"%char \/ c = "G"%char \/ c = "T"%char.
Proof.
  unfold is_base. cbn [existsb list_ascii_of_string].
  destruct (Ascii.eqb_spec c "A"); [auto |].
  destruct (Ascii.eqb_spec c "C"); [auto |].
  destruct (Ascii.eqb_spec c "G"); [auto |].
  destruct (Ascii.eqb_spec c "T"); [auto |]. discriminate.
Qed.

(** The pattern of ordinary indexes on a label of plain bases: the first
    group takes the first index, the second group the second one. *)
Lemma IDX_PAT_plain (idx1 idx2 : str) (dash : bool) :
  (4 <= List.length idx1)%nat ->
  Forall (fun c => is_base c = true) idx1 ->
  Forall (fun c => is_base c = true) idx2 ->
  (dash = false -> idx2 = []) ->
  let label := idx1 ++ (if dash then "-" ++ idx2 else []) in
  match_here IDX_PAT label = Some (label, [idx1; idx2], []).
Proof.
  intros Hlen H1 H2 Hdash label.
  assert (M1 : Forall (fun c => existsb (Ascii.eqb c) ("ATCG" : str) = true)
                      idx1)
    by (eapply Forall_impl; [| exact H1]; apply base_member).
  assert (M2 : Forall (fun c => existsb (Ascii.eqb c) ("ATCG" : str) = true)
                      idx2)
    by (eapply Forall_impl; [| exact H2]; apply base_member).
  set (tail := if dash then "-" ++ idx2 else [] : str) in *.
  assert (Htail : match tail with
                  | [] => True
                  | c :: _ => existsb (Ascii.eqb c) ("ATCG" : str) = false
                  end /\ strip_prefix ("N" : str) tail = None).
  { unfold tail. destruct dash; split; reflexivity. }
  destruct Htail as [Htail HN].
  rewrite <- (firstn_skipn 4 idx1) in M1.
  apply Forall_app in M1 as [Mpre Mpost].
  assert (Hpre : List.length (firstn 4 idx1) = 4%nat)
    by (rewrite length_firstn; lia).
  assert (El : label = firstn 4 idx1 ++ (skipn 4 idx1 ++ tail)).
  { unfold label. now rewrite app_assoc, firstn_skipn. }
  unfold match_here, IDX_PAT.
  rewrite run_Cat, run_Grp, run_Cat, run_AtLeast.
  rewrite (times_cls_eq "ATCG" 4 _ _ label [] _ El Hpre Mpre).
  apply star_cls_greedy; [exact Mpost | exact Htail | lia |].
  rewrite run_Star, star_lit_absent by exact HN.
  replace (firstn (List.length label - List.length tail) label) with idx1
    by (unfold label; now rewrite firstn_consumed).
  cbn [app]. rewrite run_Cat, run_Opt_Lit.
  assert (Hend : forall (r : regex) (g : list str) (k : @cont (str * list str * str)),
             r = Star (Cls "ATCG") -> g = [idx1] ->
             k = (fun s' gs =>
                    Some (firstn (List.length label - List.length s') label,
                          gs, s')) ->
             run (Grp r) idx2 g k = Some (label, [idx1; idx2], [])).
  { intros r g k -> -> ->.
    rewrite run_Grp, run_Star. rewrite <- (app_nil_r idx2) at 2.
    apply star_cls_greedy; [exact M2 | exact I | rewrite app_nil_r; lia |].
    cbn [List.length app]. rewrite !Nat.sub_0_r, !firstn_all. reflexivity. }
  unfold tail. destruct dash.
  - cbn [app strip_prefix list_ascii_of_string]. rewrite Ascii.eqb_refl.
    match goal with
    | |- match ?X with _ => _ end = _ =>
        assert (E : X = Some (label, [idx1; idx2], []))
          by (apply Hend; reflexivity);
        destruct X; [| discriminate E]
    end.
    exact E.
  - rewrite (Hdash eq_refl) in *. cbn [strip_prefix list_ascii_of_string].
    now apply Hend.
Qed.

Lemma findall_IDX_PAT_plain (idx1 idx2 : str) (dash : bool) :
  (4 <= List.length idx1)%nat ->
  Forall (fun c => is_base c = true) idx1 ->
  Forall (fun c => is_base c = true) idx2 ->
  (dash = false -> idx2 = []) ->
  findall IDX_PAT (idx1 ++ (if dash then "-" ++ idx2 else []))
  = [Tuple [idx1; idx2]].
Proof.
  intros Hlen H1 H2 Hdash.
  pose proof (IDX_PAT_plain idx1 idx2 dash Hlen H1 H2 Hdash) as Hm.
  cbv zeta in Hm.
  set (label := idx1 ++ (if dash then "-" ++ idx2 else [])) in *.
  unfold findall. cbn [findall_aux].
  assert (Hs : search IDX_PAT label = Some (label, [idx1; idx2], [])).
  { destruct label; cbn [search]; now rewrite Hm. }
  rewrite Hs. unfold item_of. cbn [groups IDX_PAT Nat.add]. f_equal.
  assert (Hl : (4 <= List.length label)%nat).
  { unfold label. rewrite length_app. lia. }
  destruct label as [| c l]; [cbn in Hl; lia | reflexivity].
Qed.

(** A pattern that starts with a literal finds nothing in a text without
    the first character of the literal. *)
Lemma findall_lit_absent (c : ascii) (l : str) (r : regex) (s : str) :
  ~ In c s -> findall (Cat (Lit (c :: l)) r) s = [].
Proof.
  intros H. unfold findall. cbn [findall_aux].
  replace (search (Cat (Lit (c :: l)) r) s) with (@None (str * list str * str));
    [reflexivity |].
  symmetry. induction s as [| y s IH]; [reflexivity |].
  cbn [search]. unfold match_here. cbn [run strip_prefix].
  destruct (Ascii.eqb_spec c y) as [-> | N].
  - exfalso. apply H. now left.
  - apply IH. intros Hin. apply H. now right.
Qed.

Lemma plain_label_chars (idx1 idx2 : str) (dash : bool) (c : ascii) :
  Forall (fun c => is_base c = true) idx1 ->
  Forall (fun c => is_base c = true) idx2 ->
  In c (idx1 ++ (if dash then "-" ++ idx2 else [])) ->
  is_base c = true \/ c = "-"%char.
Proof.
  intros H1 H2 Hin. rewrite Forall_forall in H1, H2.
  apply in_app_or in Hin as [Hin | Hin]; [left; now apply H1 |].
  destruct dash; [| destruct Hin].
  destruct Hin as [<- | Hin]; [now right | left; now apply H2].
Qed.

Lemma plain_label_not_noindex (c : ascii) (rest : str) :
  is_base c = true ->
  str_eqb (upper (replace_char "," [] (c :: rest))) "NOINDEX"
  || str_eqb (upper (replace_char "," [] (c :: rest))) [] = false.
Proof.
  intros Hc. unfold replace_char. cbn [flat_map].
  destruct (base_cases c Hc) as [-> | [-> | [-> | ->]]];
    cbn [Ascii.eqb Bool.eqb app upper map];
    (apply orb_false_iff; split; apply str_eqb_neq; discriminate).
Qed.

(** A label of plain bases is resolved to the pair of its indexes. *)
Lemma idxs_from_label_plain
      (Chromium_10X_indexes : str -> option (list str))
      (SMARTSEQ3_INDEXES : str -> option (list (list str)))
      (idx1 idx2 : str) (dash : bool) :
  (4 <= List.length idx1)%nat ->
  Forall (fun c => is_base c = true) idx1 ->
  Forall (fun c => is_base c = true) idx2 ->
  (dash = false -> idx2 = []) ->
  idxs_from_label Chromium_10X_indexes SMARTSEQ3_INDEXES
                  (idx1 ++ (if dash then "-" ++ idx2 else []))
  = Ok [Tuple [idx1; idx2]].
Proof.
  intros Hlen H1 H2 Hdash.
  assert (HS : ~ In "S"%char (idx1 ++ (if dash then "-" ++ idx2 else []))).
  { intros Hin.
    destruct (plain_label_chars _ _ _ _ H1 H2 Hin) as [E | E]; discriminate. }
  destruct (idxs_from_label_ordinary
              Chromium_10X_indexes SMARTSEQ3_INDEXES
              (idx1 ++ (if dash then "-" ++ idx2 else []))
              (Tuple [idx1; idx2]) []) as [E _].
  - apply (findall_lit_absent "S" "I-" _ _ HS).
  - apply (findall_lit_absent "S" "I-" _ _ HS).
  - apply (findall_lit_absent "S" "MARTSEQ" _ _ HS).
  - destruct idx1 as [| c idx1']; [cbn in Hlen; lia |].
    inversion H1; subst. now apply plain_label_not_noindex.
  - now apply findall_IDX_PAT_plain.
  - exact E.
Qed.

End PlainLabelFacts.

(** X7: whatever the index tables, a label made of an index of at least
    four bases (A, C, G, T), alone or followed by a dash and a second
    index of bases, gives exactly one manifest row for the sample, with
    Index1 and Index2 as they are written in the label: an empty Index2
    when the label has no second index, and past a dash the second index
    as given, not reverse-complemented. *)
Theorem plain_labels_resolve_as_written
        (Chromium_10X_indexes : str -> option (list str))
        (SMARTSEQ3_INDEXES : str -> option (list (list str)))
        (name lane project seq_setup idx1 idx2 : str) :
  (4 <= List.length idx1)%nat ->
  Forall (fun c => Manifest.is_base c = true) idx1 ->
  Forall (fun c => Manifest.is_base c = true) idx2 ->
  Manifest.sample_rows Chromium_10X_indexes SMARTSEQ3_INDEXES
                       name lane project seq_setup (idx1 ++ "-" ++ idx2)
  = Ok [Manifest.mkRow name idx1 idx2 lane project seq_setup]
  /\ Manifest.sample_rows Chromium_10X_indexes SMARTSEQ3_INDEXES
                          name lane project seq_setup idx1
     = Ok [Manifest.mkRow name idx1 [] lane project seq_setup].
Proof.
  intros Hlen H1 H2. unfold Manifest.sample_rows. split.
  - pose proof (idxs_from_label_plain
                  Chromium_10X_indexes SMARTSEQ3_INDEXES idx1 idx2 true
                  Hlen H1 H2) as E.
    cbv iota in E. rewrite E by discriminate. reflexivity.
  - pose proof (idxs_from_label_plain
                  Chromium_10X_indexes SMARTSEQ3_INDEXES idx1 [] false
                  Hlen H1 (Forall_nil _) (fun _ => eq_refl)) as E.
    cbv iota in E. rewrite app_nil_r in E. rewrite E. reflexivity.
Qed.

Lemma plain_labels_resolve_as_written_witness :
  Manifest.sample_rows (fun _ => None) (fun _ => None)
                       "S1" "1" "P" "0-0" ("GATTACA" ++ "-" ++ "CCGG")
  = Ok [Manifest.mkRow "S1" "GATTACA" "CCGG" "1" "P" "0-0"]
  /\ Manifest.sample_rows (fun _ => None) (fun _ => None)
                          "S1" "1" "P" "0-0" "GATTACA"
     = Ok [Manifest.mkRow "S1" "GATTACA" [] "1" "P" "0-0"].
Proof.
  refine (plain_labels_resolve_as_written
            (fun _ => None) (fun _ => None) "S1" "1" "P" "0-0"
            "GATTACA" "CCGG" _ _ _).
  - cbn. lia.
  - repeat constructor.
  - repeat constructor.
Defined.

(** ** The flip search *)

Section FlipFacts.
Import Manifest.

Lemma for_each_Ok_inv {A B : Type} (l : list A) (body : A -> result (list B))
      (ys : list B) (x : A) :
  for_each l body = Ok ys -> In x l ->
  exists zs : list B, body x = Ok zs /\ incl zs ys.
Proof.
  revert ys. induction l as [| x0 l IH]; intros ys H Hx; [destruct Hx |].
  cbn [for_each] in H.
  destruct (body x0) as [zs0 |] eqn:E0; [| discriminate]. cbn [bind] in H.
  destruct (for_each l body) as [ws |] eqn:El; [| discriminate].
  cbn [bind] in H. injection H as <-.
  destruct Hx as [<- | Hx].
  - exists zs0. split; [assumption | apply incl_appl, incl_refl].
  - destruct (IH ws eq_refl Hx) as (zs & Hb & Hi).
    exists zs. split; [assumption | now apply incl_appr].
Qed.

Lemma for_each_Ok {A B : Type} (l : list A) (body : A -> result (list B)) :
  (forall x : A, In x l -> exists zs : list B, body x = Ok zs) ->
  exists ys : list B, for_each l body = Ok ys.
Proof.
  induction l as [| x l IH]; intros H; [now exists [] |].
  destruct (H x (or_introl eq_refl)) as [zs Hz].
  destruct IH as [ws Hw]; [intros y Hy; apply H; now right |].
  exists (zs ++ ws). cbn [for_each]. now rewrite Hz, Hw.
Qed.

Lemma oriented_In (x a : str) (n m : str) :
  oriented x a -> exists t : str, In (a, t) [(x, n); (revcomp x, m)].
Proof.
  intros []; [exists n; now left | exists m; right; now left].
Qed.

Lemma In_oriented (x a t n m : str) :
  In (a, t) [(x, n); (revcomp x, m)] -> oriented x a.
Proof.
  intros [E | [E | []]]; injection E as <- _; constructor.
Qed.

(** An orientation of an orientation is an orientation. *)
Lemma oriented_of_oriented (x x' a : str) :
  oriented x x' -> oriented x' a -> oriented x a.
Proof.
  intros [] []; try constructor. rewrite revcomp_involutive. constructor.
Qed.

Lemma oriented_sym (x x' : str) : oriented x x' -> oriented x' x.
Proof.
  intros []; [constructor |].
  rewrite <- (revcomp_involutive x) at 2. constructor.
Qed.

(** Every entry of [flips] is the distance of some conformation. *)
Lemma flips_entry (row row_comp : Row) (fl : list flip) (e : flip) :
  flips row row_comp = Ok fl -> In e fl ->
  exists a1 a2 b1 b2 : str,
    oriented (Index1 row) a1 /\ oriented (Index2 row) a2
    /\ oriented (Index1 row_comp) b1 /\ oriented (Index2 row_comp) b2
    /\ fst (fst e) = (distance a1 b1 + distance a2 b2)%nat.
Proof.
  intros H He. unfold flips in H.
  destruct (for_each_In _ _ _ _ H He) as ([a1 n1] & l1 & I1 & H1 & E1).
  destruct (for_each_In _ _ _ _ H1 E1) as ([a2 n2] & l2 & I2 & H2 & E2).
  destruct (for_each_In _ _ _ _ H2 E2) as ([b1 m1] & l3 & I3 & H3 & E3).
  destruct (for_each_In _ _ _ _ H3 E3) as ([b2 m2] & l4 & I4 & H4 & E4).
  injection H4 as <-. destruct E4 as [<- | []].
  exists a1, a2, b1, b2.
  repeat split; eauto using In_oriented.
Qed.

(** Every conformation has its entry in [flips]. *)
Lemma flips_has (row row_comp : Row) (fl : list flip) (a1 a2 b1 b2 : str) :
  flips row row_comp = Ok fl ->
  oriented (Index1 row) a1 -> oriented (Index2 row) a2 ->
  oriented (Index1 row_comp) b1 -> oriented (Index2 row_comp) b2 ->
  exists e : flip,
    In e fl /\ fst (fst e) = (distance a1 b1 + distance a2 b2)%nat.
Proof.
  intros H O1 O2 O3 O4. unfold flips in H.
  destruct (oriented_In _ _ "Index1" "Index1_rc" O1) as [n1 I1].
  destruct (oriented_In _ _ "Index2" "Index2_rc" O2) as [n2 I2].
  destruct (oriented_In _ _ "Index1" "Index1_rc" O3) as [m1 I3].
  destruct (oriented_In _ _ "Index2" "Index2_rc" O4) as [m2 I4].
  destruct (for_each_Ok_inv _ _ _ _ H I1) as (l1 & H1 & S1).
  destruct (for_each_Ok_inv _ _ _ _ H1 I2) as (l2 & H2 & S2).
  destruct (for_each_Ok_inv _ _ _ _ H2 I3) as (l3 & H3 & S3).
  destruct (for_each_Ok_inv _ _ _ _ H3 I4) as (l4 & H4 & S4).
  injection H4 as <-.
  eexists. split.
  - apply S1, S2, S3, S4. now left.
  - reflexivity.
Qed.

(** The least distance of the search for rows whose indexes are those of
    other rows in some orientation is not above theirs. *)
Lemma flip_distance_le (row row' row_comp row_comp' : Row) (f f' : flip) :
  oriented (Index1 row) (Index1 row') ->
  oriented (Index2 row) (Index2 row') ->
  oriented (Index1 row_comp) (Index1 row_comp') ->
  oriented (Index2 row_comp) (Index2 row_comp') ->
  pair_distance row row_comp true = Ok f ->
  pair_distance row' row_comp' true = Ok f' ->
  (fst (fst f') <= fst (fst f))%nat.
Proof.
  intros O1 O2 O3 O4 H H'. unfold pair_distance in H, H'.
  destruct (flips row row_comp) as [fl |] eqn:Hfl; [| discriminate].
  destruct (flips row' row_comp') as [fl' |] eqn:Hfl'; [| discriminate].
  cbn [bind] in H, H'. unfold min_by_dist in H, H'.
  destruct fl as [| x l]; [discriminate |]. injection H as <-.
  destruct fl' as [| x' l']; [discriminate |]. injection H' as <-.
  destruct (flips_entry _ _ _ _ Hfl (min_from_In x l))
    as (a1 & a2 & b1 & b2 & P1 & P2 & P3 & P4 & E).
  destruct (flips_has row' row_comp' _ a1 a2 b1 b2 Hfl')
    as (e' & He' & E');
    try (eapply oriented_of_oriented; [apply oriented_sym; eassumption
                                      | assumption]).
  pose proof (min_from_le x' l') as Hle. rewrite Forall_forall in Hle.
  specialize (Hle e' He'). lia.
Qed.

End FlipFacts.

(** X8: the flip search of check_pair_distance returns for every two rows,
    whatever the lengths of their indexes, and the least distance it finds
    does not depend on the orientation in which the indexes are given: it is
    the same for any two rows whose Index1 and Index2 are theirs, each as it
    stands or reverse-complemented. *)
Theorem flip_distance_orientation_free
        (row row' row_comp row_comp' : Manifest.Row) :
  oriented (Manifest.Index1 row) (Manifest.Index1 row') ->
  oriented (Manifest.Index2 row) (Manifest.Index2 row') ->
  oriented (Manifest.Index1 row_comp) (Manifest.Index1 row_comp') ->
  oriented (Manifest.Index2 row_comp) (Manifest.Index2 row_comp') ->
  exists f f' : Manifest.flip,
    Manifest.pair_distance row row_comp true = Ok f
    /\ Manifest.pair_distance row' row_comp' true = Ok f'
    /\ fst (fst f') = fst (fst f).
Proof.
  intros O1 O2 O3 O4.
  destruct (pair_distance_total row row_comp true) as [f H].
  destruct (pair_distance_total row' row_comp' true) as [f' H'].
  exists f, f'. split; [exact H |]. split; [exact H' |].
  apply Nat.le_antisymm.
  - exact (flip_distance_le _ _ _ _ _ _ O1 O2 O3 O4 H H').
  - apply (flip_distance_le row' row row_comp' row_comp f' f);
      try (apply oriented_sym; assumption); assumption.
Qed.

Lemma flip_distance_orientation_free_witness :
  exists f f' : Manifest.flip,
    Manifest.pair_distance
      (Manifest.mkRow "A" "AACCGG" "TTTT" "1" "P" "0-0")
      (Manifest.mkRow "B" "AACCGTAC" "TTTACG" "1" "P" "0-0")
      true = Ok f
    /\ Manifest.pair_distance
         (Manifest.mkRow "A" (Manifest.revcomp "AACCGG") "TTTT" "1" "P" "0-0")
         (Manifest.mkRow "B" "AACCGTAC" (Manifest.revcomp "TTTACG")
                         "1" "P" "0-0")
         true = Ok f'
    /\ fst (fst f') = fst (fst f).
Proof.
  refine (flip_distance_orientation_free
            (Manifest.mkRow "A" "AACCGG" "TTTT" "1" "P" "0-0")
            (Manifest.mkRow "A" (Manifest.revcomp "AACCGG") "TTTT" "1" "P" "0-0")
            (Manifest.mkRow "B" "AACCGTAC" "TTTACG" "1" "P" "0-0")
            (Manifest.mkRow "B" "AACCGTAC" (Manifest.revcomp "TTTACG")
                            "1" "P" "0-0")
            _ _ _ _).
  - apply reversed.
  - apply as_given.
  - apply as_given.
  - apply reversed.
Defined.

(** * Further properties of the Zika code *)

Section NormAmountFacts.
Import Norm.
Local Open Scope Q_scope.

Lemma solve_all_log (p : params) (df : list sample) (vs : list volumes)
      (lg : list log_entry) :
  solve_all p df = Ok (vs, lg) ->
  lg = map (fun rv => log_row (fst rv) (snd rv)) (combine df vs).
Proof.
  revert vs lg. induction df as [| r df IH]; intros vs lg H; simpl in H.
  - injection H as <- <-. reflexivity.
  - destruct (solve p r) as [v |] eqn:Hv; [| discriminate]. cbn [bind] in H.
    destruct (solve_all p df) as [[vs' lg'] |]; [| discriminate].
    cbn [bind fst snd] in H. injection H as <- <-.
    cbn [combine map fst snd]. f_equal. now apply IH.
Qed.

Lemma Forall2_nth_error {A B : Type} (P : A -> B -> Prop) (l : list A)
      (l' : list B) (i : nat) (a : A) (b : B) :
  Forall2 P l l' -> nth_error l i = Some a -> nth_error l' i = Some b -> P a b.
Proof.
  intros H. revert i. induction H as [| x y l l' Hxy H IH]; intros [| i] Ha Hb;
    try discriminate.
  - injection Ha as <-. injection Hb as <-. assumption.
  - now apply (IH i).
Qed.

(** The amount a solved row transfers: the nearest amount to the target
    that the row can give. *)
Lemma solve_amount (p : params) (r : sample) (v : volumes) :
  0 < conc r -> zika_min_vol p <= vol r ->
  solve p r = Ok v ->
  let final_amt := sample_vol v * conc r in
  (max_transfer_amt r < target_amt r -> final_amt == max_transfer_amt r)
  /\ (min_transfer_amt p r <= target_amt r <= max_transfer_amt r ->
      final_amt == target_amt r /\ tot_vol v == target_vol r)
  /\ (target_amt r <= max_transfer_amt r ->
      target_amt r < min_transfer_amt p r ->
      final_amt == min_transfer_amt p r).
Proof.
  intros Hc Hz. unfold solve.
  destruct (Qlt_bool (max_transfer_amt r) (target_amt r)) eqn:C1.
  - apply Qlt_bool_iff in C1.
    intros H. injection H as <-. cbn [sample_vol buffer_vol tot_vol].
    split; [| split].
    + intros _. unfold max_transfer_amt. now rewrite Q.min_comm.
    + intros [_ H]. exfalso. apply (Qlt_not_le _ _ C1 H).
    + intros H _. exfalso. apply (Qlt_not_le _ _ C1 H).
  - apply Qlt_bool_false in C1.
    destruct (Qle_bool (min_transfer_amt p r) (target_amt r)
              && Qle_bool (target_amt r) (max_transfer_amt r)) eqn:C2.
    + apply andb_prop in C2 as [C2 C2']. apply Qle_bool_iff in C2, C2'.
      intros H. injection H as <-. cbn [sample_vol buffer_vol tot_vol].
      split; [| split].
      * intros H. exfalso. apply (Qlt_not_le _ _ H C1).
      * intros _. split; [field; lra | ring].
      * intros _ H. exfalso. apply (Qlt_not_le _ _ H C2).
    + destruct (Qlt_bool (target_amt r) (min_transfer_amt p r)) eqn:C3;
        [| discriminate].
      apply Qlt_bool_iff in C3.
      assert (Hmin : min_transfer_amt p r == zika_min_vol p * conc r).
      { unfold min_transfer_amt. now rewrite Q.min_r. }
      assert (Hcases : forall tot : Q,
                 (max_transfer_amt r < target_amt r ->
                  zika_min_vol p * conc r == max_transfer_amt r)
                 /\ (min_transfer_amt p r <= target_amt r
                                          <= max_transfer_amt r ->
                     zika_min_vol p * conc r == target_amt r
                     /\ tot == target_vol r)
                 /\ (target_amt r <= max_transfer_amt r ->
                     target_amt r < min_transfer_amt p r ->
                     zika_min_vol p * conc r == min_transfer_amt p r)).
      { intros tot. split; [| split].
        - intros H. exfalso. apply (Qlt_not_le _ _ H C1).
        - intros [H _]. exfalso. apply (Qlt_not_le _ _ C3 H).
        - intros _ _. now symmetry. }
      destruct (volume_expansion p).
      * destruct (negb _); [discriminate |].
        intros H. injection H as <-. cbn [sample_vol buffer_vol tot_vol].
        apply Hcases.
      * intros H. injection H as <-. cbn [sample_vol buffer_vol tot_vol].
        apply Hcases.
Qed.

(** A row solved in the ideal case is logged as normalized. *)
Lemma log_row_exact (r : sample) (v : volumes) :
  0 < target_amt r -> sample_vol v * conc r == target_amt r ->
  log_row r v
  = Normalized (sample_name r) (sample_vol v * conc r) (tot_vol v)
               (sample_vol v * conc r / tot_vol v).
Proof.
  intros Ht E. unfold log_row.
  replace (Qle_bool (5 # 1000)
                    (Qabs' (sample_vol v * conc r / target_amt r - 1)))
    with false; [reflexivity |].
  symmetry. apply not_true_iff_false. rewrite Qle_bool_iff.
  assert (Z : sample_vol v * conc r / target_amt r - 1 == 0)
    by (rewrite E; field; lra).
  unfold Qabs'.
  destruct (Qle_bool 0 (sample_vol v * conc r / target_amt r - 1));
    rewrite Z; intros H; revert H; unfold Qle; cbn; lia.
Qed.

(** The buffer volume of a solved row is not negative when the row has the
    minimum pipetting volume accessible and the target volume is not below
    that volume. *)
Lemma solve_buffer_nonneg (p : params) (r : sample) (v : volumes) :
  0 < conc r -> 0 < target_amt r -> 0 < target_vol r ->
  0 < zika_min_vol p -> zika_min_vol p <= vol r ->
  zika_min_vol p <= target_vol r ->
  solve p r = Ok v ->
  0 < sample_vol v /\ 0 <= buffer_vol v.
Proof.
  intros Hc Ha Ht Hz Hzv Hzt. unfold solve.
  destruct (Qlt_bool (max_transfer_amt r) (target_amt r)) eqn:C1.
  - intros H. injection H as <-. cbn [sample_vol buffer_vol tot_vol]. split.
    + apply Q.min_glb_lt; lra.
    + pose proof (Q.le_min_l (target_vol r) (vol r)). lra.
  - apply Qlt_bool_false in C1. unfold max_transfer_amt in C1.
    assert (Hmax : target_amt r <= target_vol r * conc r).
    { eapply Qle_trans; [exact C1 |].
      apply Qmult_le_compat_r; [apply Q.le_min_r | lra]. }
    assert (Hdiv : target_amt r / conc r <= target_vol r).
    { apply Qle_shift_div_r; assumption. }
    destruct (Qle_bool (min_transfer_amt p r) (target_amt r)
              && Qle_bool (target_amt r) (max_transfer_amt r)) eqn:C2.
    + intros H. injection H as <-. cbn [sample_vol buffer_vol tot_vol]. split.
      * apply Qlt_shift_div_l; lra.
      * lra.
    + destruct (Qlt_bool (target_amt r) (min_transfer_amt p r)) eqn:C3;
        [| discriminate].
      destruct (volume_expansion p).
      * destruct (negb _); [discriminate |].
        intros H. injection H as <-. cbn [sample_vol buffer_vol tot_vol].
        split; [assumption |].
        assert (Hmin : min_transfer_amt p r == zika_min_vol p * conc r).
        { unfold min_transfer_amt. now rewrite Q.min_r. }
        assert (Htc : 0 < target_conc r).
        { unfold target_conc. apply Qlt_shift_div_l; lra. }
        assert (zika_min_vol p <= min_transfer_amt p r / target_conc r);
          [| lra].
        apply Qle_shift_div_l; [assumption |].
        rewrite Hmin. unfold target_conc.
        setoid_replace (zika_min_vol p * (target_amt r / target_vol r))
          with (zika_min_vol p * target_amt r / target_vol r)
          by (field; lra).
        apply Qle_shift_div_r; [assumption |].
        setoid_replace (zika_min_vol p * conc r * target_vol r)
          with (zika_min_vol p * (target_vol r * conc r)) by ring.
        apply Qmult_le_l; assumption.
      * intros H. injection H as <-. cbn [sample_vol buffer_vol tot_vol].
        split; [assumption | lra].
Qed.

End NormAmountFacts.

(** X9: in a run of the normalization solver that returns, a sample of
    positive concentration whose accessible volume is at least the minimum
    pipetting volume gets the amount nearest to its target that it can
    give: its greatest transferable amount when the target is above it;
    the target amount itself, in the target volume and logged as
    normalized, when the target lies between the least and the greatest
    transferable amount; its least transferable amount when the target is
    below it. *)
Theorem norm_transfers_nearest_amount
        (p : Norm.params) (df : list Norm.sample) (d : list Norm.volumes)
        (log : list Norm.log_entry) (i : nat) (r : Norm.sample)
        (v : Norm.volumes) (e : Norm.log_entry) :
  Norm.norm p df = Ok (d, log) ->
  nth_error df i = Some r -> nth_error d i = Some v ->
  nth_error log i = Some e ->
  (0 < Norm.conc r)%Q ->
  (Norm.zika_min_vol p <= Norm.vol r - Norm.well_dead_vol p)%Q ->
  let r' := Norm.take_dead_volume p r in
  let final_amt := (Norm.sample_vol v * Norm.conc r)%Q in
  ((Norm.max_transfer_amt r' < Norm.target_amt r ->
    final_amt == Norm.max_transfer_amt r')
   /\ (Norm.min_transfer_amt p r' <= Norm.target_amt r
       /\ Norm.target_amt r <= Norm.max_transfer_amt r' ->
       final_amt == Norm.target_amt r
       /\ Norm.tot_vol v == Norm.target_vol r
       /\ e = Norm.Normalized (Norm.sample_name r) final_amt (Norm.tot_vol v)
                              (final_amt / Norm.tot_vol v))
   /\ (Norm.target_amt r <= Norm.max_transfer_amt r' ->
       Norm.target_amt r < Norm.min_transfer_amt p r' ->
       final_amt == Norm.min_transfer_amt p r'))%Q.
Proof.
  intros H Hr Hv He Hc Hz r' final_amt. unfold Norm.norm in H.
  destruct (Norm.prepare p df) as [df' |] eqn:Hp; [| discriminate].
  cbn [bind] in H. apply prepare_ok in Hp as [-> Hdf].
  pose proof (solve_all_log _ _ _ _ H) as Hlog.
  apply solve_all_Forall2 in H.
  assert (Hr' : nth_error (map (Norm.take_dead_volume p) df) i = Some r')
    by (rewrite nth_error_map, Hr; reflexivity).
  pose proof (Forall2_nth_error _ _ _ _ _ _ H Hr' Hv) as Hs.
  rewrite Forall_forall in Hdf.
  destruct (Hdf r (nth_error_In _ _ Hr)) as [_ Ht].
  destruct (solve_amount p r' v Hc Hz Hs) as (A1 & A2 & A3).
  split; [exact A1 | split; [| exact A3]].
  intros Hrange. destruct (A2 Hrange) as [E1 E2].
  split; [exact E1 | split; [exact E2 |]].
  assert (E : e = Norm.log_row r' v).
  { subst log. rewrite nth_error_map in He.
    assert (Hrv : nth_error (combine (map (Norm.take_dead_volume p) df) d) i
                  = Some (r', v)).
    { clear - Hr' Hv.
      revert i d Hr' Hv.
      induction (map (Norm.take_dead_volume p) df) as [| x l IH];
        intros [| i] [| y d] Hr' Hv; try discriminate.
      - injection Hr' as <-. injection Hv as <-. reflexivity.
      - now apply IH. }
    rewrite Hrv in He. now injection He as <-. }
  rewrite E. now apply (log_row_exact r' v).
Qed.

Lemma norm_transfers_nearest_amount_witness :
  (100 / 10 * 10 == 100
   /\ 100 / 10 + (10 - 100 / 10) == 10
   /\ Norm.Normalized "S1" (100 / 10 * 10) (100 / 10 + (10 - 100 / 10))
                      (100 / 10 * 10 / (100 / 10 + (10 - 100 / 10)))
      = Norm.Normalized "S1" (100 / 10 * 10) (100 / 10 + (10 - 100 / 10))
                        (100 / 10 * 10 / (100 / 10 + (10 - 100 / 10))))%Q.
Proof.
  refine (proj1 (proj2 (norm_transfers_nearest_amount
           Norm.default_params
           [Norm.mkSample "S1" 10 "ng/ul" 30 "Plate1" "Plate2" 100 10]
           [Norm.mkVolumes (100 / 10) (10 - 100 / 10)
                           (100 / 10 + (10 - 100 / 10))]
           [Norm.Normalized "S1" (100 / 10 * 10)
                            (100 / 10 + (10 - 100 / 10))
                            (100 / 10 * 10 / (100 / 10 + (10 - 100 / 10)))]
           0
           (Norm.mkSample "S1" 10 "ng/ul" 30 "Plate1" "Plate2" 100 10)
           (Norm.mkVolumes (100 / 10) (10 - 100 / 10)
                           (100 / 10 + (10 - 100 / 10)))
           (Norm.Normalized "S1" (100 / 10 * 10)
                            (100 / 10 + (10 - 100 / 10))
                            (100 / 10 * 10 / (100 / 10 + (10 - 100 / 10))))
           eq_refl eq_refl eq_refl eq_refl _ _)) _).
  - reflexivity.
  - vm_compute. discriminate.
  - split; vm_compute; discriminate.
Defined.

(** X10: in a run of the normalization solver that returns (with a positive
    minimum pipetting volume), a sample of positive concentration and
    target volume, whose accessible volume and target volume are both at
    least the minimum pipetting volume, gets a positive sample volume and
    a buffer volume that is not negative. *)
Theorem norm_volumes_not_negative
        (p : Norm.params) (df : list Norm.sample) (d : list Norm.volumes)
        (log : list Norm.log_entry) :
  Norm.norm p df = Ok (d, log) ->
  (0 < Norm.zika_min_vol p)%Q ->
  Forall2
    (fun r v =>
       (0 < Norm.conc r -> 0 < Norm.target_vol r ->
        Norm.zika_min_vol p <= Norm.vol r - Norm.well_dead_vol p ->
        Norm.zika_min_vol p <= Norm.target_vol r ->
        0 < Norm.sample_vol v /\ 0 <= Norm.buffer_vol v)%Q)
    df d.
Proof.
  unfold Norm.norm. intros H Hz.
  destruct (Norm.prepare p df) as [df' |] eqn:Hp; [| discriminate].
  cbn [bind] in H. apply prepare_ok in Hp as [-> Hdf].
  apply solve_all_Forall2 in H.
  revert d H. induction Hdf as [| r df [Hv Ha] Hdf IH]; intros d H.
  - inversion H. constructor.
  - inversion H as [| r' v df' d' Hs Hrest]; subst. constructor.
    + intros Hc Ht Hzv Hzt.
      now apply (solve_buffer_nonneg p (Norm.take_dead_volume p r) v).
    + now apply IH.
Qed.

Lemma norm_volumes_not_negative_witness :
  (0 < 1 # 10
   /\ 0 <= Qmin (10 - 5) (1 # 10) * 100 / (5 / 5) - (1 # 10))%Q.
Proof.
  pose proof (norm_volumes_not_negative
                Norm.default_params
                [Norm.mkSample "S1" 100 "ng/ul" 10 "Plate1" "Plate2" 5 5]
                [Norm.mkVolumes
                   (1 # 10)
                   (Qmin (10 - 5) (1 # 10) * 100 / (5 / 5) - (1 # 10))
                   (Qmin (10 - 5) (1 # 10) * 100 / (5 / 5))]
                [Norm.Warning_deviating
                   "S1" (1 # 10) ((1 # 10) * 100)
                   (Qmin (10 - 5) (1 # 10) * 100 / (5 / 5))
                   ((1 # 10) * 100
                    / (Qmin (10 - 5) (1 # 10) * 100 / (5 / 5)))]
                eq_refl eq_refl) as H.
  inversion H as [| r v l l' Hrow Hrest]; subst.
  apply Hrow; vm_compute; first [reflexivity | discriminate].
Defined.

Section NormConcFacts.
Import Norm.
Local Open Scope Q_scope.

(** A row with enough sample ends at its target concentration: in the ideal
    case, and with volume expansion also when it is too concentrated. *)
Lemma solve_target_conc (p : params) (r : sample) (v : volumes) :
  volume_expansion p = true ->
  0 < conc r -> 0 < target_amt r -> 0 < target_vol r ->
  0 < zika_min_vol p -> zika_min_vol p <= vol r ->
  target_amt r <= max_transfer_amt r ->
  solve p r = Ok v ->
  sample_vol v * conc r / tot_vol v == target_conc r.
Proof.
  intros He Hc Ha Ht Hz Hzv Hmax. unfold solve.
  replace (Qlt_bool (max_transfer_amt r) (target_amt r)) with false
    by (symmetry; now apply Qlt_bool_false).
  destruct (Qle_bool (min_transfer_amt p r) (target_amt r)
            && Qle_bool (target_amt r) (max_transfer_amt r)) eqn:C2.
  - intros H. injection H as <-. cbn [sample_vol buffer_vol tot_vol].
    unfold target_conc.
    setoid_replace (target_amt r / conc r
                    + (target_vol r - target_amt r / conc r))
      with (target_vol r) by ring.
    field. split; lra.
  - destruct (Qlt_bool (target_amt r) (min_transfer_amt p r)) eqn:C3;
      [| discriminate].
    destruct (volume_expansion p); [| discriminate He].
    destruct (negb _); [intros H; discriminate H |].
    intros H. injection H as <-. cbn [sample_vol buffer_vol tot_vol].
    assert (Hmin : min_transfer_amt p r == zika_min_vol p * conc r).
    { unfold min_transfer_amt. now rewrite Q.min_r. }
    rewrite Hmin. unfold target_conc. field.
    repeat split; lra.
Qed.

End NormConcFacts.

(** X11: in a run of the normalization solver with volume expansion that
    returns (and a positive minimum pipetting volume), every sample that
    has enough material for its target (the target amount is not above
    max_transfer_amt), with positive concentration and target volume and
    at least the minimum pipetting volume accessible, ends at its target
    concentration: sample_vol * conc / tot_vol == target_amt / target_vol,
    whether it is solved in the ideal case or by expanding the volume. *)
Theorem norm_reaches_target_concentration
        (p : Norm.params) (df : list Norm.sample) (d : list Norm.volumes)
        (log : list Norm.log_entry) :
  Norm.norm p df = Ok (d, log) ->
  Norm.volume_expansion p = true ->
  (0 < Norm.zika_min_vol p)%Q ->
  Forall2
    (fun r v =>
       (0 < Norm.conc r -> 0 < Norm.target_vol r ->
        Norm.zika_min_vol p <= Norm.vol r - Norm.well_dead_vol p ->
        Norm.target_amt r
        <= Norm.max_transfer_amt (Norm.take_dead_volume p r) ->
        Norm.sample_vol v * Norm.conc r / Norm.tot_vol v
        == Norm.target_amt r / Norm.target_vol r)%Q)
    df d.
Proof.
  unfold Norm.norm. intros H He Hz.
  destruct (Norm.prepare p df) as [df' |] eqn:Hp; [| discriminate].
  cbn [bind] in H. apply prepare_ok in Hp as [-> Hdf].
  apply solve_all_Forall2 in H.
  revert d H. induction Hdf as [| r df [Hv Ha] Hdf IH]; intros d H.
  - inversion H. constructor.
  - inversion H as [| r' v df' d' Hs Hrest]; subst. constructor.
    + intros Hc Ht Hzv Hmax.
      now apply (solve_target_conc p (Norm.take_dead_volume p r) v).
    + now apply IH.
Qed.

Lemma norm_reaches_target_concentration_witness :
  ((1 # 10) * 100 / (Qmin (10 - 5) (1 # 10) * 100 / (5 / 5)) == 5 / 5)%Q.
Proof.
  pose proof (norm_reaches_target_concentration
                Norm.default_params
                [Norm.mkSample "S1" 100 "ng/ul" 10 "Plate1" "Plate2" 5 5]
                [Norm.mkVolumes
                   (1 # 10)
                   (Qmin (10 - 5) (1 # 10) * 100 / (5 / 5) - (1 # 10))
                   (Qmin (10 - 5) (1 # 10) * 100 / (5 / 5))]
                [Norm.Warning_deviating
                   "S1" (1 # 10) ((1 # 10) * 100)
                   (Qmin (10 - 5) (1 # 10) * 100 / (5 / 5))
                   ((1 # 10) * 100
                    / (Qmin (10 - 5) (1 # 10) * 100 / (5 / 5)))]
                eq_refl eq_refl eq_refl) as H.
  inversion H as [| r v l l' Hrow Hrest]; subst.
  apply Hrow; vm_compute; first [reflexivity | discriminate].
Defined.

Section PoolVolumeFacts.
Import Pool.
Local Open Scope Q_scope.

Lemma Qmax_list_In (x : Q) (l : list Q) : In (Qmax_list x l) (x :: l).
Proof.
  unfold Qmax_list. revert x. induction l as [| y l IH]; intros x.
  - now left.
  - cbn [fold_left]. destruct (Qlt_bool x y).
    + right. apply IH.
    + destruct (IH x) as [H | H]; [now left | right; now right].
Qed.

Lemma fold_left_Qplus (l : list Q) (a : Q) :
  fold_left Qplus l a == a + Qsum l.
Proof.
  unfold Qsum. revert a. induction l as [| x l IH]; intros a; cbn [fold_left].
  - ring.
  - rewrite (IH (a + x)), (IH (0 + x)). ring.
Qed.

Lemma Qsum_cons (x : Q) (l : list Q) : Qsum (x :: l) == x + Qsum l.
Proof. unfold Qsum at 1. cbn [fold_left]. rewrite fold_left_Qplus. ring. Qed.

Lemma Qsum_nonneg (l : list Q) : Forall (fun x => 0 <= x) l -> 0 <= Qsum l.
Proof.
  induction 1 as [| x l Hx Hl IH]; [apply Qle_refl |].
  rewrite Qsum_cons. lra.
Qed.

Lemma Qsum_pos (x : Q) (l : list Q) :
  Forall (fun x => 0 < x) (x :: l) -> 0 < Qsum (x :: l).
Proof.
  intros H. inversion H as [| ? ? Hx Hl]; subst. rewrite Qsum_cons.
  assert (0 <= Qsum l); [| lra].
  apply Qsum_nonneg. eapply Forall_impl; [| exact Hl].
  intros a Ha. cbn beta in *. apply Qlt_le_weak. exact Ha.
Qed.

Lemma Qsum_le (A : Type) (f g : A -> Q) (l : list A) :
  Forall (fun a => f a <= g a) l -> Qsum (map f l) <= Qsum (map g l).
Proof.
  induction 1 as [| a l Ha Hl IH]; [apply Qle_refl |].
  cbn [map]. rewrite !Qsum_cons. cbn beta in Ha.
  apply Qplus_le_compat; assumption.
Qed.

Lemma Qsum_scale (A : Type) (k : Q) (f : A -> Q) (l : list A) :
  Qsum (map (fun a => k * f a) l) == k * Qsum (map f l).
Proof.
  induction l as [| a l IH]; [unfold Qsum; cbn; ring |].
  cbn [map]. rewrite !Qsum_cons, IH. ring.
Qed.

Lemma n_samples_pos (s0 : sample) (others : list sample) :
  0 < n_samples (s0 :: others).
Proof. unfold n_samples, len, Qlt. cbn [List.length inject_Z Qnum Qden]. lia. Qed.

(** What a solved pool is made of. *)
Lemma solve_inv (p : params) (pool : pool_art) (df_pool : list sample)
      (o : outcome) :
  solve p pool df_pool = Ok o ->
  exists (target_pool_vol target_pool_conc target_amt : Q)
         (s0 : sample) (others : list sample),
    df_pool = s0 :: others
    /\ Forall (fun r => (1 # 100) <= conc r) df_pool
    /\ 0 < target_pool_vol /\ target_pool_vol <= well_max_vol p
    /\ 0 < target_amt
    /\ (target_amt = target_pool_conc * target_pool_vol / n_samples df_pool
        \/ target_pool_conc = target_amt * n_samples df_pool / target_pool_vol)
    /\ let n := n_samples df_pool in
       let hma := Qmax_list (zika_min_vol p * conc s0)
                            (map (fun r => zika_min_vol p * conc r) others) in
       let lma := Qmin_list (vol s0 * conc s0)
                            (map (fun r => vol r * conc r) others) in
       pool_min_conc o = hma * n / well_max_vol p
       /\ pool_max_conc o
          = hma * n / Qsum (map (fun r => hma / conc r) df_pool)
       /\ pool_conc o
          = (if Qlt_bool (pool_max_conc o) target_pool_conc
             then pool_max_conc o
             else if Qlt_bool target_pool_conc (pool_min_conc o)
                  then pool_min_conc o else target_pool_conc)
       /\ pool_min_vol_given_conc o
          = Qmin (hma * n / pool_conc o) (well_max_vol p)
       /\ pool_vol o
          = (if even_pool_is_possible o then
               if Qlt_bool target_pool_vol (pool_min_vol_given_conc o)
               then pool_min_vol_given_conc o
               else if Qlt_bool (Qmin (lma * n / pool_conc o) (well_max_vol p))
                                target_pool_vol
                    then well_max_vol p else target_pool_vol
             else pool_min_vol_given_conc o)
       /\ transfer_vol o
          = map (fun r => Qmin (pool_conc o * pool_vol o / n / conc r) (vol r))
                df_pool
       /\ pool_max_vol_given_conc o
          = (if even_pool_is_possible o
             then Some (Qmin (lma * n / pool_conc o) (well_max_vol p))
             else None).
Proof.
  intros Hsolve. unfold solve in Hsolve.
  destruct (getitem (unique Qeq_bool (map pool_vol_final df_pool)) 0)
    as [target_pool_vol |]; [| discriminate]. cbn [bind] in Hsolve.
  match type of Hsolve with
  | context [bind ?t _] =>
      destruct t as [[target_pool_conc target_amt] |] eqn:Ht
  end; [| discriminate]. cbn [bind] in Hsolve.
  destruct (Qlt_bool 0 target_pool_vol
            && Qle_bool target_pool_vol (well_max_vol p)) eqn:Hv;
    [| discriminate]. cbn [negb] in Hsolve.
  apply andb_prop in Hv as [Hv1 Hv2].
  apply Qlt_bool_iff in Hv1. apply Qle_bool_iff in Hv2.
  destruct (Qlt_bool 0 target_amt) eqn:Ha; [| discriminate].
  cbn [negb] in Hsolve. apply Qlt_bool_iff in Ha.
  rewrite loc_conc in Hsolve. cbn [bind] in Hsolve.
  destruct (filter (fun r => Qlt_bool (conc r) (1 # 100)) df_pool)
    as [| c cs] eqn:Hlow; [| cbn [map] in Hsolve; discriminate].
  cbn [map bind] in Hsolve.
  destruct df_pool as [| s0 others]; [discriminate |].
  cbn [map] in Hsolve. injection Hsolve as <-.
  exists target_pool_vol, target_pool_conc, target_amt, s0, others.
  split; [reflexivity |]. split.
  { apply Forall_forall. intros r Hr. apply Qlt_bool_false.
    destruct (Qlt_bool (conc r) (1 # 100)) eqn:E; [| reflexivity].
    assert (Hin : In r (filter (fun r => Qlt_bool (conc r) (1 # 100))
                               (s0 :: others)))
      by (apply filter_In; split; assumption).
    rewrite Hlow in Hin. destruct Hin. }
  split; [assumption |]. split; [assumption |]. split; [assumption |]. split.
  { destruct (pool_conc_udf pool) as [c |].
    - injection Ht as <- <-. now left.
    - destruct (getitem (unique Qeq_bool (map amt_taken (s0 :: others))) 0);
        [| discriminate].
      cbn [bind] in Ht. injection Ht as <- <-. now right. }
  cbv zeta. cbn [pool_min_conc pool_max_conc pool_conc pool_min_vol_given_conc
                 pool_vol transfer_vol even_pool_is_possible
                 pool_max_vol_given_conc].
  repeat split.
Qed.

Lemma Qmin_list_le (x : Q) (l : list Q) :
  Forall (fun y => Qmin_list x l <= y) (x :: l).
Proof.
  unfold Qmin_list. revert x. induction l as [| y l IH]; intros x.
  - constructor; [apply Qle_refl | constructor].
  - cbn [fold_left]. destruct (Qlt_bool y x) eqn:E.
    + apply Qlt_bool_iff in E. specialize (IH y).
      inversion IH as [| ? ? Hy Hl]; subst.
      constructor; [lra | now constructor].
    + apply Qlt_bool_false in E. specialize (IH x).
      inversion IH as [| ? ? Hx Hl]; subst.
      constructor; [assumption | constructor; [lra | assumption]].
Qed.

Lemma Forall2_map_left {A B C : Type} (P : B -> C -> Prop) (g : A -> B)
      (l : list A) (l' : list C) :
  Forall2 P (map g l) l' -> Forall2 (fun a c => P (g a) c) l l'.
Proof.
  revert l'. induction l as [| a l IH]; intros l' H; inversion H; subst;
    constructor; [assumption | now apply IH].
Qed.

Lemma Forall2_map_same {A B : Type} (P : A -> B -> Prop) (f : A -> B)
      (l : list A) :
  Forall (fun a => P a (f a)) l -> Forall2 P l (map f l).
Proof. induction 1; constructor; assumption. Qed.

(** The volumes of a solved pool, for samples whose accessible volume is
    not negative. *)
Lemma solve_volumes (p : params) (pool : pool_art) (df_pool : list sample)
      (o : outcome) :
  solve p pool df_pool = Ok o ->
  0 < zika_min_vol p ->
  Forall (fun r => 0 <= vol r) df_pool ->
  0 < pool_conc o
  /\ 0 < pool_vol o /\ pool_vol o <= well_max_vol p
  /\ Forall2 (fun r t => 0 <= t /\ t <= vol r) df_pool (transfer_vol o)
  /\ (pool_conc o <= pool_max_conc o -> Qsum (transfer_vol o) <= pool_vol o).
Proof.
  intros Hsolve Hz Hvol.
  destruct (solve_inv _ _ _ _ Hsolve)
    as (tpv & tpc & ta & s0 & others & -> & Hconc & Hv1 & Hv2 & Ha & Hrel & H).
  cbv zeta in H.
  set (n := n_samples (s0 :: others)) in *.
  set (hma := Qmax_list (zika_min_vol p * conc s0)
                        (map (fun r => zika_min_vol p * conc r) others)) in *.
  set (lma := Qmin_list (vol s0 * conc s0)
                        (map (fun r => vol r * conc r) others)) in *.
  set (msv := Qsum (map (fun r => hma / conc r) (s0 :: others))) in *.
  destruct H as (Emin & Emax & Econc & Epmv & Evol & Etr & _).
  assert (Hn : 0 < n) by apply n_samples_pos.
  assert (Hc : forall r, In r (s0 :: others) -> 0 < conc r).
  { intros r Hr. rewrite Forall_forall in Hconc. specialize (Hconc r Hr). lra. }
  assert (Hhma : 0 < hma).
  { assert (Hin : exists r, In r (s0 :: others)
                            /\ hma = zika_min_vol p * conc r).
    { destruct (Qmax_list_In
                  (zika_min_vol p * conc s0)
                  (map (fun r => zika_min_vol p * conc r) others))
        as [E | E].
      - exists s0. split; [now left | now symmetry].
      - apply in_map_iff in E as (r & E & Hr). exists r.
        split; [now right | now symmetry]. }
    destruct Hin as (r & Hr & ->).
    apply Qmult_lt_0_compat; [assumption | now apply Hc]. }
  assert (Hpma : 0 < hma * n) by now apply Qmult_lt_0_compat.
  assert (Hmsv : 0 < msv).
  { apply Qsum_pos. change (Forall (fun x => 0 < x)
                                   (map (fun r => hma / conc r) (s0 :: others))).
    apply Forall_map, Forall_forall. intros r Hr.
    apply Qlt_shift_div_l; [now apply Hc | lra]. }
  assert (Hw : 0 < well_max_vol p) by lra.
  assert (Hpmin : 0 < pool_min_conc o)
    by (rewrite Emin; apply Qlt_shift_div_l; lra).
  assert (Hpmax : 0 < pool_max_conc o)
    by (rewrite Emax; apply Qlt_shift_div_l; lra).
  assert (Htpc : 0 < tpc).
  { destruct Hrel as [E | E].
    - destruct (Qlt_le_dec 0 tpc) as [Hp | Hp]; [assumption | exfalso].
      assert (Hq : tpc * tpv / n <= 0).
      { apply Qle_shift_div_r; [assumption |].
        setoid_replace (0 * n) with 0 by ring.
        setoid_replace (tpc * tpv) with (- ((- tpc) * tpv)) by ring.
        assert (0 <= - tpc * tpv) by (apply Qmult_le_0_compat; lra). lra. }
      rewrite <- E in Hq. lra.
    - rewrite E. apply Qlt_shift_div_l; [assumption |].
      setoid_replace (0 * tpv) with 0 by ring.
      now apply Qmult_lt_0_compat. }
  assert (Hpc : 0 < pool_conc o).
  { rewrite Econc. destruct (Qlt_bool _ _); [assumption |].
    destruct (Qlt_bool _ _); assumption. }
  assert (Hpmv : 0 < pool_min_vol_given_conc o
                 /\ pool_min_vol_given_conc o <= well_max_vol p).
  { rewrite Epmv. split; [| apply Q.le_min_r].
    apply Q.min_glb_lt; [| assumption].
    apply Qlt_shift_div_l; lra. }
  assert (Hpv : 0 < pool_vol o /\ pool_vol o <= well_max_vol p).
  { rewrite Evol. destruct (even_pool_is_possible o); [| exact Hpmv].
    destruct (Qlt_bool tpv _) eqn:C1; [exact Hpmv |].
    destruct (Qlt_bool _ tpv) eqn:C2; [split; lra | split; assumption]. }
  destruct Hpv as [Hpv1 Hpv2].
  assert (Hsta : 0 < pool_conc o * pool_vol o / n).
  { apply Qlt_shift_div_l; [assumption |].
    setoid_replace (0 * n) with 0 by ring. now apply Qmult_lt_0_compat. }
  split; [assumption |]. split; [assumption |]. split; [assumption |].
  rewrite Etr. split.
  - apply Forall2_map_same, Forall_forall. intros r Hr.
    rewrite Forall_forall in Hvol. split; [| apply Q.le_min_r].
    apply Q.min_glb; [| now apply Hvol].
    apply Qlt_le_weak, Qlt_shift_div_l; [now apply Hc | lra].
  - intros Hle.
    eapply Qle_trans;
      [apply (Qsum_le _ _ (fun r => pool_conc o * pool_vol o / n / hma
                                    * (hma / conc r))) |].
    { apply Forall_forall. intros r Hr. cbn beta.
      eapply Qle_trans; [apply Q.le_min_l |].
      assert (E : pool_conc o * pool_vol o / n / hma * (hma / conc r)
                  == pool_conc o * pool_vol o / n / conc r).
      { pose proof (Hc r Hr). field. split; [| split]; lra. }
      rewrite E. apply Qle_refl. }
    rewrite Qsum_scale. fold msv.
    assert (Hm : pool_conc o * msv <= hma * n).
    { rewrite Emax in Hle.
      setoid_replace (hma * n) with (hma * n / msv * msv) by (field; lra).
      apply Qmult_le_compat_r; lra. }
    setoid_replace (pool_conc o * pool_vol o / n / hma * msv)
      with (pool_vol o * (pool_conc o * msv) / (hma * n))
      by (field; split; lra).
    apply Qle_shift_div_r; [assumption |].
    apply Qmult_le_l; assumption.
Qed.

(** Where an even pool is possible and the pool volume is within the
    greatest volume the samples allow, every sample gives the same amount. *)
Lemma solve_even (p : params) (pool : pool_art) (df_pool : list sample)
      (o : outcome) (max_vol : Q) :
  solve p pool df_pool = Ok o ->
  0 < zika_min_vol p ->
  Forall (fun r => 0 <= vol r) df_pool ->
  pool_max_vol_given_conc o = Some max_vol ->
  pool_vol o <= max_vol ->
  Forall2 (fun r t => t * conc r
                      == pool_conc o * pool_vol o / n_samples df_pool)
          df_pool (transfer_vol o).
Proof.
  intros Hsolve Hz Hvol Hmax Hle.
  destruct (solve_volumes _ _ _ _ Hsolve Hz Hvol) as (Hpc & Hpv & _).
  destruct (solve_inv _ _ _ _ Hsolve)
    as (tpv & tpc & ta & s0 & others & -> & Hconc & Hv1 & Hv2 & Ha & Hrel & H).
  cbv zeta in H.
  set (n := n_samples (s0 :: others)) in *.
  set (lma := Qmin_list (vol s0 * conc s0)
                        (map (fun r => vol r * conc r) others)) in *.
  destruct H as (_ & _ & _ & _ & _ & Etr & Emv).
  assert (Hn : 0 < n) by apply n_samples_pos.
  rewrite Hmax in Emv.
  destruct (even_pool_is_possible o); [| discriminate].
  injection Emv as Emv.
  assert (Hlma : pool_conc o * pool_vol o / n <= lma).
  { assert (H1 : max_vol <= lma * n / pool_conc o)
      by (rewrite Emv; apply Q.le_min_l).
    assert (H2 : pool_vol o * pool_conc o <= lma * n).
    { setoid_replace (lma * n) with (lma * n / pool_conc o * pool_conc o)
        by (field; lra).
      apply Qmult_le_compat_r; lra. }
    apply Qle_shift_div_r; [assumption |].
    setoid_replace (pool_conc o * pool_vol o) with (pool_vol o * pool_conc o)
      by ring.
    exact H2. }
  rewrite Etr. apply Forall2_map_same, Forall_forall. intros r Hr.
  assert (Hc : 0 < conc r).
  { rewrite Forall_forall in Hconc. specialize (Hconc r Hr). lra. }
  assert (Hr' : lma <= vol r * conc r).
  { pose proof (Qmin_list_le (vol s0 * conc s0)
                             (map (fun r => vol r * conc r) others)) as Hl.
    rewrite Forall_forall in Hl. apply Hl.
    destruct Hr as [<- | Hr]; [now left | right].
    now apply (in_map (fun r => vol r * conc r)). }
  rewrite Q.min_l.
  - field. lra.
  - apply Qle_shift_div_r; [assumption | lra].
Qed.

(** The rows of a pool in [pool]: their [vol] is the accessible volume. *)
Lemma pool_results (p : params) (pools : list pool_art) (df_all : list sample)
      (results : list (str * outcome)) (name : str) (o : outcome) :
  Pool.pool p pools df_all = Ok results -> In (name, o) results ->
  Forall (fun r => well_dead_vol p < vol r) df_all
  /\ exists pool : pool_art,
       solve p pool
             (filter (fun r => str_eqb (target_name r) name)
                     (map (fun r => set_vol r (vol r - well_dead_vol p))
                          df_all))
       = Ok o.
Proof.
  unfold Pool.pool. intros H Hin.
  destruct (forallb (fun r => Qlt_bool (well_dead_vol p) (vol r)) df_all)
    eqn:Hv; [| discriminate]. cbn [negb] in H.
  destruct (negb _); [discriminate |].
  destruct (negb _); [discriminate |].
  split.
  - apply Forall_forall. intros r Hr. rewrite forallb_forall in Hv.
    now apply Qlt_bool_iff, Hv.
  - destruct (for_each_In _ _ _ _ H Hin) as (pl & zs & _ & Hb & Hz).
    destruct (solve p _ _) as [o' |] eqn:Hs; [| discriminate].
    cbn [bind] in Hb. injection Hb as <-. destruct Hz as [E | []].
    injection E as <- <-. eexists. exact Hs.
Qed.

End PoolVolumeFacts.

(** X12: in a run of the pooling solver that returns (with a positive
    minimum pipetting volume), every pool gets a positive volume of at most
    well_max_vol, and every sample of the pool, in the order of the
    dataframe, a transfer volume that is not negative and not above its
    accessible volume (its volume less the dead volume). *)
Theorem pool_transfers_within_bounds
        (p : Pool.params) (pools : list Pool.pool_art)
        (df_all : list Pool.sample) (results : list (str * Pool.outcome))
        (name : str) (o : Pool.outcome) :
  Pool.pool p pools df_all = Ok results ->
  In (name, o) results ->
  (0 < Pool.zika_min_vol p)%Q ->
  (0 < Pool.pool_vol o /\ Pool.pool_vol o <= Pool.well_max_vol p)%Q
  /\ Forall2 (fun r t => (0 <= t /\ t <= Pool.vol r - Pool.well_dead_vol p)%Q)
             (filter (fun r => str_eqb (Pool.target_name r) name) df_all)
             (Pool.transfer_vol o).
Proof.
  intros H Hin Hz.
  destruct (pool_results _ _ _ _ _ _ H Hin) as [Hdead [pl Hs]].
  set (g := fun r => Pool.set_vol r (Pool.vol r - Pool.well_dead_vol p)%Q) in *.
  assert (Hf : filter (fun r => str_eqb (Pool.target_name r) name)
                      (map g df_all)
               = map g (filter (fun r => str_eqb (Pool.target_name r) name)
                               df_all)).
  { clear. induction df_all as [| r l IH]; [reflexivity |].
    cbn [map filter]. change (Pool.target_name (g r)) with (Pool.target_name r).
    destruct (str_eqb (Pool.target_name r) name); cbn [map]; now rewrite IH. }
  rewrite Hf in Hs.
  assert (Hvol : Forall (fun r => (0 <= Pool.vol r)%Q)
                        (map g (filter (fun r => str_eqb (Pool.target_name r) name)
                                       df_all))).
  { apply Forall_map, Forall_forall. intros r Hr.
    apply filter_In in Hr as [Hr _]. rewrite Forall_forall in Hdead.
    specialize (Hdead r Hr). unfold g. cbn [Pool.set_vol Pool.vol]. lra. }
  destruct (solve_volumes _ _ _ _ Hs Hz Hvol) as (_ & V1 & V2 & T & _).
  split; [split; assumption |].
  apply Forall2_map_left in T. exact T.
Qed.

Lemma pool_transfers_within_bounds_witness :
  exists o : Pool.outcome,
    Pool.pool Pool.default_params [Pool.mkPool "Pool1" (Some 2%Q)]
              [Pool.mkSample "S1" 8 "nM" 9 "Plate1" "A:1" "Plate2" "A:1"
                             "Plate2" 0 32 "Pool1" 0]
    = Ok [("Pool1" : str, o)]
    /\ (0 < Pool.pool_vol o /\ Pool.pool_vol o <= 180)%Q
    /\ Forall2 (fun r t => (0 <= t /\ t <= Pool.vol r - 5)%Q)
               [Pool.mkSample "S1" 8 "nM" 9 "Plate1" "A:1" "Plate2" "A:1"
                              "Plate2" 0 32 "Pool1" 0]
               (Pool.transfer_vol o).
Proof.
  eexists. split; [vm_compute; reflexivity |].
  refine (pool_transfers_within_bounds
            Pool.default_params [Pool.mkPool "Pool1" (Some 2%Q)]
            [Pool.mkSample "S1" 8 "nM" 9 "Plate1" "A:1" "Plate2" "A:1"
                           "Plate2" 0 32 "Pool1" 0]
            _ "Pool1" _ _ _ _).
  - vm_compute. reflexivity.
  - left. reflexivity.
  - reflexivity.
Defined.

(** X13: in a run of the pooling solver that returns (with a positive
    minimum pipetting volume), a pool whose concentration is not above the
    greatest concentration its samples allow holds all its sample
    transfers: their total volume is at most the pool volume, hence at
    most well_max_vol. *)
Theorem pool_samples_fit_pool_volume
        (p : Pool.params) (pools : list Pool.pool_art)
        (df_all : list Pool.sample) (results : list (str * Pool.outcome))
        (name : str) (o : Pool.outcome) :
  Pool.pool p pools df_all = Ok results ->
  In (name, o) results ->
  (0 < Pool.zika_min_vol p)%Q ->
  (Pool.pool_conc o <= Pool.pool_max_conc o)%Q ->
  (Qsum (Pool.transfer_vol o) <= Pool.pool_vol o
   /\ Qsum (Pool.transfer_vol o) <= Pool.well_max_vol p)%Q.
Proof.
  intros H Hin Hz Hle.
  destruct (pool_results _ _ _ _ _ _ H Hin) as [Hdead [pl Hs]].
  assert (Hvol : Forall (fun r => (0 <= Pool.vol r)%Q)
                        (filter (fun r => str_eqb (Pool.target_name r) name)
                                (map (fun r => Pool.set_vol
                                                 r (Pool.vol r
                                                    - Pool.well_dead_vol p)%Q)
                                     df_all))).
  { apply Forall_forall. intros r Hr. apply filter_In in Hr as [Hr _].
    apply in_map_iff in Hr as (r0 & <- & Hr0).
    rewrite Forall_forall in Hdead. specialize (Hdead r0 Hr0).
    cbn [Pool.set_vol Pool.vol]. lra. }
  destruct (solve_volumes _ _ _ _ Hs Hz Hvol) as (_ & _ & V2 & _ & T).
  specialize (T Hle). split; [assumption | lra].
Qed.

Lemma pool_samples_fit_pool_volume_witness :
  exists o : Pool.outcome,
    Pool.pool Pool.default_params [Pool.mkPool "Pool1" (Some 2%Q)]
              [Pool.mkSample "S1" 8 "nM" 9 "Plate1" "A:1" "Plate2" "A:1"
                             "Plate2" 0 32 "Pool1" 0]
    = Ok [("Pool1" : str, o)]
    /\ (Qsum (Pool.transfer_vol o) <= Pool.pool_vol o
        /\ Qsum (Pool.transfer_vol o) <= 180)%Q.
Proof.
  eexists. split; [vm_compute; reflexivity |].
  refine (pool_samples_fit_pool_volume
            Pool.default_params [Pool.mkPool "Pool1" (Some 2%Q)]
            [Pool.mkSample "S1" 8 "nM" 9 "Plate1" "A:1" "Plate2" "A:1"
                           "Plate2" 0 32 "Pool1" 0]
            _ "Pool1" _ _ _ _ _).
  - vm_compute. reflexivity.
  - left. reflexivity.
  - reflexivity.
  - vm_compute. discriminate.
Defined.

(** X14: in a run of the pooling solver that returns (with a positive
    minimum pipetting volume), a pool for which an even pool is possible
    and whose volume is not above the greatest volume its samples allow
    for its concentration is even: every sample of the pool contributes
    the same amount, pool_conc * pool_vol divided by the number of
    samples. *)
Theorem pool_even_when_feasible
        (p : Pool.params) (pools : list Pool.pool_art)
        (df_all : list Pool.sample) (results : list (str * Pool.outcome))
        (name : str) (o : Pool.outcome) (max_vol : Q) :
  Pool.pool p pools df_all = Ok results ->
  In (name, o) results ->
  (0 < Pool.zika_min_vol p)%Q ->
  Pool.pool_max_vol_given_conc o = Some max_vol ->
  (Pool.pool_vol o <= max_vol)%Q ->
  let df_pool := filter (fun r => str_eqb (Pool.target_name r) name) df_all in
  Forall2 (fun r t => (t * Pool.conc r
                       == Pool.pool_conc o * Pool.pool_vol o
                          / Pool.n_samples df_pool)%Q)
          df_pool (Pool.transfer_vol o).
Proof.
  intros H Hin Hz Hmax Hle df_pool.
  destruct (pool_results _ _ _ _ _ _ H Hin) as [Hdead [pl Hs]].
  set (g := fun r => Pool.set_vol r (Pool.vol r - Pool.well_dead_vol p)%Q) in *.
  assert (Hf : filter (fun r => str_eqb (Pool.target_name r) name)
                      (map g df_all)
               = map g df_pool).
  { unfold df_pool. clear. induction df_all as [| r l IH]; [reflexivity |].
    cbn [map filter]. change (Pool.target_name (g r)) with (Pool.target_name r).
    destruct (str_eqb (Pool.target_name r) name); cbn [map]; now rewrite IH. }
  rewrite Hf in Hs.
  assert (Hvol : Forall (fun r => (0 <= Pool.vol r)%Q) (map g df_pool)).
  { apply Forall_map, Forall_forall. intros r Hr.
    apply filter_In in Hr as [Hr _]. rewrite Forall_forall in Hdead.
    specialize (Hdead r Hr). unfold g. cbn [Pool.set_vol Pool.vol]. lra. }
  pose proof (solve_even _ _ _ _ _ Hs Hz Hvol Hmax Hle) as T.
  apply Forall2_map_left in T.
  replace (Pool.n_samples (map g df_pool)) with (Pool.n_samples df_pool) in T
    by (unfold Pool.n_samples, len; now rewrite length_map).
  exact T.
Qed.

Lemma pool_even_when_feasible_witness :
  exists o : Pool.outcome,
    Pool.pool Pool.default_params [Pool.mkPool "Pool1" (Some 2%Q)]
              [Pool.mkSample "S1" 8 "nM" 9 "Plate1" "A:1" "Plate2" "A:1"
                             "Plate2" 0 10 "Pool1" 0;
               Pool.mkSample "S2" 4 "nM" 15 "Plate1" "B:1" "Plate2" "A:1"
                             "Plate2" 0 10 "Pool1" 0]
    = Ok [("Pool1" : str, o)]
    /\ Forall2 (fun r t => (t * Pool.conc r
                            == Pool.pool_conc o * Pool.pool_vol o / 2)%Q)
               [Pool.mkSample "S1" 8 "nM" 9 "Plate1" "A:1" "Plate2" "A:1"
                              "Plate2" 0 10 "Pool1" 0;
                Pool.mkSample "S2" 4 "nM" 15 "Plate1" "B:1" "Plate2" "A:1"
                              "Plate2" 0 10 "Pool1" 0]
               (Pool.transfer_vol o).
Proof.
  eexists. split; [vm_compute; reflexivity |].
  refine (pool_even_when_feasible
            Pool.default_params [Pool.mkPool "Pool1" (Some 2%Q)]
            [Pool.mkSample "S1" 8 "nM" 9 "Plate1" "A:1" "Plate2" "A:1"
                           "Plate2" 0 10 "Pool1" 0;
             Pool.mkSample "S2" 4 "nM" 15 "Plate1" "B:1" "Plate2" "A:1"
                           "Plate2" 0 10 "Pool1" 0]
            _ "Pool1" _ _ _ _ _ _ _).
  - vm_compute. reflexivity.
  - left. reflexivity.
  - reflexivity.
  - vm_compute. reflexivity.
  - vm_compute. discriminate.
Defined.

Section WorklistColumnFacts.
Import Worklist.

Lemma multi_aspirate_filter_spec (r next : transfer) :
  multi_aspirate_filter r next = true ->
  dst_pos r = dst_pos next /\ dst_well r = dst_well next
  /\ src_name r = "buffer_plate" /\ src_name next <> "buffer_plate"
  /\ transfer_vol r + transfer_vol next <= 5000.
Proof.
  unfold multi_aspirate_filter. intros H.
  apply andb_prop in H as [H H5]. apply andb_prop in H as [H H4].
  apply andb_prop in H as [H H3]. apply andb_prop in H as [H1 H2].
  apply Z.eqb_eq in H1. apply str_eqb_eq in H2, H3. apply Z.leb_le in H5.
  apply negb_true_iff, str_eqb_neq in H4. auto.
Qed.

Lemma transfer_types_head (m : bool) (r : transfer) (rest : list transfer) :
  hd_error (transfer_types m (r :: rest)) = Some MULTI_ASPIRATE ->
  m = true /\ exists next : transfer,
    hd_error rest = Some next /\ multi_aspirate_filter r next = true.
Proof.
  cbn [transfer_types hd_error]. destruct rest as [| next rest'];
    [discriminate |].
  destruct m; [| discriminate]. cbn [andb].
  destruct (multi_aspirate_filter r next) eqn:F; [| discriminate].
  intros _. split; [reflexivity |]. now exists next.
Qed.

Lemma transfer_types_no_change (m : bool) (df : list transfer) :
  Forall (fun t => t <> CHANGE_PIPETTES) (transfer_types m df).
Proof.
  induction df as [| r rest IH]; [constructor |].
  cbn [transfer_types]. constructor; [| assumption].
  destruct rest as [| next rest']; [discriminate |].
  destruct (m && multi_aspirate_filter r next); discriminate.
Qed.

Lemma count_occ_join (parts : list str) :
  Forall (fun s => count_occ ascii_dec s ","%char = 0%nat) parts ->
  count_occ ascii_dec (join "," parts) ","%char = (List.length parts - 1)%nat.
Proof.
  induction 1 as [| s parts Hs Hparts IH]; [reflexivity |].
  destruct parts as [| s' parts']; [exact Hs |].
  change (join "," (s :: s' :: parts'))
    with (s ++ "," ++ join "," (s' :: parts')).
  rewrite !count_occ_app, Hs, IH. cbn. lia.
Qed.

Lemma no_comma_uint (d : Decimal.uint) :
  count_occ ascii_dec (list_ascii_of_string (NilEmpty.string_of_uint d))
            ","%char = 0%nat.
Proof.
  induction d; cbn [NilEmpty.string_of_uint list_ascii_of_string];
    try reflexivity;
    rewrite count_occ_cons_neq by discriminate; assumption.
Qed.

Lemma no_comma_str_of_Z (n : Z) :
  count_occ ascii_dec (str_of_Z n) ","%char = 0%nat.
Proof.
  unfold str_of_Z, NilZero.string_of_int.
  destruct (Z.to_int n) as [d | d]; unfold NilZero.string_of_uint.
  - destruct d; try reflexivity; apply no_comma_uint.
  - cbn [list_ascii_of_string].
    rewrite count_occ_cons_neq by discriminate.
    destruct d; try reflexivity; apply no_comma_uint.
Qed.

Lemma no_comma_replace (s : str) :
  count_occ ascii_dec (replace_char "," ";" s) ","%char = 0%nat.
Proof.
  rewrite replace_char_map. induction s as [| c s IH]; [reflexivity |].
  cbn [map]. destruct (Ascii.eqb_spec c ",") as [-> | N].
  - rewrite count_occ_cons_neq by discriminate. assumption.
  - rewrite count_occ_cons_neq by assumption. assumption.
Qed.

Lemma transfer_line_commas (t : transfer_type) (r : transfer) :
  count_occ ascii_dec (transfer_line t tip_strat_always (replace_commas r))
            ","%char
  = match t with
    | COPY => 9%nat
    | MULTI_ASPIRATE => 5%nat
    | CHANGE_PIPETTES => 0%nat
    end.
Proof.
  destruct t; unfold transfer_line; rewrite count_occ_app;
    try rewrite count_occ_join;
    try reflexivity;
    cbn [replace_commas src_pos src_col src_row dst_pos dst_col dst_row
                        transfer_vol];
    repeat (constructor;
            try apply no_comma_str_of_Z; try apply no_comma_replace;
            try reflexivity).
Qed.

End WorklistColumnFacts.

(** X15: in the column of transfer types, a row is marked MULTI_ASPIRATE
    only when multi-aspiration is on, the row is a buffer transfer, and the
    row after it exists, is not a buffer transfer, goes to the same
    destination position and well, and the two volumes add up to at most
    5000 nl; the row after it is then marked COPY. So the last row is
    never MULTI_ASPIRATE, and no two MULTI_ASPIRATE rows follow each
    other. *)
Theorem multi_aspirate_only_before_sample_copy
        (multi_aspirate : bool) (df : list Worklist.transfer) (i : nat) :
  nth_error (Worklist.transfer_types multi_aspirate df) i
  = Some Worklist.MULTI_ASPIRATE ->
  multi_aspirate = true
  /\ exists r next : Worklist.transfer,
       nth_error df i = Some r /\ nth_error df (S i) = Some next
       /\ Worklist.src_name r = "buffer_plate"
       /\ Worklist.src_name next <> "buffer_plate"
       /\ Worklist.dst_pos r = Worklist.dst_pos next
       /\ Worklist.dst_well r = Worklist.dst_well next
       /\ Worklist.transfer_vol r + Worklist.transfer_vol next <= 5000
       /\ nth_error (Worklist.transfer_types multi_aspirate df) (S i)
          = Some Worklist.COPY.
Proof.
  revert i. induction df as [| r rest IH]; intros i H.
  - destruct i; discriminate.
  - destruct i as [| i].
    + destruct (transfer_types_head multi_aspirate r rest H)
        as (-> & next & Hnext & F).
      split; [reflexivity |]. exists r, next.
      destruct rest as [| next' rest']; [discriminate |].
      injection Hnext as ->.
      destruct (multi_aspirate_filter_spec _ _ F) as (P & W & B & S' & V).
      repeat (split; [first [reflexivity | assumption] |]).
      cbn [Worklist.transfer_types nth_error].
      destruct rest' as [| next2 rest2]; [reflexivity |].
      replace (Worklist.multi_aspirate_filter next next2) with false;
        [reflexivity |].
      symmetry. unfold Worklist.multi_aspirate_filter.
      apply str_eqb_neq in S'. rewrite S'.
      now rewrite !andb_false_r.
    + cbn [Worklist.transfer_types nth_error] in H.
      destruct (IH i H) as (Hm & r' & next & H1 & H2 & Hrest).
      split; [assumption |]. exists r', next.
      split; [exact H1 |]. split; [exact H2 |].
      exact Hrest.
Qed.

Lemma multi_aspirate_only_before_sample_copy_witness :
  exists r next : Worklist.transfer,
    nth_error
      [Worklist.mkTransfer "buffer_plate" "A:1" "dst" "A:1" 2000 2 4
                           "1" "1" "1" "1";
       Worklist.mkTransfer "src" "A:1" "dst" "A:1" 1000 3 4 "1" "1" "1" "1"]
      0 = Some r
    /\ nth_error
         [Worklist.mkTransfer "buffer_plate" "A:1" "dst" "A:1" 2000 2 4
                              "1" "1" "1" "1";
          Worklist.mkTransfer "src" "A:1" "dst" "A:1" 1000 3 4 "1" "1" "1" "1"]
         1 = Some next
    /\ Worklist.src_name r = "buffer_plate"
    /\ Worklist.src_name next <> "buffer_plate"
    /\ Worklist.dst_pos r = Worklist.dst_pos next
    /\ Worklist.dst_well r = Worklist.dst_well next
    /\ Worklist.transfer_vol r + Worklist.transfer_vol next <= 5000
    /\ nth_error
         (Worklist.transfer_types
            true
            [Worklist.mkTransfer "buffer_plate" "A:1" "dst" "A:1" 2000 2 4
                                 "1" "1" "1" "1";
             Worklist.mkTransfer "src" "A:1" "dst" "A:1" 1000 3 4
                                 "1" "1" "1" "1"]) 1
       = Some Worklist.COPY.
Proof.
  refine (proj2 (multi_aspirate_only_before_sample_copy
                   true
                   [Worklist.mkTransfer "buffer_plate" "A:1" "dst" "A:1" 2000
                                        2 4 "1" "1" "1" "1";
                    Worklist.mkTransfer "src" "A:1" "dst" "A:1" 1000 3 4
                                        "1" "1" "1" "1"]
                   0 _)).
  reflexivity.
Defined.

(** X16: the worklist has one line for each transfer, and whatever text
    the names, wells, rows and columns of the transfers hold (commas
    included), a COPY line has exactly nine commas, that is ten fields, and
    a MULTI_ASPIRATE line exactly five, that is six fields; no
    CHANGE_PIPETTES line is written. *)
Theorem transfer_lines_field_counts
        (multi_aspirate : bool) (df : list Worklist.transfer) :
  List.length (Worklist.transfer_lines multi_aspirate df) = List.length df
  /\ Forall2
       (fun t line =>
          (t = Worklist.COPY /\ count_occ ascii_dec line ","%char = 9%nat)
          \/ (t = Worklist.MULTI_ASPIRATE
              /\ count_occ ascii_dec line ","%char = 5%nat))
       (Worklist.transfer_types multi_aspirate
                                (map Worklist.replace_commas df))
       (Worklist.transfer_lines multi_aspirate df).
Proof.
  unfold Worklist.transfer_lines.
  split.
  - now rewrite length_map, length_combine, transfer_types_length, Nat.min_id,
      length_map.
  - pose proof (transfer_types_no_change
                  multi_aspirate (map Worklist.replace_commas df)) as Hno.
    pose proof (transfer_types_length
                  multi_aspirate (map Worklist.replace_commas df)) as Hlen.
    revert Hno Hlen.
    generalize (Worklist.transfer_types multi_aspirate
                                        (map Worklist.replace_commas df)).
    induction df as [| r df IH]; intros [| t ts] Hno Hlen; try discriminate.
    + constructor.
    + cbn [map combine fst snd]. inversion Hno as [| ? ? Ht Hts]; subst.
      constructor.
      * pose proof (transfer_line_commas t r) as Hc.
        destruct t; [left | right | contradiction]; split;
          first [reflexivity | exact Hc].
      * apply IH; [assumption |]. cbn [List.length map] in Hlen. lia.
Qed.

(** * Further properties of the Zika utilities *)

Section SplitFacts.
Import Utils.

Lemma with_vol_same (r : row) : with_vol r (vol r) = r.
Proof. destruct r as [t []]. reflexivity. Qed.

Lemma with_vol_twice (r : row) (a b : Z) :
  with_vol (with_vol r a) b = with_vol r b.
Proof. reflexivity. Qed.

Lemma vol_with_vol (r : row) (a : Z) : vol (with_vol r a) = a.
Proof. reflexivity. Qed.

Lemma total_vol_app (a b : list row) :
  total_vol (a ++ b) = total_vol a + total_vol b.
Proof.
  induction a as [| r a IH]; [reflexivity |].
  cbn [app total_vol fold_right]. fold (total_vol (a ++ b)) (total_vol a).
  rewrite IH. lia.
Qed.

Lemma total_vol_repeat (r : row) (k : nat) :
  total_vol (repeat r k) = Z.of_nat k * vol r.
Proof.
  induction k as [| k IH]; [reflexivity |].
  cbn [repeat total_vol fold_right]. fold (total_vol (repeat r k)).
  rewrite IH. lia.
Qed.

(** The loop ends before the fuel does, with [k] copies appended and the
    rest, of at most 5000 nl, left in the row. *)
Lemma split_loop_spec (fuel : nat) (row_cp : row) (acc : list row) (r : row) :
  vol r <= Z.of_nat fuel ->
  exists k : nat,
    split_loop fuel row_cp acc r
    = (acc ++ repeat row_cp k, with_vol r (vol r - Z.of_nat k * max_vol))
    /\ vol r - Z.of_nat k * max_vol <= max_vol
    /\ (max_vol < vol r -> 0 < vol r - Z.of_nat k * max_vol /\ (0 < k)%nat)
    /\ (vol r <= max_vol -> k = 0%nat).
Proof.
  revert acc r. induction fuel as [| fuel IH]; intros acc r Hfuel.
  - exists 0%nat. cbn [split_loop repeat]. rewrite app_nil_r.
    replace (vol r - Z.of_nat 0 * max_vol) with (vol r) by lia.
    rewrite with_vol_same. unfold max_vol.
    repeat split; lia.
  - cbn [split_loop]. destruct (Z.gtb_spec (vol r) max_vol) as [G | G].
    + destruct (IH (acc ++ [row_cp]) (with_vol r (vol r - max_vol)))
        as (k & E & Hle & Hpos & Hzero).
      { rewrite vol_with_vol. unfold max_vol. lia. }
      exists (S k). rewrite E, with_vol_twice, !vol_with_vol.
      rewrite vol_with_vol in Hle, Hpos, Hzero.
      replace (vol r - max_vol - Z.of_nat k * max_vol)
        with (vol r - Z.of_nat (S k) * max_vol) in * by lia.
      split; [| split; [assumption | split]].
      * f_equal. now rewrite <- app_assoc.
      * intros _. split; [| lia].
        destruct (Z_le_gt_dec (vol r - max_vol) max_vol) as [L | L].
        -- rewrite (Hzero L). unfold max_vol in *. lia.
        -- apply Hpos. lia.
      * intros L. lia.
    + exists 0%nat. cbn [repeat]. rewrite app_nil_r.
      replace (vol r - Z.of_nat 0 * max_vol) with (vol r) by lia.
      rewrite with_vol_same. repeat split; lia.
Qed.

(** What one row becomes. *)
Lemma split_row_spec (r : row) :
  Forall (fun r' => vol r' <= max_vol /\ r' = with_vol r (vol r')
                    /\ (0 < vol r -> 0 < vol r')) (split_row r)
  /\ total_vol (split_row r) = vol r.
Proof.
  unfold split_row. destruct (Z.gtb_spec (vol r) max_vol) as [G | G].
  - destruct (split_loop_spec (Z.to_nat (vol r)) (with_vol r max_vol) [] r)
      as (k & E & Hle & Hpos & _); [lia |].
    rewrite E. cbn [app]. destruct (Hpos G) as [Hp Hk].
    assert (Hchunks : Forall (fun r' => vol r' <= max_vol
                                        /\ r' = with_vol r (vol r')
                                        /\ (0 < vol r -> 0 < vol r'))
                             (repeat (with_vol r max_vol) k)).
    { apply Forall_forall. intros r' Hr'. apply repeat_spec in Hr'. subst r'.
      rewrite vol_with_vol. unfold max_vol. repeat split; lia. }
    assert (Hrest : (fun r' => vol r' <= max_vol /\ r' = with_vol r (vol r')
                               /\ (0 < vol r -> 0 < vol r'))
                      (with_vol r (vol r - Z.of_nat k * max_vol))).
    { cbn beta. rewrite vol_with_vol.
      split; [exact Hle | split; [reflexivity | intros _; exact Hp]]. }
    assert (Htot : total_vol (repeat (with_vol r max_vol) k)
                   + (vol r - Z.of_nat k * max_vol) = vol r).
    { rewrite total_vol_repeat, vol_with_vol. lia. }
    assert (Hlast : Forall (fun r' => vol r' <= max_vol
                                      /\ r' = with_vol r (vol r')
                                      /\ (0 < vol r -> 0 < vol r'))
                           (repeat (with_vol r max_vol) k
                              ++ [with_vol r (vol r - Z.of_nat k * max_vol)])
                    /\ total_vol (repeat (with_vol r max_vol) k
                                    ++ [with_vol
                                          r (vol r - Z.of_nat k * max_vol)])
                       = vol r).
    { split.
      - apply Forall_app. split; [assumption | constructor; [assumption |]].
        constructor.
      - rewrite total_vol_app. cbn [total_vol fold_right].
        rewrite vol_with_vol. lia. }
    destruct (src_type r) as [t |]; [| exact Hlast].
    destruct (str_eqb t "sample"); [| exact Hlast].
    split.
    + constructor; assumption.
    + cbn [total_vol fold_right].
      fold (total_vol (repeat (with_vol r max_vol) k)).
      rewrite vol_with_vol. lia.
  - split.
    + constructor; [| constructor]. rewrite with_vol_same.
      repeat split; [assumption | tauto].
    + cbn [total_vol fold_right]. lia.
Qed.

End SplitFacts.

(** X17: the splitting of the transfers in format_worklist. A frame with a
    transfer of 180000 nl or more is refused with the error of the
    assertion. Otherwise the loop ends for every row and the result has
    only transfers of at most 5000 nl; each of them is a row of the frame
    with another volume at most; the total volume is that of the frame;
    and positive volumes are split into positive volumes. *)
Theorem split_transfers_conserves_volume (df : list Utils.row) :
  ((exists r : Utils.row, In r df /\ 180000 <= Utils.vol r) ->
   Utils.split_transfers df
   = Raise (AssertionError "Some transfer volumes exceed 180 ul"))
  /\ (Forall (fun r => Utils.vol r < 180000) df ->
      exists df_split : list Utils.row,
        Utils.split_transfers df = Ok df_split
        /\ Forall (fun r' => Utils.vol r' <= 5000) df_split
        /\ Forall (fun r' => exists r : Utils.row,
                       In r df /\ r' = Utils.with_vol r (Utils.vol r'))
                  df_split
        /\ total_vol df_split = total_vol df
        /\ (Forall (fun r => 0 < Utils.vol r) df ->
            Forall (fun r' => 0 < Utils.vol r') df_split)).
Proof.
  unfold Utils.split_transfers. split.
  - intros (r & Hr & Hbig).
    replace (forallb (fun r => Utils.vol r <? 180000) df) with false;
      [reflexivity |].
    symmetry. apply not_true_iff_false. intros H.
    rewrite forallb_forall in H. specialize (H r Hr).
    apply Z.ltb_lt in H. lia.
  - intros Hdf.
    replace (forallb (fun r => Utils.vol r <? 180000) df) with true.
    2:{ symmetry. apply forallb_forall. intros r Hr.
        rewrite Forall_forall in Hdf. apply Z.ltb_lt. now apply Hdf. }
    cbn [negb]. eexists. split; [reflexivity |].
    clear Hdf. induction df as [| r df (I1 & I2 & I3 & I4)].
    + cbn. repeat split; constructor.
    + destruct (split_row_spec r) as [Hrow Htot].
      cbn [flat_map]. repeat split.
      * apply Forall_app. split; [| assumption].
        eapply Forall_impl; [| exact Hrow]. intros r' (H & _). exact H.
      * apply Forall_app. split.
        -- eapply Forall_impl; [| exact Hrow]. intros r' (_ & H & _).
           exists r. split; [now left | exact H].
        -- eapply Forall_impl; [| exact I2]. intros r' (r0 & Hr0 & E).
           exists r0. split; [now right | exact E].
      * rewrite total_vol_app, Htot, I3. reflexivity.
      * intros Hpos. inversion Hpos as [| ? ? Hr Hrest]; subst.
        apply Forall_app. split; [| now apply I4].
        eapply Forall_impl; [| exact Hrow]. intros r' (_ & _ & H).
        now apply H.
Qed.

Lemma split_transfers_conserves_volume_witness :
  exists df_split : list Utils.row,
    Utils.split_transfers
      [Utils.mkRow (Some ("sample" : str))
                   (Worklist.mkTransfer "src" "A:1" "dst" "A:1" 12000 3 4
                                        "1" "1" "1" "1");
       Utils.mkRow (Some ("buffer" : str))
                   (Worklist.mkTransfer "buffer_plate" "A:1" "dst" "B:1" 3000
                                        2 4 "1" "1" "2" "1")]
    = Ok df_split
    /\ Forall (fun r' => Utils.vol r' <= 5000) df_split
    /\ total_vol df_split = 15000.
Proof.
  destruct (proj2 (split_transfers_conserves_volume
                     [Utils.mkRow (Some ("sample" : str))
                                  (Worklist.mkTransfer "src" "A:1" "dst" "A:1"
                                                       12000 3 4
                                                       "1" "1" "1" "1");
                      Utils.mkRow (Some ("buffer" : str))
                                  (Worklist.mkTransfer "buffer_plate" "A:1"
                                                       "dst" "B:1" 3000 2 4
                                                       "1" "1" "2" "1")]))
    as (df_split & E & H1 & _ & H3 & _).
  - repeat constructor.
  - exists df_split. split; [exact E |]. split; [exact H1 | exact H3].
Defined.

Section WellFacts.
Import Utils.

Lemma split_on_no_sep (sep : ascii) (s : str) :
  ~ In sep s -> split_on sep s = [s].
Proof.
  induction s as [| c s IH]; intros H; [reflexivity |].
  cbn [split_on]. destruct (Ascii.eqb_spec c sep) as [-> | N].
  - exfalso. apply H. now left.
  - rewrite IH; [reflexivity |]. intros Hin. apply H. now right.
Qed.

Lemma split_on_app (sep : ascii) (a b : str) :
  ~ In sep a -> split_on sep (a ++ sep :: b) = a :: split_on sep b.
Proof.
  induction a as [| c a IH]; intros H.
  - cbn [app split_on]. now rewrite Ascii.eqb_refl.
  - cbn [app split_on]. destruct (Ascii.eqb_spec c sep) as [-> | N].
    + exfalso. apply H. now left.
    + rewrite IH; [reflexivity |]. intros Hin. apply H. now right.
Qed.

(** Splitting is undone by joining, and no piece holds the separator. *)
Lemma split_on_join (sep : ascii) (s : str) :
  join [sep] (split_on sep s) = s
  /\ Forall (fun piece => ~ In sep piece) (split_on sep s)
  /\ split_on sep s <> [].
Proof.
  induction s as [| c s (IH1 & IH2 & IH3)].
  - cbn. repeat split; [constructor; [tauto | constructor] | discriminate].
  - cbn [split_on]. destruct (Ascii.eqb_spec c sep) as [-> | N].
    + destruct (split_on sep s) as [| w ws] eqn:E; [contradiction |].
      repeat split.
      * change (join [sep] ([] :: w :: ws)) with ([] ++ [sep] ++ join [sep] (w :: ws)).
        now rewrite IH1.
      * constructor; [tauto | assumption].
      * discriminate.
    + destruct (split_on sep s) as [| w ws] eqn:E; [contradiction |].
      repeat split.
      * destruct ws as [| w' ws'].
        -- cbn in *. now rewrite IH1.
        -- change (join [sep] ((c :: w) :: w' :: ws'))
             with (c :: (w ++ [sep] ++ join [sep] (w' :: ws'))).
           change (join [sep] (w :: w' :: ws'))
             with (w ++ [sep] ++ join [sep] (w' :: ws')) in IH1.
           now rewrite IH1.
      * inversion IH2 as [| ? ? Hw Hws]; subst.
        constructor; [| assumption].
        intros [Hc | Hin]; [now apply N | now apply Hw].
      * discriminate.
Qed.

Lemma rowdict_get_row (k : nat) :
  (k < 8)%nat ->
  rowdict_get [nth k ("ABCDEFGH" : str) " "%char] = Ok (row_digit k).
Proof.
  intros H. do 8 (destruct k as [| k]; [reflexivity |]). lia.
Qed.

Lemma rowdict_get_inv (row_letter row : str) :
  rowdict_get row_letter = Ok row ->
  exists k : nat,
    (k < 8)%nat /\ row_letter = [nth k ("ABCDEFGH" : str) " "%char]
    /\ row = row_digit k.
Proof.
  unfold rowdict_get.
  destruct (find _ rowdict) as [e |] eqn:F; [| discriminate].
  intros E. injection E as <-. apply find_some in F as [Hin E].
  apply str_eqb_eq in E. subst row_letter.
  cbn in Hin.
  repeat (destruct Hin as [<- | Hin];
          [match goal with
           | |- exists k, _ /\ fst (?l, _) = _ /\ _ =>
               first [exists 0%nat; split; [lia | split; reflexivity]
                     | exists 1%nat; split; [lia | split; reflexivity]
                     | exists 2%nat; split; [lia | split; reflexivity]
                     | exists 3%nat; split; [lia | split; reflexivity]
                     | exists 4%nat; split; [lia | split; reflexivity]
                     | exists 5%nat; split; [lia | split; reflexivity]
                     | exists 6%nat; split; [lia | split; reflexivity]
                     | exists 7%nat; split; [lia | split; reflexivity]]
           end |]).
  destruct Hin.
Qed.

End WellFacts.

(** The two directions of the decoding of well names. *)
Lemma well2rowcol_decodes_well_names_aux :
  (forall entries : list (nat * str),
      Forall (fun e => (fst e < 8)%nat /\ ~ In ":"%char (snd e)) entries ->
      Utils.well2rowcol (map (fun e => well_name (fst e) (snd e)) entries)
      = Ok (map (fun e => row_digit (fst e)) entries, map snd entries))
  /\ (forall (well_iter rows cols : list str),
         Utils.well2rowcol well_iter = Ok (rows, cols) ->
         exists entries : list (nat * str),
           Forall (fun e => (fst e < 8)%nat /\ ~ In ":"%char (snd e)) entries
           /\ well_iter = map (fun e => well_name (fst e) (snd e)) entries
           /\ rows = map (fun e => row_digit (fst e)) entries
           /\ cols = map snd entries).
Proof.
  split.
  - induction 1 as [| [k col] entries [Hk Hcol] Hrest IH]; [reflexivity |].
    cbn [map fst snd Utils.well2rowcol]. unfold well_name at 1.
    cbn [fst snd] in Hk, Hcol.
    change ([nth k (list_ascii_of_string "ABCDEFGH") " "%char] ++ ":" ++ col)
      with ([nth k (list_ascii_of_string "ABCDEFGH") " "%char]
              ++ ":"%char :: col).
    rewrite split_on_app.
    2:{ intros [E | []]. revert E.
        do 8 (destruct k as [| k]; [discriminate |]). lia. }
    rewrite (split_on_no_sep _ col Hcol).
    rewrite (rowdict_get_row k Hk). cbn [bind]. rewrite IH. reflexivity.
  - induction well_iter as [| well rest IH]; intros rows cols H.
    + injection H as <- <-. exists []. repeat split. constructor.
    + cbn [Utils.well2rowcol] in H.
      destruct (split_on_join ":" well) as (J & P & _).
      destruct (split_on ":" well) as [| row_letter [| col_number [| x l]]];
        try discriminate.
      destruct (Utils.rowdict_get row_letter) as [row |] eqn:R;
        [| discriminate].
      cbn [bind] in H.
      destruct (Utils.well2rowcol rest) as [[rows' cols'] |] eqn:W;
        [| discriminate].
      cbn [bind fst snd] in H. injection H as <- <-.
      destruct (IH rows' cols' eq_refl) as (entries & He & -> & -> & ->).
      destruct (rowdict_get_inv _ _ R) as (k & Hk & -> & ->).
      exists ((k, col_number) :: entries).
      inversion P as [| ? ? _ P']; subst. inversion P' as [| ? ? Hc _]; subst.
      repeat split.
      constructor; [split; assumption | assumption].
Qed.

(** X18: well2rowcol decodes exactly the well names made of a row letter
    from A to H, a colon and a column text without a colon. For such
    names it returns the digits 1 to 8 of the rows and the column texts as
    they stand, in the order of the wells; and whenever it returns, every
    well has that form. *)
Theorem well2rowcol_decodes_well_names :
  (forall entries : list (nat * str),
      Forall (fun e => (fst e < 8)%nat /\ ~ In ":"%char (snd e)) entries ->
      Utils.well2rowcol (map (fun e => well_name (fst e) (snd e)) entries)
      = Ok (map (fun e => row_digit (fst e)) entries, map snd entries))
  /\ (forall (well_iter rows cols : list str),
         Utils.well2rowcol well_iter = Ok (rows, cols) ->
         exists entries : list (nat * str),
           Forall (fun e => (fst e < 8)%nat /\ ~ In ":"%char (snd e)) entries
           /\ well_iter = map (fun e => well_name (fst e) (snd e)) entries
           /\ rows = map (fun e => row_digit (fst e)) entries
           /\ cols = map snd entries).
Proof. exact well2rowcol_decodes_well_names_aux. Qed.

Lemma well2rowcol_decodes_well_names_witness :
  Utils.well2rowcol ["A:1" : str; "H:12" : str]
  = Ok (["1" : str; "8" : str], ["1" : str; "12" : str]).
Proof.
  refine (proj1 well2rowcol_decodes_well_names
                [(0%nat, "1" : str); (7%nat, "12" : str)] _).
  repeat constructor; cbn; try lia; intros H;
    repeat (destruct H as [H | H]; [discriminate H |]); exact H.
Defined.

Section FirstColumnFacts.
Import Utils.

Lemma slice_to_drop_last {A : Type} (a : list A) (c : A) :
  slice_to (a ++ [c]) (-1) = a.
Proof.
  unfold slice_to. cbn [Z.leb Z.compare]. unfold len.
  rewrite length_app. cbn [List.length].
  replace (Z.to_nat (Z.of_nat (List.length a + 1) + -1)) with (List.length a)
    by lia.
  rewrite firstn_app, firstn_all, Nat.sub_diag. cbn [firstn].
  apply app_nil_r.
Qed.

End FirstColumnFacts.

(** X19: the first-column strategy replaces the last character of the
    well name by 1 and keeps the rest. For a well in row A to H whose
    column text ends in a character c, well2rowcol then finds the same row
    and the column text with 1 in place of c: column 7 becomes column 1,
    but column 12 becomes column 11. *)
Theorem first_column_replaces_last_character
        (k : nat) (col : str) (c : ascii) :
  (k < 8)%nat -> ~ In ":"%char col ->
  Utils.first_column (well_name k (col ++ [c])) = well_name k (col ++ "1")
  /\ Utils.well2rowcol [Utils.first_column (well_name k (col ++ [c]))]
     = Ok ([row_digit k], [col ++ "1"]).
Proof.
  intros Hk Hcol.
  assert (E : Utils.first_column (well_name k (col ++ [c]))
              = well_name k (col ++ "1")).
  { unfold Utils.first_column, well_name.
    change ([nth k (list_ascii_of_string "ABCDEFGH") " "%char]
              ++ list_ascii_of_string ":" ++ col ++ [c])
      with (([nth k (list_ascii_of_string "ABCDEFGH") " "%char]
               ++ list_ascii_of_string ":" ++ col) ++ [c]).
    rewrite slice_to_drop_last. now rewrite <- !app_assoc. }
  split; [exact E |]. rewrite E.
  apply (proj1 well2rowcol_decodes_well_names_aux [(k, col ++ "1")]).
  constructor; [| constructor]. split; [exact Hk |].
  cbn [snd]. intros Hin. apply in_app_or in Hin as [Hin | [Hin | []]];
    [now apply Hcol | discriminate Hin].
Qed.

Lemma first_column_replaces_last_character_witness :
  Utils.first_column "C:12" = "C:11"
  /\ Utils.well2rowcol [Utils.first_column "C:12"]
     = Ok (["3" : str], ["11" : str]).
Proof.
  refine (first_column_replaces_last_character 2 "1" "2" _ _).
  - lia.
  - intros [H | []]. discriminate H.
Defined.

Section FillingFacts.
Import Utils.
Local Open Scope Q_scope.

Lemma load_not_assigned (p : buffer_params) (ws : list str) (vols : list Q)
      (w : str) :
  ~ In w ws -> load p (combine ws vols) w = 0.
Proof.
  revert vols. induction ws as [| w' ws IH]; intros [| v vols] H;
    try reflexivity.
  cbn [combine load]. destruct (str_eqb w' w) eqn:E.
  - apply str_eqb_eq in E. exfalso. apply H. now left.
  - apply IH. intros Hin. apply H. now right.
Qed.

Lemma wells_NoDup : NoDup wells.
Proof.
  rewrite <- (eq_refl : nodup (list_eq_dec ascii_dec) wells = wells).
  apply NoDup_nodup.
Qed.

(** The invariant of the loop: no well of the iterator is the current well
    or comes twice, and the current well holds at most its capacity. *)
Lemma fill_wells_inv (p : buffer_params) (transfer_vols : list Q) :
  well_dead_vol p <= well_max_vol p ->
  Forall (fun v => well_dead_vol p + vol_to_add p v <= well_max_vol p)
         transfer_vols ->
  forall (st st_end : filling) (src_wells : list str),
    fill_wells p st transfer_vols = Ok (src_wells, st_end) ->
    NoDup (current_well st :: well_iter st) ->
    current_well_vol st <= well_max_vol p ->
    List.length src_wells = List.length transfer_vols
    /\ Forall (fun w => w = current_well st \/ In w (well_iter st)) src_wells
    /\ current_well_vol st
       + load p (combine src_wells transfer_vols) (current_well st)
       <= well_max_vol p
    /\ (forall w : str,
           In w (well_iter st) ->
           well_dead_vol p + load p (combine src_wells transfer_vols) w
           <= well_max_vol p).
Proof.
  intros Hdead Hfit.
  induction Hfit as [| v vols Hv Hfit IH]; intros st st_end src_wells H Hnd Hcur.
  - cbn [fill_wells] in H. injection H as <- <-. cbn [combine load].
    repeat split; [constructor | lra | intros w _; lra].
  - cbn [fill_wells] in H.
    destruct (Qlt_bool (well_max_vol p) (current_well_vol st + vol_to_add p v))
      eqn:Over.
    + (* Start on the next well *)
      destruct (well_iter st) as [| w1 ws1] eqn:Hiter; [discriminate |].
      cbn [bind current_well current_well_vol well_iter] in H.
      destruct (fill_wells p _ vols) as [[out st_out] |] eqn:Hrest;
        [| discriminate].
      cbn [bind fst snd] in H. injection H as <- <-.
      inversion Hnd as [| ? ? Hcw Hnd']; subst.
      destruct (IH _ _ _ Hrest) as (L & M & C & R).
      { exact Hnd'. }
      { cbn [current_well_vol]. exact Hv. }
      cbn [current_well current_well_vol well_iter] in L, M, C, R.
      assert (Hne : str_eqb w1 (current_well st) = false).
      { apply str_eqb_neq. intros E. apply Hcw. rewrite <- E. now left. }
      split; [cbn [List.length]; now rewrite L |]. split.
      { constructor; [right; now left |].
        eapply Forall_impl; [| exact M].
        intros w [-> | Hw]; right; [now left | now right]. }
      split.
      * cbn [combine load]. rewrite Hne.
        rewrite load_not_assigned; [lra |].
        intros Hin. rewrite Forall_forall in M.
        destruct (M _ Hin) as [E | Hw]; apply Hcw;
          [rewrite E; now left | now right].
      * intros w [<- | Hw]; cbn [combine load].
        -- rewrite str_eqb_refl. lra.
        -- replace (str_eqb w1 w) with false; [now apply R |].
           symmetry. apply str_eqb_neq. intros ->.
           inversion Hnd' as [| ? ? Hw1 _]; subst. contradiction.
    + apply Qlt_bool_false in Over.
      cbn [bind current_well current_well_vol well_iter] in H.
      destruct (fill_wells p _ vols) as [[out st_out] |] eqn:Hrest;
        [| discriminate].
      cbn [bind fst snd] in H. injection H as <- <-.
      destruct (IH _ _ _ Hrest) as (L & M & C & R).
      { exact Hnd. }
      { cbn [current_well_vol]. exact Over. }
      cbn [current_well current_well_vol well_iter] in L, M, C, R.
      split; [cbn [List.length]; now rewrite L |]. split.
      { constructor; [now left | exact M]. }
      split.
      * cbn [combine load]. rewrite str_eqb_refl. lra.
      * intros w Hw. cbn [combine load].
        replace (str_eqb (current_well st) w) with false; [now apply R |].
        symmetry. apply str_eqb_neq. intros E.
        inversion Hnd as [| ? ? Hcw _]; subst. contradiction.
Qed.

End FillingFacts.

(** X20: the adaptive filling of the buffer plate. When the capacity of a
    well is not below its dead volume and every buffer transfer, with its
    estimated loss, fits into a fresh well, a run that returns gives each
    transfer a well of the plate, and no well is drawn for more than it
    holds: the dead volume and what the transfers assigned to a well take
    from it stay within well_max_vol. *)
Theorem buffer_wells_not_overfilled
        (p : Utils.buffer_params) (transfer_vols : list Q)
        (src_wells : list str) (st : Utils.filling) :
  Utils.assign_buffer_wells p transfer_vols = Ok (src_wells, st) ->
  (Utils.well_dead_vol p <= Utils.well_max_vol p)%Q ->
  Forall (fun v => (Utils.well_dead_vol p + Utils.vol_to_add p v
                    <= Utils.well_max_vol p)%Q) transfer_vols ->
  List.length src_wells = List.length transfer_vols
  /\ Forall (fun w => In w Utils.wells) src_wells
  /\ forall w : str,
       (Utils.well_dead_vol p + load p (combine src_wells transfer_vols) w
        <= Utils.well_max_vol p)%Q.
Proof.
  intros H Hdead Hfit. unfold Utils.assign_buffer_wells in H.
  pose proof wells_NoDup as Hnd.
  destruct Utils.wells as [| w0 ws0] eqn:Hwells; [discriminate |].
  destruct (fill_wells_inv p transfer_vols Hdead Hfit _ _ _ H Hnd Hdead)
    as (L & M & C & R).
  cbn [Utils.current_well Utils.current_well_vol Utils.well_iter] in M, C, R.
  split; [exact L |]. split.
  - eapply Forall_impl; [| exact M]. intros w [-> | Hw]; [now left | now right].
  - intros w. destruct (list_eq_dec ascii_dec w w0) as [-> | Hw0];
      [exact C |].
    destruct (in_dec (list_eq_dec ascii_dec) w ws0) as [Hin | Hout];
      [now apply R |].
    rewrite load_not_assigned; [lra |].
    intros Hin. rewrite Forall_forall in M.
    destruct (M _ Hin) as [E | Hw]; contradiction.
Qed.

Lemma buffer_wells_not_overfilled_witness :
  (5 + load Utils.default_buffer_params
            (combine ["A:1" : str; "A:1" : str; "B:1" : str] [100; 60; 100])
            "A:1"
   <= 180)%Q.
Proof.
  refine (proj2 (proj2 (buffer_wells_not_overfilled
                          Utils.default_buffer_params [100; 60; 100]%Q
                          ["A:1" : str; "A:1" : str; "B:1" : str]
                          (Utils.mkFilling "B:1" _ _) _ _ _)) "A:1").
  - vm_compute. reflexivity.
  - vm_compute. discriminate.
  - repeat constructor; vm_compute; discriminate.
Defined.

(** ** The deck *)

Section DeckFacts.
Import Deck.

Lemma unique_In {A : Type} (eqb : A -> A -> bool) (l : list A) (x : A) :
  In x (unique eqb l) -> In x l.
Proof.
  revert x. induction l as [| y l IH]; intros x H; [destruct H |].
  cbn [unique] in H. destruct H as [<- | H]; [now left |].
  apply filter_In in H as [H _]. right. now apply IH.
Qed.

Lemma unique_NoDup (l : list str) : NoDup (unique str_eqb l).
Proof.
  induction l as [| y l IH]; [constructor |].
  cbn [unique]. constructor.
  - intros H. apply filter_In in H as [_ H].
    now rewrite str_eqb_refl in H.
  - now apply NoDup_filter.
Qed.

Lemma unique_complete (l : list str) (x : str) :
  In x l -> In x (unique str_eqb l).
Proof.
  induction l as [| y l IH]; intros H; [destruct H |].
  cbn [unique]. destruct (list_eq_dec ascii_dec y x) as [-> | N];
    [now left |].
  right. apply filter_In. split.
  - apply IH. destruct H as [E | H]; [contradiction | assumption].
  - apply negb_true_iff. now apply str_eqb_neq.
Qed.

Lemma dict_get_set_same (d : deck) (key : str) (value : Z) :
  dict_get (dict_set d key value) key = Ok value.
Proof.
  unfold dict_get. induction d as [| [k v] d IH]; cbn [dict_set find fst].
  - now rewrite str_eqb_refl.
  - destruct (str_eqb k key) eqn:E; cbn [find fst]; rewrite E;
      [reflexivity | exact IH].
Qed.

Lemma dict_get_set_other (d : deck) (key key' : str) (value : Z) :
  key <> key' ->
  dict_get (dict_set d key value) key' = dict_get d key'.
Proof.
  intros N. unfold dict_get.
  induction d as [| [k v] d IH]; cbn [dict_set find fst].
  - replace (str_eqb key key') with false; [reflexivity |].
    symmetry. now apply str_eqb_neq.
  - destruct (str_eqb k key) eqn:E; cbn [find fst].
    + apply str_eqb_eq in E. subst k.
      replace (str_eqb key key') with false; [reflexivity |].
      symmetry. now apply str_eqb_neq.
    + destruct (str_eqb k key'); [reflexivity | exact IH].
Qed.

(** The values of a dict after an assignment: the old ones, less at most
    one, and the new one. *)
Lemma dict_set_values (d : deck) (key : str) (value : Z) (x : Z) :
  In x (map snd (dict_set d key value)) -> x = value \/ In x (map snd d).
Proof.
  induction d as [| [k v] d IH]; cbn [dict_set map snd].
  - intros [<- | []]. now left.
  - destruct (str_eqb k key); cbn [map snd].
    + intros [<- | H]; [now left | right; now right].
    + intros [<- | H]; [right; now left |].
      destruct (IH H) as [-> | H']; [now left | right; now right].
Qed.

Lemma dict_set_values_NoDup (d : deck) (key : str) (value : Z) :
  NoDup (map snd d) -> ~ In value (map snd d) ->
  NoDup (map snd (dict_set d key value)).
Proof.
  induction d as [| [k v] d IH]; cbn [dict_set map snd]; intros Hnd Hv.
  - constructor; [tauto | constructor].
  - inversion Hnd as [| ? ? Hk Hd]; subst.
    destruct (str_eqb k key); cbn [map snd].
    + constructor; [| assumption]. intros H. apply Hv. now right.
    + constructor.
      * intros H. apply dict_set_values in H as [-> | H];
          [apply Hv; now left | contradiction].
      * apply IH; [assumption |]. intros H. apply Hv. now right.
Qed.

(** The loop that puts the input plates on the deck. *)
Lemma place_plates (plates : list str) (available : list Z) (d : deck) :
  NoDup plates -> NoDup available ->
  List.length plates = List.length available ->
  NoDup (map snd d) ->
  (forall x : Z, In x available -> ~ In x (map snd d)) ->
  let d' := fold_left (fun deck pp => dict_set deck (fst pp) (snd pp))
                      (combine plates available) d in
  NoDup (map snd d')
  /\ (forall x : Z, In x (map snd d') -> In x available \/ In x (map snd d))
  /\ (forall (i : nat) (plate : str),
         nth_error plates i = Some plate ->
         dict_get d' plate = Ok (nth i available 0))
  /\ (forall key : str, ~ In key plates -> dict_get d' key = dict_get d key).
Proof.
  revert available d.
  induction plates as [| plate plates IH]; intros [| pos available] d
    Hp Ha Hlen Hd Hfresh; try discriminate.
  - cbn. repeat split; auto. intros [| i] plate H; discriminate.
  - cbn [combine fold_left fst snd].
    inversion Hp as [| ? ? Hplate Hp']; subst.
    inversion Ha as [| ? ? Hpos Ha']; subst.
    destruct (IH available (dict_set d plate pos) Hp' Ha') as (N & V & G & O).
    + cbn in Hlen. lia.
    + apply dict_set_values_NoDup; [assumption |]. apply Hfresh. now left.
    + intros x Hx H. apply dict_set_values in H as [-> | H];
        [contradiction |].
      apply (Hfresh x); [now right | assumption].
    + cbv zeta. repeat split.
      * exact N.
      * intros x Hx. destruct (V x Hx) as [H | H]; [left; now right |].
        apply dict_set_values in H as [-> | H]; [left; now left | now right].
      * intros [| i] plate' H.
        -- injection H as <-. cbn [nth]. rewrite O by assumption.
           apply dict_get_set_same.
        -- cbn [nth_error] in H. cbn [nth]. now apply G.
      * intros key Hkey. rewrite O by (intros H; apply Hkey; now right).
        apply dict_get_set_other. intros ->. apply Hkey. now left.
Qed.

Lemma plate_at_NoDup (d : deck) (plate : str) (pos : Z) :
  NoDup (map snd d) -> In (plate, pos) d ->
  Worklist.plate_at d pos = replace_char "," [] plate.
Proof.
  intros Hnd Hin. unfold Worklist.plate_at.
  destruct (find (fun e => snd e =? pos) (rev d)) as [[k v] |] eqn:F.
  - apply find_some in F as [Hk Hv]. cbn [snd fst] in *.
    apply Z.eqb_eq in Hv. subst v. apply in_rev in Hk.
    f_equal.
    clear - Hnd Hin Hk. induction d as [| [k' v'] d IH]; [destruct Hin |].
    cbn [map snd] in Hnd. inversion Hnd as [| ? ? Hv Hd]; subst.
    destruct Hin as [E | Hin], Hk as [E' | Hk].
    + congruence.
    + injection E as -> ->. exfalso. apply Hv.
      now apply (in_map snd) in Hk.
    + injection E' as -> ->. exfalso. apply Hv.
      now apply (in_map snd) in Hin.
    + now apply IH.
  - exfalso. apply in_rev in Hin.
    pose proof (find_none _ _ F (plate, pos) Hin) as E.
    cbn [snd] in E. now rewrite Z.eqb_refl in E.
Qed.

Lemma dict_get_In (d : deck) (key : str) (pos : Z) :
  dict_get d key = Ok pos -> In (key, pos) d.
Proof.
  unfold dict_get. destruct (find _ d) as [[k v] |] eqn:F; [| discriminate].
  intros E. injection E as <-. apply find_some in F as [Hin E].
  cbn [fst] in E. apply str_eqb_eq in E. now subst k.
Qed.

End DeckFacts.

(** X21: the deck that pool defines. When pool gets past its two
    assertions on the plates, every input plate is on the deck, the i-th
    of them (in the order of their first rows) at the i-th of the
    positions 2, 4, 1, 5; the output plate is at position 3 unless it is
    also an input plate; no two plates share a position; and the deck
    comment of the worklist names every plate of the deck at its
    position. *)
Theorem pool_deck_positions
        (dest_fc source_fc : list str) (deck : Deck.deck) :
  Deck.pool_deck dest_fc source_fc = Ok deck ->
  (forall (i : nat) (plate : str),
      nth_error (unique str_eqb source_fc) i = Some plate ->
      Deck.dict_get deck plate = Ok (nth i [2; 4; 1; 5] 0))
  /\ (forall dest : str,
         In dest dest_fc -> ~ In dest source_fc ->
         Deck.dict_get deck dest = Ok 3)
  /\ NoDup (map snd deck)
  /\ (forall (plate : str) (pos : Z),
         Deck.dict_get deck plate = Ok pos ->
         Worklist.plate_at deck pos = replace_char "," [] plate).
Proof.
  unfold Deck.pool_deck. intros H.
  destruct (Nat.leb_spec (List.length (unique str_eqb source_fc)) 4)
    as [L4 |]; [| discriminate]. cbn [negb] in H.
  destruct (Nat.eqb_spec (List.length (unique str_eqb dest_fc)) 1)
    as [L1 |]; [| discriminate]. cbn [negb] in H.
  destruct (unique str_eqb dest_fc) as [| dest0 [| x l]] eqn:Hu;
    try discriminate L1.
  cbn [getitem nth_error bind Deck.dict_set] in H. injection H as <-.
  set (plates := unique str_eqb source_fc) in *.
  set (available := firstn (List.length plates) [2; 4; 1; 5]).
  assert (Hav : forall i, (i < List.length plates)%nat ->
                          nth i available 0 = nth i [2; 4; 1; 5] 0).
  { intros i Hi. unfold available.
    rewrite <- (firstn_skipn (List.length plates) [2; 4; 1; 5]) at 2.
    rewrite app_nth1; [reflexivity |].
    rewrite length_firstn. cbn [List.length]. lia. }
  assert (Hsub : forall x, In x available -> In x [2; 4; 1; 5]).
  { intros x Hx. unfold available in Hx.
    rewrite <- (firstn_skipn (List.length plates) [2; 4; 1; 5]).
    apply in_or_app. now left. }
  destruct (place_plates plates available [(dest0, 3)]) as (N & V & G & O).
  - apply unique_NoDup.
  - unfold available.
    assert (Hnd : NoDup [2; 4; 1; 5])
      by (repeat constructor; cbn; intros Hin;
          repeat (destruct Hin as [Hin | Hin]; [discriminate Hin |]);
          exact Hin).
    rewrite <- (firstn_skipn (List.length plates) [2; 4; 1; 5]) in Hnd.
    now apply NoDup_app_remove_r in Hnd.
  - unfold available. rewrite length_firstn. cbn [List.length]. lia.
  - repeat constructor. intros [].
  - intros x Hx [E | []]. cbn [snd] in E. subst x.
    apply Hsub in Hx. cbn in Hx.
    repeat (destruct Hx as [Hx | Hx]; [discriminate Hx |]). exact Hx.
  - cbv zeta in N, V, G, O. split; [| split; [| split]].
    + intros i plate Hi. rewrite (G i plate Hi). f_equal. apply Hav.
      apply nth_error_Some. congruence.
    + intros dest Hd Hs.
      assert (dest = dest0) as ->.
      { apply (unique_complete dest_fc) in Hd. rewrite Hu in Hd.
        destruct Hd as [E | []]. now symmetry. }
      rewrite O.
      * unfold Deck.dict_get. cbn [find fst]. now rewrite str_eqb_refl.
      * intros Hin. apply Hs. now apply (unique_In str_eqb).
    + exact N.
    + intros plate pos Hget. apply plate_at_NoDup; [exact N |].
      now apply dict_get_In.
Qed.

Lemma pool_deck_positions_witness :
  Deck.dict_get [("Out" : str, 3); ("In1" : str, 2); ("In2" : str, 4)] "In2"
  = Ok 4
  /\ Worklist.plate_at [("Out" : str, 3); ("In1" : str, 2); ("In2" : str, 4)] 4
     = replace_char "," [] "In2".
Proof.
  destruct (pool_deck_positions
              ["Out" : str; "Out" : str; "Out" : str]
              ["In1" : str; "In2" : str; "In1" : str]
              [("Out" : str, 3); ("In1" : str, 2); ("In2" : str, 4)]
              eq_refl) as (H1 & _ & _ & H4).
  split.
  - exact (H1 1%nat "In2" eq_refl).
  - exact (H4 "In2" 4 eq_refl).
Defined.
